(** * The doubly linked list of [src/list/list.hpp]

    [List<T>] keeps its elements in heap nodes that are linked in both
    directions; the list object itself holds a node header [m_ptrs] that
    plays the role of the end node, so that [m_ptrs.next] is the head and
    [m_ptrs.prev] the tail.  Nodes and list objects refer to each other by
    address, and the address of a list object is written into its boundary
    nodes.  The embedding therefore keeps an explicit store of objects
    indexed by address, and every member function is a state transformer
    over that store.

    A member function either returns, or leaves by [std::bad_alloc], or
    stops at a fault: a pointer to no live object, a failed [assert] (the
    assertions are compiled in), or the end of the fuel that bounds a loop
    of the model.  What [operator new] answers is an argument of [insert];
    the loops take a bound on their rounds, and the theorems give a bound
    that is enough.

    The source deletes a node in two ways.  [clear()] and the destructor
    cast the pointer to [ListNode<T>*] first, so the node is destroyed
    with its value.  [erase] deletes through the [ListNodeHeader<T>*] that
    the iterator holds; the header type has no virtual destructor, which
    the language leaves undefined, and what the delete-expression does
    with that static type is to destroy a header and hand the storage
    back.  The embedding keeps the two apart: after the second one the
    store records, at the address, the value that was never destroyed. *)

From Stdlib Require Import ZArith Lia.
From stdpp Require Import gmap list.

Open Scope Z_scope.

(* [set_solver] clears hypotheses by name, some of which it has already
   consumed. *)
#[local] Set Warnings "-clear-no-such-hyp".

(** ** Memory model *)

(** Pointers are 64-bit words; [nullptr] is [0]. *)
Abbreviation addr := Z (only parsing).

Definition ptr_bits : Z := 64.
Definition ptr_modulus : Z := 2 ^ ptr_bits.

(** [std::size_t] arithmetic wraps around. *)
Definition wrap (n : Z) : Z := n mod ptr_modulus.

(** The address of a live object is a non-null word. *)
Definition valid_ptr (p : addr) : Prop := 0 < p < ptr_modulus.

#[global] Instance valid_ptr_dec p : Decision (valid_ptr p).
Proof. unfold valid_ptr. apply _. Defined.

(** [struct ListNodeHeader { ListNodeHeader* prev{}; ListNodeHeader* next{}; }] *)
Record ListNodeHeader : Type := mkHeader { prev : addr; next : addr }.

#[global] Instance ListNodeHeader_eq_dec : EqDecision ListNodeHeader.
Proof. solve_decision. Defined.

(** What [operator new] hands back to [insert]: storage at an address, or
    the exception [std::bad_alloc]. *)
Inductive alloc_result : Type :=
  | allocated (p : addr)
  | bad_alloc.

(** Why a run stops without a result. *)
Inductive fault : Type :=
  | BadAccess      (* a pointer to no live object is followed or deleted *)
  | AssertFailed   (* an [assert] of the source does not hold *)
  | NoFuel.        (* the loop bound given to the model is used up *)

(** The objects of the store.  A [ListNode<T>] is a header followed by a
    value; a [List<T>] is its header [m_ptrs] followed by [m_size].  The
    header is the first member of both, so the address of the object is
    the address of its header: [&end_node()] is the address of the list.

    [Undestroyed v] is what is left at the address of a node after a
    [delete] through a pointer to its header: [ListNodeHeader<T>] has no
    virtual destructor, so the destructor of [ListNode<T>] does not run.
    The storage is handed back, no pointer to it may be followed any more,
    and the value [v] that the node held was never destroyed. *)
Inductive object (T : Type) : Type :=
  | ListNode (hdr : ListNodeHeader) (value : T)
  | List (m_ptrs : ListNodeHeader) (m_size : Z)
  | Undestroyed (value : T).

Arguments ListNode {T} hdr value.
Arguments List {T} m_ptrs m_size.
Arguments Undestroyed {T} value.

Abbreviation heap T := (gmap Z (object T)).

(** ** Outcomes and sequencing *)

Inductive outcome (T A : Type) : Type :=
  | Ok (a : A) (h : heap T)   (* normal return, with the store it leaves *)
  | Throw (h : heap T)        (* [std::bad_alloc] leaves the function *)
  | Fault (f : fault).

Arguments Ok {T A} a h.
Arguments Throw {T A} h.
Arguments Fault {T A} f.

Definition M (T A : Type) : Type := heap T -> outcome T A.

Definition ret {T A} (a : A) : M T A := fun h => Ok a h.

Definition bind {T A B} (m : M T A) (k : A -> M T B) : M T B :=
  fun h =>
    match m h with
    | Ok a h' => k a h'
    | Throw h' => Throw h'
    | Fault f => Fault f
    end.

Definition fail {T A} (f : fault) : M T A := fun _ => Fault f.

Notation "'do' x <- m ; k" := (bind m (fun x => k))
  (at level 10, x name, m at level 100, k at level 200).
Notation "m ;; k" := (bind m (fun _ => k))
  (at level 100, k at level 200, right associativity).

Section ListModel.

Context {T : Type} `{EqDecision T}.

(** A live object is a node or a list; released storage holds none. *)
Definition live (o : object T) : Prop :=
  match o with
  | Undestroyed _ => False
  | _ => True
  end.

(** The live object at [p], if there is one. *)
Definition live_at (h : heap T) (p : addr) : option (object T) :=
  match h !! p with
  | Some (Undestroyed _) => None
  | r => r
  end.

(** The header of a live object; every read goes through [live_at], so
    the null header of the last case is never met. *)
Definition header (o : object T) : ListNodeHeader :=
  match o with
  | ListNode hdr _ => hdr
  | List m_ptrs _ => m_ptrs
  | Undestroyed _ => {| prev := 0; next := 0 |}
  end.

Definition with_header (o : object T) (hdr : ListNodeHeader) : object T :=
  match o with
  | ListNode _ v => ListNode hdr v
  | List _ n => List hdr n
  | Undestroyed v => Undestroyed v
  end.

(** ** Loads and stores *)

(** Read the header at [p]: [p->prev], [p->next]. *)
Definition load (p : addr) : M T ListNodeHeader :=
  fun h =>
    match live_at h p with
    | Some o => Ok (header o) h
    | None => Fault BadAccess
    end.

Definition get_prev (p : addr) : M T Z := do hd <- load p; ret (prev hd).
Definition get_next (p : addr) : M T Z := do hd <- load p; ret (next hd).

(** Overwrite the header at [p]. *)
Definition store (p : addr) (hd : ListNodeHeader) : M T unit :=
  fun h =>
    match live_at h p with
    | Some o => Ok tt (<[p := with_header o hd]> h)
    | None => Fault BadAccess
    end.

(** [p->prev = q] and [p->next = q]. *)
Definition set_prev (p q : addr) : M T unit :=
  do hd <- load p; store p {| prev := q; next := next hd |}.
Definition set_next (p q : addr) : M T unit :=
  do hd <- load p; store p {| prev := prev hd; next := q |}.

(** [static_cast<ListNode<T>*>(p)->value], the iterators' [operator*]. *)
Definition deref (p : addr) : M T T :=
  fun h =>
    match h !! p with
    | Some (ListNode _ v) => Ok v h
    | _ => Fault BadAccess
    end.

(** [m_size] of the list at [this]. *)
Definition get_size (this : addr) : M T Z :=
  fun h =>
    match h !! this with
    | Some (List _ n) => Ok n h
    | _ => Fault BadAccess
    end.

Definition set_size (this : addr) (n : Z) : M T unit :=
  fun h =>
    match h !! this with
    | Some (List hd _) => Ok tt (<[this := List hd n]> h)
    | _ => Fault BadAccess
    end.

(** An object comes into being at [p]. *)
Definition construct (p : addr) (o : object T) : M T unit :=
  fun h => Ok tt (<[p := o]> h).

(** [new ListNode<T>{hd, v}] with the allocator's answer [a].  The
    allocation comes first: when it throws, nothing else has happened.
    The allocator answers with storage that no live object occupies; the
    theorems assume it of [a]. *)
Definition new_ListNode (a : alloc_result) (hd : M T ListNodeHeader) (v : T) : M T Z :=
  match a with
  | bad_alloc => fun h => Throw h
  | allocated p =>
      do hd <- hd;
      construct p (ListNode hd v);;
      ret p
  end.

(** [delete static_cast<ListNode<T>*>(p)], as [clear()] and [~List()] write
    it: the node at [p] is destroyed, value and header, and is gone. *)
Definition delete_node (p : addr) : M T unit :=
  fun h =>
    match h !! p with
    | Some (ListNode _ _) => Ok tt (delete p h)
    | _ => Fault BadAccess
    end.

(** [delete p] with [p] a [ListNodeHeader<T>*], as [erase] writes it: only
    the header is destroyed and the storage is handed back; the value of
    the node stays undestroyed. *)
Definition delete_header (p : addr) : M T unit :=
  fun h =>
    match h !! p with
    | Some (ListNode _ v) => Ok tt (<[p := Undestroyed v]> h)
    | _ => Fault BadAccess
    end.

(** [assert(b)] *)
Definition assert (b : bool) : M T unit :=
  if b then ret tt else fail AssertFailed.

(** ** Private helpers of [List] *)

(** [end_node()] is [m_ptrs], which sits at the address of the list. *)
Definition end_node (this : addr) : Z := this.

(** [head()] is [m_ptrs.next], [tail()] is [m_ptrs.prev]. *)
Definition head (this : addr) : M T Z := get_next this.
Definition tail (this : addr) : M T Z := get_prev this.
Definition set_head (this q : addr) : M T unit := set_next this q.
Definition set_tail (this q : addr) : M T unit := set_prev this q.

(** ** Iterators: a position is the address of a header *)

Definition List_begin (this : addr) : M T Z := head this.
Definition List_end (this : addr) : M T Z := ret (end_node this).

(** [operator++] and [operator--] *)
Definition iter_incr (it : addr) : M T Z := get_next it.
Definition iter_decr (it : addr) : M T Z := get_prev it.

(** ** Capacity *)

Definition List_size (this : addr) : M T Z := get_size this.
Definition List_empty (this : addr) : M T bool :=
  do n <- get_size this; ret (n =? 0).

(** ** Construction *)

(** [List() noexcept: m_ptrs{.prev=&m_ptrs, .next=&m_ptrs}, m_size{0}] *)
Definition default_List (this : addr) : object T :=
  List {| prev := this; next := this |} 0.

Definition List_ctor (this : addr) : M T unit :=
  construct this (default_List this).

(** ** Modifiers *)

(** [iterator insert(const_iterator pos, const T& value)] *)
Definition List_insert (this pos : addr) (value : T) (a : alloc_result) : M T Z :=
  do new_node <- new_ListNode a
       (do pp <- get_prev pos; ret {| prev := pp; next := pos |}) value;
  (if bool_decide (pos = end_node this) then
     do t <- tail this;
     set_next t new_node;;
     set_tail this new_node
   else
     do pp <- get_prev pos;
     if bool_decide (pp <> end_node this) then
       do pp' <- get_prev pos;
       set_next pp' new_node
     else ret tt);;
  set_prev pos new_node;;
  do hd <- head this;
  (if bool_decide (pos = hd) then set_head this new_node else ret tt);;
  do n <- get_size this;
  set_size this (wrap (n + 1));;
  ret new_node.

(** [iterator erase(const_iterator pos) noexcept]; its [delete pos.m_node]
    goes through the header pointer that the iterator holds. *)
Definition List_erase (this pos : addr) : M T Z :=
  assert (bool_decide (pos <> end_node this));;
  do after <- get_next pos;
  do pp <- get_prev pos;
  (if bool_decide (pp <> end_node this) then
     do pp' <- get_prev pos;
     do pn <- get_next pos;
     set_next pp' pn
   else
     do hd <- head this;
     if bool_decide (pos = hd) then
       do pn <- get_next pos;
       set_head this pn
     else assert false);;
  do pn <- get_next pos;
  (if bool_decide (pn <> end_node this) then
     do pn' <- get_next pos;
     do pp' <- get_prev pos;
     set_prev pn' pp'
   else
     do tl <- tail this;
     if bool_decide (pos = tl) then
       do pp' <- get_prev pos;
       set_tail this pp'
     else assert false);;
  delete_header pos;;
  do n <- get_size this;
  set_size this (wrap (n - 1));;
  ret after.

(** [iterator erase(const_iterator first, const_iterator last) noexcept] *)
Fixpoint erase_loop (fuel : nat) (this it last : addr) : M T unit :=
  if bool_decide (it <> last) then
    match fuel with
    | O => fail NoFuel
    | S fuel' => do it' <- List_erase this it; erase_loop fuel' this it' last
    end
  else ret tt.

Definition List_erase_range (fuel : nat) (this first last : addr) : M T Z :=
  erase_loop fuel this first last;;
  ret last.

(** [void push_front(const T&)], [void push_back(const T&)] *)
Definition List_push_front (this : addr) (value : T) (a : alloc_result) : M T unit :=
  do b <- List_begin this; List_insert this b value a;; ret tt.

Definition List_push_back (this : addr) (value : T) (a : alloc_result) : M T unit :=
  do e <- List_end this; List_insert this e value a;; ret tt.

(** [void pop_front()], [void pop_back()] *)
Definition List_pop_front (this : addr) : M T unit :=
  do e <- List_empty this;
  assert (negb e);;
  do b <- List_begin this; List_erase this b;; ret tt.

Definition List_pop_back (this : addr) : M T unit :=
  do e <- List_empty this;
  assert (negb e);;
  do e <- List_end this; do it <- iter_decr e; List_erase this it;; ret tt.

(** [void clear() noexcept] *)
Fixpoint clear_loop (fuel : nat) (this node : addr) : M T unit :=
  if bool_decide (node <> end_node this) then
    match fuel with
    | O => fail NoFuel
    | S fuel' =>
        do nx <- get_next node;
        delete_node node;;
        clear_loop fuel' this nx
    end
  else ret tt.

Definition List_clear (fuel : nat) (this : addr) : M T unit :=
  do node <- head this;
  clear_loop fuel this node;;
  store this {| prev := end_node this; next := end_node this |};;
  set_size this 0.

(** [void swap(List& other) noexcept].  [std::swap] on the two headers and
    on the two sizes goes through a temporary.  In the branch for an empty
    list the source writes [.next=&end_node] without the call parentheses,
    which is ill-formed: the member compiles only as long as no caller
    instantiates it.  The model follows the text and reads that one
    expression as [&end_node()], like the [.prev] beside it; the branch for
    a list with elements is as the source has it. *)
Definition swap_headers (p q : addr) : M T unit :=
  do tmp <- load p;
  do hq <- load q;
  store p hq;;
  store q tmp.

Definition swap_sizes (p q : addr) : M T unit :=
  do tmp <- get_size p;
  do nq <- get_size q;
  set_size p nq;;
  set_size q tmp.

Definition List_swap (this other : addr) : M T unit :=
  swap_headers this other;;
  swap_sizes this other;;
  do e <- List_empty this;
  (if e then store this {| prev := end_node this; next := end_node this |}
   else do t <- tail this; set_next t (end_node this));;
  do e' <- List_empty other;
  (if e' then store other {| prev := end_node other; next := end_node other |}
   else do t <- tail other; set_next t (end_node other)).

(** [List(List&& other) noexcept]: the object at [this] comes into being
    with the two member initialisers, then the body runs. *)
Definition List_move_ctor (this other : addr) : M T unit :=
  do e <- List_empty other;
  do hd <- (if e then ret {| prev := this; next := this |} else load other);
  do n <- get_size other;
  construct this (List hd n);;
  do e' <- List_empty other;
  (if negb e' then do t <- tail this; set_next t (end_node this) else ret tt);;
  store other {| prev := other; next := other |};;
  set_size other 0.

(** [List& operator=(List&& other) noexcept] *)
Definition List_move_assign (fuel : nat) (this other : addr) : M T unit :=
  List_clear fuel this;;
  do e <- List_empty other;
  (if negb e then
     do ho <- load other;
     store this ho;;
     do t <- tail this;
     set_next t (end_node this)
   else ret tt);;
  do n <- get_size other;
  set_size this n;;
  store other {| prev := end_node other; next := end_node other |};;
  set_size other 0.

(** [for (const T& value : other) push_back(value);] with one allocator
    answer per element; the answers given bound the number of rounds. *)
Fixpoint copy_loop (allocs : list alloc_result) (this other it : addr) : M T unit :=
  if bool_decide (it <> end_node other) then
    match allocs with
    | [] => fail NoFuel
    | a :: allocs' =>
        do v <- deref it;
        List_push_back this v a;;
        do it' <- iter_incr it;
        copy_loop allocs' this other it'
    end
  else ret tt.

(** [~List()]: the loop is the one of [clear], statement by statement;
    then the lifetime of the list object ends. *)
Definition destroy_List (this : addr) : M T unit :=
  fun h =>
    match h !! this with
    | Some (List _ _) => Ok tt (delete this h)
    | _ => Fault BadAccess
    end.

Definition List_dtor (fuel : nat) (this : addr) : M T unit :=
  do node <- get_next this;
  clear_loop fuel this node;;
  destroy_List this.

(** A constructor that delegates to [List()] and then throws from its
    body: the object is complete once [List()] has returned, so its
    destructor runs before the exception goes on. *)
Definition unwind {A} (body : M T A) (dtor : M T unit) : M T A :=
  fun h =>
    match body h with
    | Throw h' =>
        match dtor h' with
        | Ok _ h'' => Throw h''
        | Throw h'' => Throw h''
        | Fault f => Fault f
        end
    | r => r
    end.

(** [List(const List& other): List()] *)
Definition List_copy_ctor (fuel : nat) (allocs : list alloc_result)
    (this other : addr) : M T unit :=
  List_ctor this;;
  unwind (do b <- List_begin other; copy_loop allocs this other b)
         (List_dtor fuel this).

(** [template<typename InputIt> List(InputIt first, InputIt last): List()];
    the values read from [first] up to [last] are [vs]. *)
Fixpoint range_loop (allocs : list alloc_result) (this : addr) (vs : list T)
    {struct vs} : M T unit :=
  match vs with
  | [] => ret tt
  | v :: vs' =>
      match allocs with
      | [] => fail NoFuel
      | a :: allocs' => List_push_back this v a;; range_loop allocs' this vs'
      end
  end.

Definition List_range_ctor (fuel : nat) (allocs : list alloc_result)
    (this : addr) (vs : list T) : M T unit :=
  List_ctor this;;
  unwind (range_loop allocs this vs) (List_dtor fuel this).

(** [List& operator=(const List& other)] *)
Definition List_copy_assign (fuel : nat) (allocs : list alloc_result)
    (this other : addr) : M T unit :=
  List_clear fuel this;;
  do b <- List_begin other;
  copy_loop allocs this other b.

(** [friend bool operator==(const List& a, const List& b)]; [ne] is the
    [operator!=] of [T]. *)
Fixpoint eq_loop (ne : T -> T -> bool) (fuel : nat) (a a_it b_it : addr) : M T bool :=
  if bool_decide (a_it <> end_node a) then
    match fuel with
    | O => fail NoFuel
    | S fuel' =>
        do x <- deref a_it;
        do y <- deref b_it;
        if ne x y then ret false
        else
          do a_it' <- iter_incr a_it;
          do b_it' <- iter_incr b_it;
          eq_loop ne fuel' a a_it' b_it'
    end
  else ret true.

Definition List_eq_with (ne : T -> T -> bool) (fuel : nat) (a b : addr) : M T bool :=
  do sa <- List_size a;
  do sb <- List_size b;
  if bool_decide (sa <> sb) then ret false
  else
    do a_it <- List_begin a;
    do b_it <- List_begin b;
    eq_loop ne fuel a a_it b_it.

(** [operator!=] of [T], taken to decide inequality of values. *)
Definition T_ne (x y : T) : bool := bool_decide (x <> y).

Definition List_eq (fuel : nat) (a b : addr) : M T bool := List_eq_with T_ne fuel a b.

(** [friend bool operator!=(const List& a, const List& b)] *)
Definition List_ne (fuel : nat) (a b : addr) : M T bool :=
  do r <- List_eq fuel a b; ret (negb r).

(** ** Traversals *)

(** [for (auto it = begin(); it != end(); ++it)] collecting the value at
    [it], as the range-for of [print] in [list_main.cpp] does. *)
Fixpoint forward_from (fuel : nat) (this it : addr) : M T (list T) :=
  if bool_decide (it <> end_node this) then
    match fuel with
    | O => fail NoFuel
    | S fuel' =>
        do v <- deref it;
        do it' <- iter_incr it;
        do vs <- forward_from fuel' this it';
        ret (v :: vs)
    end
  else ret [].

Definition forward_values (fuel : nat) (this : addr) : M T (list T) :=
  do b <- List_begin this; forward_from fuel this b.

(** [for (auto it = end(); it != begin();) { --it; ... }] collecting the
    value at [it]: from [--end()] back to [begin()], inclusive. *)
Fixpoint backward_from (fuel : nat) (this it : addr) : M T (list T) :=
  do b <- List_begin this;
  if bool_decide (it <> b) then
    match fuel with
    | O => fail NoFuel
    | S fuel' =>
        do it' <- iter_decr it;
        do v <- deref it';
        do vs <- backward_from fuel' this it';
        ret (v :: vs)
    end
  else ret [].

Definition backward_values (fuel : nat) (this : addr) : M T (list T) :=
  do e <- List_end this; backward_from fuel this e.

(** [std::next(begin(), k)]: the position [k] steps after [begin()]. *)
Fixpoint advance (k : nat) (it : addr) : M T Z :=
  match k with
  | O => ret it
  | S k' => do it' <- iter_incr it; advance k' it'
  end.

Definition position_at_index (this : addr) (k : nat) : M T Z :=
  do b <- List_begin this; advance k b.

(** ** The valid states *)

(** A list is described by its elements in order, each with the address of
    its node.  [first_ptr ns d] is the address of the first node and
    [last_ptr d ns] the address of the last one; both are [d] when there is
    no node. *)
Definition first_ptr (ns : list (Z * T)) (d : addr) : Z :=
  match ns with
  | [] => d
  | (p, _) :: _ => p
  end.

Fixpoint last_ptr (d : addr) (ns : list (Z * T)) : Z :=
  match ns with
  | [] => d
  | (p, _) :: ns' => last_ptr p ns'
  end.

(** [chain h before ns after]: the nodes [ns] are live and linked one to
    the next in both directions, the first one back to [before] and the
    last one on to [after]. *)
Fixpoint chain (h : heap T) (before : addr) (ns : list (Z * T)) (after : addr) : Prop :=
  match ns with
  | [] => True
  | (p, v) :: ns' =>
      h !! p = Some (ListNode {| prev := before; next := first_ptr ns' after |} v)
      /\ chain h p ns' after
  end.

(** The list object at [this] owns the ring [this, ns, this]: its header
    closes the chain of the nodes on both sides, [m_size] counts them, and
    all the addresses are distinct non-null words. *)
Definition is_List (h : heap T) (this : addr) (ns : list (Z * T)) : Prop :=
  h !! this = Some (List {| prev := last_ptr this ns; next := first_ptr ns this |}
                         (Z.of_nat (length ns)))
  /\ chain h this ns this
  /\ NoDup (this :: ns.*1)
  /\ Forall valid_ptr (this :: ns.*1).

(** The same, except that the first node points back to [before] and not
    to [this]: the state in which [swap] and the moves leave a list that
    took its nodes from the list at [before]. *)
Definition is_List_from (h : heap T) (this before : addr) (ns : list (Z * T)) : Prop :=
  h !! this = Some (List {| prev := last_ptr this ns; next := first_ptr ns this |}
                         (Z.of_nat (length ns)))
  /\ chain h before ns this
  /\ NoDup (this :: ns.*1)
  /\ Forall valid_ptr (this :: ns.*1).

(** The headers met from the end node: [walk_next h k p] follows [next]
    [k] times from [p], [walk_prev] follows [prev]. *)
Fixpoint walk_next (h : heap T) (k : nat) (p : addr) : option Z :=
  match k with
  | O => Some p
  | S k' =>
      match live_at h p with
      | Some o => walk_next h k' (next (header o))
      | None => None
      end
  end.

Fixpoint walk_prev (h : heap T) (k : nat) (p : addr) : option Z :=
  match k with
  | O => Some p
  | S k' =>
      match live_at h p with
      | Some o => walk_prev h k' (prev (header o))
      | None => None
      end
  end.

(** I2 at one header: [H.next.previous == H] and [H.previous.next == H]. *)
Definition links_ok (h : heap T) (p : addr) : bool :=
  match live_at h p with
  | Some o =>
      match live_at h (next (header o)), live_at h (prev (header o)) with
      | Some on, Some op =>
          bool_decide (prev (header on) = p) && bool_decide (next (header op) = p)
      | _, _ => false
      end
  | None => false
  end.

(** The invariants I1 to I4 of the specification, read on the store.

    I1: the links form one ring that holds [m_size] elements: from the end
    node the walk passes them and is back at the end node with the step
    after the last of them, along [next] and along [prev]. *)
Definition I1 (h : heap T) (this : addr) : Prop :=
  exists hd n,
    h !! this = Some (List hd n)
    /\ walk_next h (S (Z.to_nat n)) this = Some this
    /\ walk_prev h (S (Z.to_nat n)) this = Some this.

(** I2, for every header of the ring of [this]. *)
Definition I2 (h : heap T) (this : addr) : Prop :=
  forall k p, walk_next h k this = Some p -> links_ok h p = true.

(** I3: the [m_size] headers after the end node are elements. *)
Definition I3 (h : heap T) (this : addr) : Prop :=
  exists hd n,
    h !! this = Some (List hd n)
    /\ 0 <= n
    /\ forall k, (1 <= k <= Z.to_nat n)%nat ->
         exists p hd' v, walk_next h k this = Some p /\ h !! p = Some (ListNode hd' v).

(** I4: an empty list is the state that default construction leaves. *)
Definition I4 (h : heap T) (this : addr) : Prop :=
  forall hd, h !! this = Some (List hd 0) -> hd = {| prev := this; next := this |}.

(** ** Histories *)

(** The states of the list at [this] that a program can build: it is
    default-constructed in fresh storage, then elements are inserted before
    and erased at positions got from [begin()] by stepping forward.  Each
    node comes from the allocator, which answers with storage that no live
    object occupies. *)
Inductive reachable (this : addr) : heap T -> Prop :=
  | reachable_ctor h h' :
      h !! this = None -> valid_ptr this ->
      List_ctor this h = Ok tt h' ->
      reachable this h'
  | reachable_insert h k pos v p it h' :
      reachable this h ->
      position_at_index this k h = Ok pos h ->
      valid_ptr p -> live_at h p = None ->
      List_insert this pos v (allocated p) h = Ok it h' ->
      reachable this h'
  | reachable_erase h k pos it h' :
      reachable this h ->
      position_at_index this k h = Ok pos h ->
      pos <> end_node this ->
      List_erase this pos h = Ok it h' ->
      reachable this h'.

(** A computation that never leaves by an exception, whatever the store:
    what the source declares with [noexcept]. *)
Definition noexcept {A} (m : M T A) : Prop :=
  forall h h', m h <> Throw h'.

End ListModel.

(** ** Stores of [List<int>] for the concrete runs *)

(** A store with the list [{1, 2}] at address 100, its nodes at 300 and
    301. *)
Definition store_a : heap Z :=
  <[100 := List {| prev := 301; next := 300 |} 2]>
    (<[300 := ListNode {| prev := 100; next := 301 |} 1]>
       (<[301 := ListNode {| prev := 300; next := 100 |} 2]> ∅)).

Definition nodes_a : list (Z * Z) := [(300, 1); (301, 2)].

(** The same with a second, empty list at address 200, and with the
    list [{1, 3}] there. *)
Definition store_ab : heap Z := <[200 := default_List 200]> store_a.

Definition store_ac : heap Z :=
  <[200 := List {| prev := 401; next := 400 |} 2]>
    (<[400 := ListNode {| prev := 200; next := 401 |} 1]>
       (<[401 := ListNode {| prev := 400; next := 200 |} 3]> store_a)).

Definition nodes_c : list (Z * Z) := [(400, 1); (401, 3)].

(** The list [{1}] built by default construction and one [push_back]. *)
Definition store_built : heap Z :=
  <[100 := List {| prev := 300; next := 300 |} 1]>
    (<[300 := ListNode {| prev := 100; next := 100 |} 1]> ∅).

(** The list [{1, 2, 3}] at address 100, its nodes at 300, 301 and 302:
    [store_built] and [store_a] after one more [push_back] each. *)
Definition store_abc : heap Z :=
  <[100 := List {| prev := 302; next := 300 |} 3]>
    (<[300 := ListNode {| prev := 100; next := 301 |} 1]>
       (<[301 := ListNode {| prev := 300; next := 302 |} 2]>
          (<[302 := ListNode {| prev := 301; next := 100 |} 3]> ∅))).

Definition nodes_abc : list (Z * Z) := [(300, 1); (301, 2); (302, 3)].

(** What [erase] of the second element leaves of it: the list [{1, 3}],
    and at 301 the released storage with the value 2 undestroyed. *)
Definition store_erased : heap Z :=
  <[100 := List {| prev := 302; next := 300 |} 2]>
    (<[300 := ListNode {| prev := 100; next := 302 |} 1]>
       (<[301 := Undestroyed 2]>
          (<[302 := ListNode {| prev := 300; next := 100 |} 3]> ∅))).

(** A list object at 100 whose [m_size] is zero although its links lead
    to the live node 300, which is linked to it as its only element. *)
Definition store_stale : heap Z :=
  <[100 := List {| prev := 300; next := 300 |} 0]> store_built.

(** The store after [a.swap(b)] on [store_ab], which is also the store
    after move-constructing a list at 200 from the list at 100 of
    [store_a]: the ring of [{1, 2}] hangs from the header at 200, the last
    node 301 points on to 200, and the first node 300 still points back to
    100. *)
Definition store_moved : heap Z :=
  <[200 := List {| prev := 301; next := 300 |} 2]>
    (<[100 := default_List 100]>
       (<[300 := ListNode {| prev := 100; next := 301 |} 1]>
          (<[301 := ListNode {| prev := 300; next := 200 |} 2]> ∅))).

(** The store after [a.swap(c)] on [store_ac]: each header has the ring
    of the other list and each last node points on to its new header, but
    the first nodes 300 and 400 still point back to the headers they came
    from. *)
Definition store_swapped : heap Z :=
  <[100 := List {| prev := 401; next := 400 |} 2]>
    (<[200 := List {| prev := 301; next := 300 |} 2]>
       (<[300 := ListNode {| prev := 100; next := 301 |} 1]>
          (<[301 := ListNode {| prev := 300; next := 200 |} 2]>
             (<[400 := ListNode {| prev := 200; next := 401 |} 1]>
                (<[401 := ListNode {| prev := 400; next := 100 |} 3]> ∅))))).

(** * Proofs *)

(** ** Lists of addresses and chains *)

Section ListBasics.

Context {T : Type} `{EqDecision T}.
Implicit Types (h : heap T) (ns : list (Z * T)).

Lemma valid_ptr_bound (l : list Z) :
  NoDup l -> Forall valid_ptr l -> Z.of_nat (length l) < ptr_modulus.
Proof.
  intros Hnd Hv.
  assert (Hsub : l ⊆+ seqZ 1 (ptr_modulus - 1)).
  { apply NoDup_submseteq; [done|].
    intros x Hx. rewrite Forall_forall in Hv. specialize (Hv x Hx).
    unfold valid_ptr in Hv. apply elem_of_seqZ. lia. }
  apply submseteq_length in Hsub. rewrite length_seqZ in Hsub.
  unfold ptr_modulus, ptr_bits in *. lia.
Qed.

Lemma last_ptr_app d ns1 ns2 : last_ptr d (ns1 ++ ns2) = last_ptr (last_ptr d ns1) ns2.
Proof. revert d. induction ns1 as [|[p v] ns1 IH]; intros d; simpl; auto. Qed.

Lemma first_ptr_app ns1 ns2 d : first_ptr (ns1 ++ ns2) d = first_ptr ns1 (first_ptr ns2 d).
Proof. destruct ns1 as [|[p v] ns1]; reflexivity. Qed.

Lemma chain_app h b ns1 ns2 a :
  chain h b (ns1 ++ ns2) a <->
  chain h b ns1 (first_ptr ns2 a) /\ chain h (last_ptr b ns1) ns2 a.
Proof.
  revert b. induction ns1 as [|[p v] ns1 IH]; intros b; simpl.
  - tauto.
  - rewrite IH, first_ptr_app. tauto.
Qed.

Lemma chain_frame h h' b ns a :
  (forall x, x ∈ ns.*1 -> h' !! x = h !! x) -> chain h b ns a -> chain h' b ns a.
Proof.
  revert b. induction ns as [|[p v] ns IH]; intros b Hf; simpl; [done|].
  intros [Hp Hc]. split.
  - rewrite Hf; [done|]. simpl. set_solver.
  - apply IH; [|done]. intros x Hx. apply Hf. simpl. set_solver.
Qed.

Lemma chain_live h b ns a x :
  chain h b ns a -> x ∈ ns.*1 -> exists hd v, h !! x = Some (ListNode hd v).
Proof.
  revert b. induction ns as [|[p v] ns IH]; intros b; simpl.
  - intros _ Hx. set_solver.
  - intros [Hp Hc] Hx. apply elem_of_cons in Hx as [->|Hx]; eauto.
Qed.




Lemma first_ptr_ne ns d x : x ∉ ns.*1 -> d <> x -> first_ptr ns d <> x.
Proof. destruct ns as [|[p v] ns]; simpl; [done|]. rewrite not_elem_of_cons. intros [? _] _. done. Qed.

Lemma last_ptr_ne ns d x : x ∉ ns.*1 -> d <> x -> last_ptr d ns <> x.
Proof.
  revert d. induction ns as [|[p v] ns IH]; intros d; simpl; [done|].
  rewrite not_elem_of_cons. intros [? ?] _. apply IH; done.
Qed.

Lemma is_List_live h this ns x :
  is_List h this ns -> x ∈ this :: ns.*1 -> is_Some (h !! x).
Proof.
  intros (Hthis & Hch & _) Hx. apply elem_of_cons in Hx as [->|Hx]; [eauto|].
  destruct (chain_live _ _ _ _ _ Hch Hx) as (? & ? & ->). eauto.
Qed.

Lemma is_List_live_at h this ns x :
  is_List h this ns -> x ∈ this :: ns.*1 -> is_Some (live_at h x).
Proof.
  intros (Hthis & Hch & _) Hx. unfold live_at.
  apply elem_of_cons in Hx as [->|Hx]; [rewrite Hthis; eauto|].
  destruct (chain_live _ _ _ _ _ Hch Hx) as (? & ? & ->). eauto.
Qed.

Lemma wrap_small n : 0 <= n < ptr_modulus -> wrap n = n.
Proof. intros. unfold wrap. apply Z.mod_small. done. Qed.


(** ** Running a computation on a known store *)

Lemma run_bind {A B} (m : M T A) (k : A -> M T B) h a h' r :
  m h = Ok a h' -> k a h' = r -> bind m k h = r.
Proof. intros Hm Hk. unfold bind. rewrite Hm. exact Hk. Qed.

Lemma run_ret {A} (a : A) h : ret a h = Ok a h.
Proof. reflexivity. Qed.

Lemma live_at_Some h p o : h !! p = Some o -> live o -> live_at h p = Some o.
Proof. intros Hp Hl. unfold live_at. rewrite Hp. by destruct o. Qed.

Lemma live_at_fresh h p : h !! p = None -> live_at h p = None.
Proof. intros Hp. unfold live_at. by rewrite Hp. Qed.

Lemma live_at_lookup h p o : live_at h p = Some o -> h !! p = Some o /\ live o.
Proof. unfold live_at. destruct (h !! p) as [[]|]; intros [= <-]; done. Qed.

Lemma run_load h p o : h !! p = Some o -> live o -> load p h = Ok (header o) h.
Proof. intros Hp Hl. unfold load. by rewrite (live_at_Some _ _ _ Hp Hl). Qed.

Lemma run_store h p o hd :
  h !! p = Some o -> live o -> store p hd h = Ok tt (<[p := with_header o hd]> h).
Proof. intros Hp Hl. unfold store. by rewrite (live_at_Some _ _ _ Hp Hl). Qed.

Lemma run_get_prev h p o :
  h !! p = Some o -> live o -> get_prev p h = Ok (prev (header o)) h.
Proof. intros Hp Hl. unfold get_prev. eapply run_bind; [by apply run_load|done]. Qed.

Lemma run_get_next h p o :
  h !! p = Some o -> live o -> get_next p h = Ok (next (header o)) h.
Proof. intros Hp Hl. unfold get_next. eapply run_bind; [by apply run_load|done]. Qed.

Lemma run_set_prev h p o q :
  h !! p = Some o -> live o ->
  set_prev p q h = Ok tt (<[p := with_header o {| prev := q; next := next (header o) |}]> h).
Proof.
  intros Hp Hl. unfold set_prev. eapply run_bind; [by apply run_load|]. by apply run_store.
Qed.

Lemma run_set_next h p o q :
  h !! p = Some o -> live o ->
  set_next p q h = Ok tt (<[p := with_header o {| prev := prev (header o); next := q |}]> h).
Proof.
  intros Hp Hl. unfold set_next. eapply run_bind; [by apply run_load|]. by apply run_store.
Qed.

Lemma run_deref h p hd v : h !! p = Some (ListNode hd v) -> deref p h = Ok v h.
Proof. intros Hp. unfold deref. by rewrite Hp. Qed.

Lemma run_get_size h p hd n : h !! p = Some (List hd n) -> get_size p h = Ok n h.
Proof. intros Hp. unfold get_size. by rewrite Hp. Qed.

Lemma run_set_size h p hd n n' :
  h !! p = Some (List hd n) -> set_size p n' h = Ok tt (<[p := List hd n']> h).
Proof. intros Hp. unfold set_size. by rewrite Hp. Qed.

Lemma run_delete_node h p hd v :
  h !! p = Some (ListNode hd v) -> delete_node p h = Ok tt (delete p h).
Proof. intros Hp. unfold delete_node. by rewrite Hp. Qed.

Lemma run_delete_header h p hd v :
  h !! p = Some (ListNode hd v) -> delete_header p h = Ok tt (<[p := Undestroyed v]> h).
Proof. intros Hp. unfold delete_header. by rewrite Hp. Qed.

Lemma run_construct h p o : construct p o h = Ok tt (<[p := o]> h).
Proof. reflexivity. Qed.

Lemma run_new_ListNode (m : M T ListNodeHeader) h p hd v h' :
  m h = Ok hd h' -> new_ListNode (allocated p) m v h = Ok p (<[p := ListNode hd v]> h').
Proof. intros Hm. unfold new_ListNode. eapply run_bind; [exact Hm|done]. Qed.

Lemma run_if_true {A} (P : Prop) `{Decision P} (x y : M T A) h r :
  P -> x h = r -> (if bool_decide P then x else y) h = r.
Proof. intros HP Hx. by rewrite bool_decide_eq_true_2. Qed.

Lemma run_if_false {A} (P : Prop) `{Decision P} (x y : M T A) h r :
  ~ P -> y h = r -> (if bool_decide P then x else y) h = r.
Proof. intros HP Hx. by rewrite bool_decide_eq_false_2. Qed.

End ListBasics.

(** ** Tactics *)

(** Disequalities between addresses. *)
Ltac neq :=
  solve [ done | congruence | lia
        | let E := fresh in intros E; rewrite E in *; done
        | let E := fresh in intros E; rewrite <- E in *; done
        | let E := fresh in intros E; apply E; done
        | apply first_ptr_ne; done
        | apply last_ptr_ne; done
        | apply not_eq_sym, first_ptr_ne; done
        | apply not_eq_sym, last_ptr_ne; done ].

Ltac lookup_step :=
  first
    [ rewrite lookup_insert_eq
    | rewrite lookup_insert_ne by neq
    | rewrite lookup_delete_eq
    | rewrite lookup_delete_ne by neq
    | match goal with
      | Hl : ?h !! ?p = _ |- context [?h !! ?p] => rewrite Hl
      end ].

Ltac solve_lookup := repeat lookup_step; reflexivity.

Ltac red_hdr := unfold end_node; cbn [prev next header with_header negb].

(** The object just looked up is a node or a list. *)
Ltac is_live := first [exact I | assumption].

Ltac run :=
  red_hdr;
  lazymatch goal with
  | |- bind _ _ _ = _ => eapply run_bind; [run | cbv beta; run]
  | |- (if bool_decide _ then _ else _) _ = _ =>
      first [ eapply run_if_true; [neq | run] | eapply run_if_false; [neq | run] ]
  | Hz : (?n =? 0) = _ |- context [?n =? 0] => rewrite Hz; cbn [negb]; run
  | |- (if true then _ else _) _ = _ => cbv iota; run
  | |- (if false then _ else _) _ = _ => cbv iota; run
  | |- ret _ _ = _ => apply run_ret
  | |- construct _ _ _ = _ => apply run_construct
  | |- load _ _ = _ => eapply run_load; [solve_lookup | is_live]
  | |- store _ _ _ = _ => eapply run_store; [solve_lookup | is_live]
  | |- get_prev _ _ = _ => eapply run_get_prev; [solve_lookup | is_live]
  | |- get_next _ _ = _ => eapply run_get_next; [solve_lookup | is_live]
  | |- set_prev _ _ _ = _ => eapply run_set_prev; [solve_lookup | is_live]
  | |- set_next _ _ _ = _ => eapply run_set_next; [solve_lookup | is_live]
  | |- deref _ _ = _ => eapply run_deref; solve_lookup
  | |- get_size _ _ = _ => eapply run_get_size; solve_lookup
  | |- set_size _ _ _ = _ => eapply run_set_size; solve_lookup
  | |- delete_node _ _ = _ => eapply run_delete_node; solve_lookup
  | |- delete_header _ _ = _ => eapply run_delete_header; solve_lookup
  | |- new_ListNode (allocated _) _ _ _ = _ => eapply run_new_ListNode; run
  | |- head _ _ = _ => unfold head; run
  | |- tail _ _ = _ => unfold tail; run
  | |- set_head _ _ _ = _ => unfold set_head; run
  | |- set_tail _ _ _ = _ => unfold set_tail; run
  | |- List_begin _ _ = _ => unfold List_begin; run
  | |- List_end _ _ = _ => unfold List_end; run
  | |- iter_incr _ _ = _ => unfold iter_incr; run
  | |- iter_decr _ _ = _ => unfold iter_decr; run
  | |- List_size _ _ = _ => unfold List_size; run
  | |- List_empty _ _ = _ => unfold List_empty; run
  | |- assert true _ = _ => reflexivity
  | |- assert (bool_decide _) _ = _ =>
      rewrite bool_decide_eq_true_2 by neq; reflexivity
  | |- ?G => fail 1 "run: no rule for" G
  end.

(** The same when the result is stated: run, then compare. *)
Ltac run_eq := etrans; [run | red_hdr; try reflexivity].

Ltac list_simp :=
  repeat first
    [ rewrite app_nil_r | rewrite last_ptr_app | rewrite first_ptr_app
    | rewrite chain_app | rewrite fmap_app | rewrite fmap_cons
    | rewrite <- app_assoc | progress cbn [app fst snd first_ptr last_ptr chain fmap list_fmap] ].

(** The nodes away from an update keep their links. *)
Ltac frame_chain :=
  eapply chain_frame; [|eassumption]; intros ? ?; solve_lookup.

Ltac frame_other :=
  let x := fresh "x" in let Hx := fresh "Hx" in
  intros x Hx; intros;
  repeat first [rewrite not_elem_of_cons in Hx | rewrite not_elem_of_app in Hx];
  destruct_and?; solve_lookup.

Ltac nodup_facts Hnd :=
  clear -Hnd; revert Hnd;
  repeat first [rewrite NoDup_cons | rewrite NoDup_app];
  set_solver.

Ltac finish_is_List Hlen Hnd Hv :=
  split; [|split; [|split; [exact Hnd | exact Hv]]];
  [ repeat lookup_step; rewrite ?Hlen; reflexivity
  | list_simp; repeat split; first [ solve_lookup | frame_chain ] ].


Section ListProofs.

Context {T : Type} `{EqDecision T}.
Implicit Types (h : heap T) (ns : list (Z * T)).

(** ** [insert] and [erase] on a valid list *)

Lemma insert_spec_at h this ns1 ns2 v p :
  is_List h this (ns1 ++ ns2) -> valid_ptr p -> p ∉ this :: (ns1 ++ ns2).*1 ->
  exists h', List_insert this (first_ptr ns2 this) v (allocated p) h = Ok p h'
    /\ is_List h' this (ns1 ++ (p, v) :: ns2)
    /\ (forall q, q ∉ this :: (ns1 ++ ns2).*1 -> q <> p -> h' !! q = h !! q).
Proof.
  intros HL Hp Hnew.
  destruct HL as (Hthis & Hch & Hnd & Hv).
  assert (Hnd' : NoDup (this :: (ns1 ++ (p, v) :: ns2).*1)).
  { revert Hnd Hnew. rewrite !fmap_app, !fmap_cons. simpl.
    rewrite !NoDup_cons, !NoDup_app, !NoDup_cons. set_solver. }
  assert (Hv' : Forall valid_ptr (this :: (ns1 ++ (p, v) :: ns2).*1)).
  { revert Hv. rewrite !fmap_app, !fmap_cons, !Forall_cons, !Forall_app, !Forall_cons.
    simpl. tauto. }
  assert (Hlen : wrap (Z.of_nat (length (ns1 ++ ns2)) + 1)
                 = Z.of_nat (length (ns1 ++ (p, v) :: ns2))).
  { pose proof (valid_ptr_bound _ Hnd' Hv') as Hb. revert Hb.
    simpl. rewrite !length_fmap, !length_app. simpl. intros Hb.
    rewrite wrap_small by lia. lia. }
  clear Hnd Hv Hnew.
  unfold is_List at 1. revert Hthis Hch Hlen Hnd' Hv'.
  destruct ns1 as [|[q w] ns1 _] using rev_ind; destruct ns2 as [|[r u] ns2];
    list_simp; intros Hthis Hch Hlen Hnd Hv; destruct_and?.
  - assert (Hd : this <> p).
    { nodup_facts Hnd. }
    eexists; split; [unfold List_insert; run|]. 
    split; [finish_is_List Hlen Hnd Hv | frame_other].
  - assert (Hd : this <> r /\ this <> p /\ r <> p
       /\ (this ∉ ns2.*1) /\ (r ∉ ns2.*1) /\ p ∉ ns2.*1).
    { nodup_facts Hnd. }
    destruct_and?.
    eexists; split; [unfold List_insert; run|]. 
    split; [finish_is_List Hlen Hnd Hv | frame_other].
  - assert (Hd : this <> q /\ this <> p /\ q <> p
       /\ (this ∉ ns1.*1) /\ (q ∉ ns1.*1) /\ p ∉ ns1.*1).
    { nodup_facts Hnd. }
    destruct_and?.
    eexists; split; [unfold List_insert; run|]. 
    split; [finish_is_List Hlen Hnd Hv | frame_other].
  - assert (Hd : this <> q /\ this <> r /\ this <> p /\ q <> r /\ q <> p /\ r <> p
       /\ (this ∉ ns1.*1) /\ (q ∉ ns1.*1) /\ (r ∉ ns1.*1) /\ (p ∉ ns1.*1)
       /\ (this ∉ ns2.*1) /\ (q ∉ ns2.*1) /\ (r ∉ ns2.*1) /\ p ∉ ns2.*1).
    { nodup_facts Hnd. }
    destruct_and?.
    eexists; split; [unfold List_insert; run|]. 
    split; [finish_is_List Hlen Hnd Hv | frame_other].
Qed.

Lemma insert_spec h this ns1 ns2 v p :
  is_List h this (ns1 ++ ns2) -> valid_ptr p -> h !! p = None ->
  exists h', List_insert this (first_ptr ns2 this) v (allocated p) h = Ok p h'
    /\ is_List h' this (ns1 ++ (p, v) :: ns2)
    /\ (forall q, q ∉ this :: (ns1 ++ ns2).*1 -> q <> p -> h' !! q = h !! q).
Proof.
  intros HL Hp Hfresh. apply insert_spec_at; [done..|].
  intros Hin. apply (is_List_live _ _ _ _ HL) in Hin. rewrite Hfresh in Hin.
  by destruct Hin.
Qed.

(** The allocator may hand out again the storage that [erase] released. *)
Lemma insert_spec_reuse h this ns1 ns2 v p :
  is_List h this (ns1 ++ ns2) -> valid_ptr p -> live_at h p = None ->
  exists h', List_insert this (first_ptr ns2 this) v (allocated p) h = Ok p h'
    /\ is_List h' this (ns1 ++ (p, v) :: ns2)
    /\ (forall q, q ∉ this :: (ns1 ++ ns2).*1 -> q <> p -> h' !! q = h !! q).
Proof.
  intros HL Hp Hfresh. apply insert_spec_at; [done..|].
  intros Hin. apply (is_List_live_at _ _ _ _ HL) in Hin. rewrite Hfresh in Hin.
  by destruct Hin.
Qed.

Lemma erase_spec h this ns1 p v ns2 :
  is_List h this (ns1 ++ (p, v) :: ns2) ->
  exists h', List_erase this p h = Ok (first_ptr ns2 this) h'
    /\ is_List h' this (ns1 ++ ns2)
    /\ (forall q, q ∉ this :: (ns1 ++ ns2).*1 -> q <> p -> h' !! q = h !! q)
    /\ h' !! p = Some (Undestroyed v).
Proof.
  intros (Hthis & Hch & Hnd & Hv).
  assert (Hnd' : NoDup (this :: (ns1 ++ ns2).*1)).
  { revert Hnd. rewrite !fmap_app, !fmap_cons. simpl.
    rewrite !NoDup_cons, !NoDup_app, !NoDup_cons. set_solver. }
  assert (Hv' : Forall valid_ptr (this :: (ns1 ++ ns2).*1)).
  { revert Hv. rewrite !fmap_app, !fmap_cons, !Forall_cons, !Forall_app, !Forall_cons.
    simpl. tauto. }
  assert (Hlen : wrap (Z.of_nat (length (ns1 ++ (p, v) :: ns2)) - 1)
                 = Z.of_nat (length (ns1 ++ ns2))).
  { pose proof (valid_ptr_bound _ Hnd Hv) as Hb. revert Hb.
    simpl. rewrite !length_fmap, !length_app. simpl. intros Hb.
    rewrite wrap_small by lia. lia. }
  clear Hv.
  unfold is_List at 1. revert Hthis Hch Hlen Hnd Hnd' Hv'.
  destruct ns1 as [|[q w] ns1 _] using rev_ind; destruct ns2 as [|[r u] ns2];
    list_simp; intros Hthis Hch Hlen Hnd Hnd' Hv; destruct_and?.
  - assert (Hd : this <> p) by nodup_facts Hnd.
    eexists; split; [unfold List_erase; run|].
    split; [finish_is_List Hlen Hnd' Hv | split; [frame_other | solve_lookup]].
  - assert (Hd : this <> r /\ this <> p /\ r <> p
       /\ (this ∉ ns2.*1) /\ (r ∉ ns2.*1) /\ p ∉ ns2.*1) by nodup_facts Hnd.
    destruct_and?.
    eexists; split; [unfold List_erase; run|].
    split; [finish_is_List Hlen Hnd' Hv | split; [frame_other | solve_lookup]].
  - assert (Hd : this <> q /\ this <> p /\ q <> p
       /\ (this ∉ ns1.*1) /\ (q ∉ ns1.*1) /\ p ∉ ns1.*1) by nodup_facts Hnd.
    destruct_and?.
    eexists; split; [unfold List_erase; run|].
    split; [finish_is_List Hlen Hnd' Hv | split; [frame_other | solve_lookup]].
  - assert (Hd : this <> q /\ this <> r /\ this <> p /\ q <> r /\ q <> p /\ r <> p
       /\ (this ∉ ns1.*1) /\ (q ∉ ns1.*1) /\ (r ∉ ns1.*1) /\ (p ∉ ns1.*1)
       /\ (this ∉ ns2.*1) /\ (q ∉ ns2.*1) /\ (r ∉ ns2.*1) /\ p ∉ ns2.*1) by nodup_facts Hnd.
    destruct_and?.
    eexists; split; [unfold List_erase; run|].
    split; [finish_is_List Hlen Hnd' Hv | split; [frame_other | solve_lookup]].
Qed.

(** Adjacent headers of a valid list point at each other. *)
Lemma is_List_prev h this ns1 ns2 :
  is_List h this (ns1 ++ ns2) ->
  exists o, h !! first_ptr ns2 this = Some o /\ live o
            /\ prev (header o) = last_ptr this ns1.
Proof.
  intros (Hthis & Hch & _). revert Hthis Hch.
  destruct ns2 as [|[r u] ns2]; list_simp; intros Hthis Hch.
  - eexists; split; [exact Hthis|done].
  - destruct Hch as (_ & Hr & _). eexists; split; [exact Hr|done].
Qed.

Lemma is_List_next h this ns1 ns2 :
  is_List h this (ns1 ++ ns2) ->
  exists o, h !! last_ptr this ns1 = Some o /\ live o
            /\ next (header o) = first_ptr ns2 this.
Proof.
  intros (Hthis & Hch & _). revert Hthis Hch.
  destruct ns1 as [|[q w] ns1 _] using rev_ind; list_simp; intros Hthis Hch.
  - eexists; split; [exact Hthis|done].
  - destruct Hch as ((_ & Hq & _) & _). eexists; split; [exact Hq|done].
Qed.

Lemma is_List_value h this ns1 p v ns2 :
  is_List h this (ns1 ++ (p, v) :: ns2) -> exists hd, h !! p = Some (ListNode hd v).
Proof.
  intros (_ & Hch & _). revert Hch. list_simp. intros (_ & Hp & _). eauto.
Qed.

Lemma is_List_this h this ns :
  is_List h this ns -> exists hd, h !! this = Some (List hd (Z.of_nat (length ns))).
Proof. intros (Hthis & _). eauto. Qed.

Lemma is_List_NoDup h this ns : is_List h this ns -> NoDup (this :: ns.*1).
Proof. by intros (_ & _ & Hnd & _). Qed.

(** Forward traversal reads the values in order. *)
Lemma forward_from_spec h this ns1 ns2 fuel :
  is_List h this (ns1 ++ ns2) -> (length ns2 <= fuel)%nat ->
  forward_from fuel this (first_ptr ns2 this) h = Ok ns2.*2 h.
Proof.
  revert ns1 fuel. induction ns2 as [|[r u] ns2 IH]; intros ns1 fuel HL Hfuel.
  - destruct fuel; simpl; unfold end_node; rewrite bool_decide_eq_false_2 by neq; done.
  - destruct fuel as [|fuel]; [simpl in Hfuel; lia|].
    pose proof (is_List_NoDup _ _ _ HL) as Hnd.
    assert (Hd : r <> this) by (revert Hnd; list_simp; intros Hnd; nodup_facts Hnd).
    destruct (is_List_value _ _ _ _ _ _ HL) as (hd & Hr).
    replace (ns1 ++ (r, u) :: ns2) with ((ns1 ++ [(r, u)]) ++ ns2) in HL
      by (by rewrite <- app_assoc).
    destruct (is_List_next _ _ _ _ HL) as (o & Ho & Hlo & Hnx). revert Ho Hnx. list_simp.
    intros Ho Hnx. rewrite Hr in Ho. injection Ho as <-.
    cbn [forward_from first_ptr]. unfold end_node.
    rewrite bool_decide_eq_true_2 by done.
    eapply run_bind; [run|]. cbv beta.
    eapply run_bind; [run|]. cbv beta. red_hdr. cbn [header] in Hnx. rewrite Hnx.
    eapply run_bind; [apply (IH (ns1 ++ [(r, u)])); [exact HL|simpl in Hfuel; lia]|]. done.
Qed.

Lemma forward_values_spec h this ns fuel :
  is_List h this ns -> (length ns <= fuel)%nat ->
  forward_values fuel this h = Ok ns.*2 h.
Proof.
  intros HL Hfuel. unfold forward_values.
  destruct HL as (Hthis & HL'). 
  eapply run_bind; [run|]. cbv beta. red_hdr.
  apply (forward_from_spec h this [] ns); [split; done|done].
Qed.

(** Backward traversal reads them in reverse. *)
Lemma backward_from_spec h this ns1 ns2 fuel :
  is_List h this (ns1 ++ ns2) -> (length ns1 <= fuel)%nat ->
  backward_from fuel this (first_ptr ns2 this) h = Ok (reverse ns1.*2) h.
Proof.
  revert ns2 fuel. induction ns1 as [|[q w] ns1 IH] using rev_ind; intros ns2 fuel HL Hfuel.
  - pose proof HL as (Hthis & _). revert Hthis. list_simp. intros Hthis.
    destruct fuel; cbn [backward_from]; (eapply run_bind; [run|]); cbv beta; red_hdr;
      rewrite bool_decide_eq_false_2 by neq; done.
  - destruct fuel as [|fuel]; [rewrite length_app in Hfuel; simpl in Hfuel; lia|].
    pose proof (is_List_NoDup _ _ _ HL) as Hnd.
    pose proof HL as (Hthis & _).
    destruct (is_List_prev _ _ _ _ HL) as (o & Ho & Hlo & Hpv).
    revert HL Hnd Hthis Hpv. list_simp. intros HL Hnd Hthis Hpv.
    destruct (is_List_value _ _ _ _ _ _ HL) as (hd & Hq).
    assert (Hd : first_ptr ns2 this <> first_ptr ns1 q).
    { assert ((first_ptr ns2 this ∉ ns1.*1) /\ q <> first_ptr ns2 this) as [? ?].
      { destruct ns2 as [|[r u] ns2]; revert Hnd; list_simp; intros Hnd; nodup_facts Hnd. }
      apply not_eq_sym, first_ptr_ne; done. }
    cbn [backward_from].
    eapply run_bind; [run|]. cbv beta. red_hdr.
    rewrite bool_decide_eq_true_2 by done.
    eapply run_bind; [run|]. cbv beta. rewrite Hpv.
    eapply run_bind; [run|]. cbv beta.
    eapply run_bind; [apply (IH ((q, w) :: ns2)); [exact HL|]|].
    { rewrite length_app in Hfuel; simpl in Hfuel; lia. }
    cbv beta. by rewrite reverse_snoc.
Qed.

Lemma backward_values_spec h this ns fuel :
  is_List h this ns -> (length ns <= fuel)%nat ->
  backward_values fuel this h = Ok (reverse ns.*2) h.
Proof.
  intros HL Hfuel. unfold backward_values.
  eapply run_bind; [run|]. cbv beta. red_hdr.
  apply (backward_from_spec h this ns []); [by rewrite app_nil_r|done].
Qed.
(** ** Positions *)

Lemma first_ptr_in ns d : first_ptr ns d ∈ d :: ns.*1.
Proof. destruct ns as [|[p v] ns]; simpl; [left|right; left]. Qed.

Lemma last_ptr_in ns d : last_ptr d ns ∈ d :: ns.*1.
Proof.
  revert d. induction ns as [|[p v] ns IH]; intros d; simpl; [left|].
  right. apply IH.
Qed.

Lemma node_split ns x :
  x ∈ ns.*1 -> exists ns1 v ns2, ns = ns1 ++ (x, v) :: ns2.
Proof.
  intros Hx. apply list_elem_of_fmap in Hx as ([p v] & -> & Hin).
  apply list_elem_of_split in Hin as (ns1 & ns2 & ->). eauto.
Qed.

Lemma ring_split_first ns this x :
  x ∈ this :: ns.*1 -> exists ns1 ns2, ns = ns1 ++ ns2 /\ x = first_ptr ns2 this.
Proof.
  intros Hx. apply elem_of_cons in Hx as [->|Hx].
  - exists ns, []. by rewrite app_nil_r.
  - destruct (node_split _ _ Hx) as (ns1 & v & ns2 & ->). by exists ns1, ((x, v) :: ns2).
Qed.

Lemma ring_split_last ns this x :
  x ∈ this :: ns.*1 -> exists ns1 ns2, ns = ns1 ++ ns2 /\ x = last_ptr this ns1.
Proof.
  intros Hx. apply elem_of_cons in Hx as [->|Hx].
  - by exists [], ns.
  - destruct (node_split _ _ Hx) as (ns1 & v & ns2 & ->).
    exists (ns1 ++ [(x, v)]), ns2. split; [by rewrite <- app_assoc|].
    by rewrite last_ptr_app.
Qed.

Lemma first_ptr_in_app ns1 ns2 this : first_ptr ns2 this ∈ this :: (ns1 ++ ns2).*1.
Proof.
  pose proof (first_ptr_in ns2 this) as Hin. rewrite fmap_app.
  revert Hin. rewrite !elem_of_cons, elem_of_app. tauto.
Qed.

Lemma advance_spec h this ns k x :
  is_List h this ns -> x ∈ this :: ns.*1 ->
  exists y, advance k x h = Ok y h /\ y ∈ this :: ns.*1.
Proof.
  intros HL. revert x. induction k as [|k IH]; intros x Hx.
  - exists x. done.
  - destruct (ring_split_last _ _ _ Hx) as (ns1 & ns2 & -> & ->).
    destruct (is_List_next _ _ _ _ HL) as (o & Ho & Hlo & Hnx).
    destruct (IH (first_ptr ns2 this)) as (y & Hy & Hin); [apply first_ptr_in_app|].
    exists y. split; [|done]. cbn [advance].
    eapply run_bind; [run|]. cbv beta. by rewrite Hnx.
Qed.

Lemma position_at_index_spec h this ns k :
  is_List h this ns ->
  exists pos, position_at_index this k h = Ok pos h /\ pos ∈ this :: ns.*1.
Proof.
  intros HL. pose proof HL as (Hthis & _).
  destruct (advance_spec h this ns k (first_ptr ns this) HL) as (y & Hy & Hin).
  { apply first_ptr_in. }
  exists y. split; [|done]. unfold position_at_index.
  eapply run_bind; [run|]. exact Hy.
Qed.

(** ** Every state of a history is valid *)

Lemma is_List_default h this :
  h !! this = Some (default_List this) -> valid_ptr this -> is_List h this [].
Proof.
  intros Hthis Hv. split; [exact Hthis|]. split; [exact I|]. split.
  - apply NoDup_singleton.
  - by apply Forall_singleton.
Qed.

Lemma reachable_valid h this : reachable this h -> exists ns, is_List h this ns.
Proof.
  induction 1 as [h h' Hfresh Hv Hctor
                 |h k pos v p it h' _ [ns HL] Hpos Hv Hfresh Hins
                 |h k pos it h' _ [ns HL] Hpos Hne Her].
  - exists []. injection Hctor as <-. apply is_List_default; [|done].
    by rewrite lookup_insert_eq.
  - destruct (position_at_index_spec h this ns k HL) as (pos' & Hpos' & Hin).
    rewrite Hpos in Hpos'. injection Hpos' as <-.
    destruct (ring_split_first _ _ _ Hin) as (ns1 & ns2 & -> & ->).
    destruct (insert_spec_reuse h this ns1 ns2 v p HL Hv Hfresh) as (h'' & Hins' & HL' & _).
    rewrite Hins in Hins'. injection Hins' as _ <-. eauto.
  - destruct (position_at_index_spec h this ns k HL) as (pos' & Hpos' & Hin).
    rewrite Hpos in Hpos'. injection Hpos' as <-.
    apply elem_of_cons in Hin as [->|Hin]; [done|].
    destruct (node_split _ _ Hin) as (ns1 & v & ns2 & ->).
    destruct (erase_spec h this ns1 pos v ns2 HL) as (h'' & Her' & HL' & _).
    rewrite Her in Her'. injection Her' as _ <-. eauto.
Qed.

(** ** [clear] *)

Lemma clear_loop_spec h this b ns fuel :
  chain h b ns this -> NoDup (this :: ns.*1) -> (length ns <= fuel)%nat ->
  exists h', clear_loop fuel this (first_ptr ns this) h = Ok tt h'
    /\ (forall x, x ∈ ns.*1 -> h' !! x = None)
    /\ (forall x, x ∉ ns.*1 -> h' !! x = h !! x).
Proof.
  revert h b fuel. induction ns as [|[r u] ns IH]; intros h b fuel Hch Hnd Hfuel.
  - exists h. split; [|split; [|done]].
    + destruct fuel; simpl; unfold end_node; by rewrite bool_decide_eq_false_2 by neq.
    + intros x Hx. by apply elem_of_nil in Hx.
  - destruct fuel as [|fuel]; [simpl in Hfuel; lia|].
    destruct Hch as (Hr & Hch). revert Hnd. list_simp. intros Hnd.
    assert (Hd : this <> r /\ (this ∉ ns.*1) /\ (r ∉ ns.*1) /\ NoDup (this :: ns.*1)).
    { clear -Hnd. revert Hnd. rewrite !NoDup_cons, !not_elem_of_cons. tauto. }
    destruct Hd as (Hd1 & Hd2 & Hd3 & Hnd').
    destruct (IH (delete r h) r fuel) as (h' & Hrun & Hdead & Hframe).
    { eapply chain_frame; [|exact Hch]. intros x Hx. solve_lookup. }
    { exact Hnd'. }
    { simpl in Hfuel. lia. }
    exists h'. split; [|split].
    + cbn [clear_loop first_ptr]. unfold end_node.
      rewrite bool_decide_eq_true_2 by neq.
      eapply run_bind; [run|]. cbv beta. red_hdr.
      eapply run_bind; [run|]. exact Hrun.
    + intros x Hx. apply elem_of_cons in Hx as [->|Hx]; [|by apply Hdead].
      rewrite Hframe by done. apply lookup_delete_eq.
    + intros x Hx. apply not_elem_of_cons in Hx as [Hx1 Hx2].
      rewrite Hframe by done. by apply lookup_delete_ne.
Qed.

Lemma List_clear_spec h this ns fuel :
  is_List h this ns -> (length ns <= fuel)%nat ->
  exists h', List_clear fuel this h = Ok tt h'
    /\ h' !! this = Some (default_List this)
    /\ (forall x, x ∈ ns.*1 -> h' !! x = None)
    /\ (forall x, x ∉ this :: ns.*1 -> h' !! x = h !! x).
Proof.
  intros (Hthis & Hch & Hnd & Hv) Hfuel.
  destruct (clear_loop_spec h this this ns fuel Hch Hnd Hfuel) as (h1 & Hrun & Hdead & Hframe).
  assert (Hthis1 : h1 !! this = h !! this).
  { apply Hframe. by apply NoDup_cons in Hnd as [? _]. }
  rewrite Hthis in Hthis1.
  eexists. split; [|split; [|split]].
  - unfold List_clear. eapply run_bind; [run|]. cbv beta. red_hdr.
    eapply run_bind; [exact Hrun|]. cbv beta. run.
  - solve_lookup.
  - intros x Hx.
    assert (this <> x) by (apply NoDup_cons in Hnd as [Hn _]; intros ->; done).
    repeat lookup_step. by apply Hdead.
  - intros x Hx. apply not_elem_of_cons in Hx as [Hx1 Hx2].
    repeat lookup_step. by apply Hframe.
Qed.

(** ** What cannot throw *)

Lemma noexcept_ret {A} (a : A) : noexcept (T:=T) (ret a).
Proof. intros h h'. done. Qed.

Lemma noexcept_fail {A} f : noexcept (T:=T) (A:=A) (fail f).
Proof. intros h h'. done. Qed.

Lemma noexcept_bind {A B} (m : M T A) (k : A -> M T B) :
  noexcept m -> (forall a, noexcept (k a)) -> noexcept (bind m k).
Proof.
  intros Hm Hk h h'. unfold bind. destruct (m h) as [a h1|h1|f] eqn:E.
  - apply Hk.
  - by destruct (Hm h h1).
  - done.
Qed.

Lemma noexcept_if {A} (b : bool) (x y : M T A) :
  noexcept x -> noexcept y -> noexcept (if b then x else y).
Proof. by destruct b. Qed.

Lemma noexcept_load p : noexcept (T:=T) (load p).
Proof. intros h h'. unfold load. by destruct (live_at h p). Qed.

Lemma noexcept_store p hd : noexcept (T:=T) (store p hd).
Proof. intros h h'. unfold store. by destruct (live_at h p). Qed.

Lemma noexcept_deref p : noexcept (T:=T) (deref p).
Proof. intros h h'. unfold deref. by destruct (h !! p) as [[]|]. Qed.

Lemma noexcept_get_size p : noexcept (T:=T) (get_size p).
Proof. intros h h'. unfold get_size. by destruct (h !! p) as [[]|]. Qed.

Lemma noexcept_set_size p n : noexcept (T:=T) (set_size p n).
Proof. intros h h'. unfold set_size. by destruct (h !! p) as [[]|]. Qed.

Lemma noexcept_delete_node p : noexcept (T:=T) (delete_node p).
Proof. intros h h'. unfold delete_node. by destruct (h !! p) as [[]|]. Qed.

Lemma noexcept_delete_header p : noexcept (T:=T) (delete_header p).
Proof. intros h h'. unfold delete_header. by destruct (h !! p) as [[]|]. Qed.

Lemma noexcept_construct p o : noexcept (T:=T) (construct p o).
Proof. intros h h'. done. Qed.

Lemma noexcept_assert b : noexcept (T:=T) (assert b).
Proof. destruct b; [apply noexcept_ret|apply noexcept_fail]. Qed.

End ListProofs.

Ltac noexc :=
  repeat
    match goal with
    | |- noexcept (ret _) => apply noexcept_ret
    | |- noexcept (fail _) => apply noexcept_fail
    | |- noexcept (load _) => apply noexcept_load
    | |- noexcept (store _ _) => apply noexcept_store
    | |- noexcept (deref _) => apply noexcept_deref
    | |- noexcept (get_size _) => apply noexcept_get_size
    | |- noexcept (set_size _ _) => apply noexcept_set_size
    | |- noexcept (delete_node _) => apply noexcept_delete_node
    | |- noexcept (delete_header _) => apply noexcept_delete_header
    | |- noexcept (assert _) => apply noexcept_assert
    | |- noexcept (construct _ _) => apply noexcept_construct
    | |- noexcept (bind _ _) => apply noexcept_bind; [|intros ?]
    | |- noexcept (if _ then _ else _) => apply noexcept_if
    | H : forall p, noexcept (?f p) |- noexcept (?f _) => apply H
    | H : forall p q, noexcept (?f p q) |- noexcept (?f _ _) => apply H
    | H : noexcept ?m |- noexcept ?m => exact H
    end.

Section ListClaims.

Context {T : Type} `{EqDecision T}.
Implicit Types (h : heap T) (ns : list (Z * T)).

Lemma noexcept_get_prev p : noexcept (T:=T) (get_prev p).
Proof. unfold get_prev. noexc. Qed.

Lemma noexcept_get_next p : noexcept (T:=T) (get_next p).
Proof. unfold get_next. noexc. Qed.

Lemma noexcept_set_prev p q : noexcept (T:=T) (set_prev p q).
Proof. unfold set_prev. noexc. Qed.

Lemma noexcept_set_next p q : noexcept (T:=T) (set_next p q).
Proof. unfold set_next. noexc. Qed.

Lemma noexcept_List_empty this : noexcept (T:=T) (List_empty this).
Proof. unfold List_empty. noexc. Qed.

Lemma noexcept_List_erase this pos : noexcept (T:=T) (List_erase this pos).
Proof.
  unfold List_erase, head, tail, set_head, set_tail.
  pose proof noexcept_get_prev. pose proof noexcept_get_next.
  pose proof noexcept_set_prev. pose proof noexcept_set_next.
  noexc.
Qed.

Lemma noexcept_erase_loop fuel this it last : noexcept (T:=T) (erase_loop fuel this it last).
Proof.
  revert it. induction fuel as [|fuel IH]; intros it; cbn [erase_loop]; noexc;
    first [apply noexcept_List_erase | apply IH].
Qed.

Lemma noexcept_List_erase_range fuel this first last :
  noexcept (T:=T) (List_erase_range fuel this first last).
Proof. unfold List_erase_range. noexc. apply noexcept_erase_loop. Qed.

Lemma noexcept_clear_loop fuel this node : noexcept (T:=T) (clear_loop fuel this node).
Proof.
  pose proof noexcept_get_next.
  revert node. induction fuel as [|fuel IH]; intros node; cbn [clear_loop]; noexc.
Qed.

Lemma noexcept_List_clear fuel this : noexcept (T:=T) (List_clear fuel this).
Proof.
  unfold List_clear, head. pose proof noexcept_get_next. noexc.
  apply noexcept_clear_loop.
Qed.

Lemma noexcept_List_swap this other : noexcept (T:=T) (List_swap this other).
Proof.
  unfold List_swap, swap_headers, swap_sizes, tail.
  pose proof noexcept_get_prev. pose proof noexcept_set_next.
  pose proof noexcept_List_empty.
  noexc.
Qed.

Lemma noexcept_List_move_assign fuel this other :
  noexcept (T:=T) (List_move_assign fuel this other).
Proof.
  unfold List_move_assign, tail.
  pose proof noexcept_get_prev. pose proof noexcept_set_next.
  pose proof noexcept_List_empty. pose proof (noexcept_List_clear fuel this).
  noexc.
Qed.

Lemma noexcept_List_move_ctor this other : noexcept (T:=T) (List_move_ctor this other).
Proof.
  unfold List_move_ctor, tail.
  pose proof noexcept_get_prev. pose proof noexcept_set_next.
  pose proof noexcept_List_empty.
  noexc.
Qed.

Lemma noexcept_List_pop_front this : noexcept (T:=T) (List_pop_front this).
Proof.
  unfold List_pop_front, List_begin, head.
  pose proof noexcept_get_next. pose proof noexcept_List_empty.
  pose proof (noexcept_List_erase this). noexc.
Qed.

Lemma noexcept_List_pop_back this : noexcept (T:=T) (List_pop_back this).
Proof.
  unfold List_pop_back, List_end, iter_decr.
  pose proof noexcept_get_prev. pose proof noexcept_List_empty.
  pose proof (noexcept_List_erase this). noexc.
Qed.

(** [insert] throws only what the allocator throws, before it has
    written anything. *)
Lemma List_insert_throw this pos v a h h' :
  List_insert (T:=T) this pos v a h = Throw h' -> a = bad_alloc /\ h' = h.
Proof.
  destruct a as [p|].
  - intros Hthrow. exfalso. revert Hthrow.
    assert (Hn : noexcept (List_insert this pos v (allocated p))); [|apply Hn].
    unfold List_insert, new_ListNode, head, tail, set_head, set_tail.
    pose proof noexcept_get_prev. pose proof noexcept_get_next.
    pose proof noexcept_set_prev. pose proof noexcept_set_next.
    noexc.
  - unfold List_insert, bind. simpl. intros [= <-]. done.
Qed.

(** ** The ring invariants hold in every valid state *)

Lemma walk_next_spec h this ns1 ns2 ns3 :
  is_List h this (ns1 ++ ns2 ++ ns3) ->
  walk_next h (length ns2) (first_ptr (ns2 ++ ns3) this) = Some (first_ptr ns3 this).
Proof.
  revert ns1. induction ns2 as [|[r u] ns2 IH]; intros ns1 HL; [done|].
  destruct (is_List_value _ _ _ _ _ _ HL) as (hd & Hr).
  replace (ns1 ++ ((r, u) :: ns2) ++ ns3) with ((ns1 ++ [(r, u)]) ++ ns2 ++ ns3) in HL
    by (by rewrite <- app_assoc).
  destruct (is_List_next _ _ _ _ HL) as (o & Ho & Hlo & Hnx).
  revert Ho Hnx. list_simp. intros Ho Hnx. rewrite Hr in Ho. injection Ho as <-.
  cbn [length walk_next app first_ptr].
  rewrite (live_at_Some _ _ _ Hr I), Hnx, <- first_ptr_app.
  by apply (IH (ns1 ++ [(r, u)])).
Qed.

Lemma walk_prev_spec h this ns1 ns2 ns3 :
  is_List h this (ns1 ++ ns2 ++ ns3) ->
  walk_prev h (length ns2) (last_ptr this (ns1 ++ ns2)) = Some (last_ptr this ns1).
Proof.
  revert ns3. induction ns2 as [|[q w] ns2 IH] using rev_ind; intros ns3 HL.
  - by rewrite app_nil_r.
  - revert HL. list_simp. intros HL.
    destruct (is_List_value h this (ns1 ++ ns2) q w ns3) as (hd & Hq).
    { by rewrite <- app_assoc. }
    destruct (is_List_prev h this (ns1 ++ ns2) ((q, w) :: ns3)) as (o & Ho & Hlo & Hpv).
    { by rewrite <- app_assoc. }
    revert Ho Hpv. list_simp. intros Ho Hpv. rewrite Hq in Ho. injection Ho as <-.
    rewrite length_app, Nat.add_comm. cbn [length Nat.add walk_prev].
    rewrite (live_at_Some _ _ _ Hq I), Hpv, <- last_ptr_app.
    by apply (IH ((q, w) :: ns3)).
Qed.

Lemma ring_links_ok h this ns x :
  is_List h this ns -> x ∈ this :: ns.*1 -> links_ok h x = true.
Proof.
  intros HL Hx.
  destruct (ring_split_last _ _ _ Hx) as (ns1 & ns2 & -> & ->).
  destruct (is_List_next _ _ _ _ HL) as (o & Ho & Hlo & Hnx).
  destruct (is_List_prev _ _ _ _ HL) as (on & Hon & Hlon & Hpv).
  destruct (ring_split_first (ns1 ++ ns2) this (last_ptr this ns1)) as (ms1 & ms2 & Hms & Hx').
  { pose proof (last_ptr_in ns1 this) as Hin. rewrite fmap_app.
    revert Hin. rewrite !elem_of_cons, elem_of_app. tauto. }
  rewrite Hms in HL.
  destruct (is_List_prev _ _ _ _ HL) as (o' & Ho' & Hlo' & Hpv').
  destruct (is_List_next _ _ _ _ HL) as (op & Hop & Hlop & Hnx').
  rewrite <- Hx' in Ho', Hnx'. rewrite Ho in Ho'. injection Ho' as <-.
  unfold links_ok.
  rewrite (live_at_Some _ _ _ Ho Hlo), Hnx, (live_at_Some _ _ _ Hon Hlon), Hpv',
    (live_at_Some _ _ _ Hop Hlop), Hpv, Hnx'.
  by rewrite !bool_decide_eq_true_2.
Qed.

Lemma walk_next_ring h this ns k x y :
  is_List h this ns -> x ∈ this :: ns.*1 -> walk_next h k x = Some y ->
  y ∈ this :: ns.*1.
Proof.
  intros HL. revert x. induction k as [|k IH]; intros x Hx; cbn [walk_next].
  - by intros [= <-].
  - destruct (ring_split_last _ _ _ Hx) as (ns1 & ns2 & -> & ->).
    destruct (is_List_next _ _ _ _ HL) as (o & Ho & Hlo & Hnx).
    rewrite (live_at_Some _ _ _ Ho Hlo), Hnx.
    apply IH, first_ptr_in_app.
Qed.

Lemma is_List_I1 h this ns : is_List h this ns -> I1 h this.
Proof.
  intros HL. pose proof HL as (Hthis & _).
  eexists _, _. split; [exact Hthis|]. rewrite Nat2Z.id. split.
  - cbn [walk_next]. rewrite (live_at_Some _ _ _ Hthis I). cbn [header next].
    rewrite <- (app_nil_r ns) at 2. apply (walk_next_spec h this [] ns []).
    by rewrite app_nil_r.
  - cbn [walk_prev]. rewrite (live_at_Some _ _ _ Hthis I). cbn [header prev].
    apply (walk_prev_spec h this [] ns []). by rewrite app_nil_r.
Qed.

Lemma is_List_I2 h this ns : is_List h this ns -> I2 h this.
Proof.
  intros HL k p Hw. apply (ring_links_ok h this ns); [done|].
  apply (walk_next_ring h this ns k this); [done|left|done].
Qed.

Lemma is_List_I3 h this ns : is_List h this ns -> I3 h this.
Proof.
  intros HL. pose proof HL as (Hthis & _).
  eexists _, _. split; [exact Hthis|]. split; [lia|]. rewrite Nat2Z.id.
  intros k Hk. destruct k as [|k]; [lia|].
  destruct (lookup_lt_is_Some_2 ns k) as [[p v] Hp]; [lia|].
  pose proof (take_drop_middle _ _ _ Hp) as Hsplit.
  rewrite <- Hsplit in HL.
  destruct (is_List_value _ _ _ _ _ _ HL) as (hd & Hpv).
  exists p, hd, v. split; [|done].
  cbn [walk_next]. rewrite (live_at_Some _ _ _ Hthis I). cbn [header next].
  pose proof (walk_next_spec h this [] (take k ns) ((p, v) :: drop (S k) ns) HL) as Hw.
  rewrite Hsplit in Hw. rewrite length_take, Nat.min_l in Hw by lia. exact Hw.
Qed.

Lemma is_List_I4 h this ns : is_List h this ns -> I4 h this.
Proof.
  intros (Hthis & _) hd Hhd. rewrite Hthis in Hhd. injection Hhd as <- Hlen.
  destruct ns; [done|]. simpl in Hlen. lia.
Qed.

Lemma is_List_invariants h this ns :
  is_List h this ns -> I1 h this /\ I2 h this /\ I3 h this /\ I4 h this.
Proof.
  intros HL. split; [|split; [|split]].
  - by eapply is_List_I1.
  - by eapply is_List_I2.
  - by eapply is_List_I3.
  - by eapply is_List_I4.
Qed.

(** ** [operator==] *)

Lemma eq_loop_spec ne h a b nsa1 nsa2 nsb1 nsb2 fuel :
  (forall x y, ne x y = true <-> x <> y) ->
  is_List h a (nsa1 ++ nsa2) -> is_List h b (nsb1 ++ nsb2) ->
  length nsa2 = length nsb2 -> (length nsa2 <= fuel)%nat ->
  eq_loop ne fuel a (first_ptr nsa2 a) (first_ptr nsb2 b) h
  = Ok (bool_decide (nsa2.*2 = nsb2.*2)) h.
Proof.
  intros Hne. revert nsa1 nsb1 nsb2 fuel.
  induction nsa2 as [|[r u] nsa2 IH]; intros nsa1 nsb1 nsb2 fuel HLa HLb Hlen Hfuel.
  - destruct nsb2; [|done].
    destruct fuel; simpl; unfold end_node; by rewrite bool_decide_eq_false_2 by neq.
  - destruct nsb2 as [|[r' u'] nsb2]; [done|].
    destruct fuel as [|fuel]; [simpl in Hfuel; lia|].
    pose proof (is_List_NoDup _ _ _ HLa) as Hnd.
    assert (Hd : r <> a) by (revert Hnd; list_simp; intros Hnd; nodup_facts Hnd).
    destruct (is_List_value _ _ _ _ _ _ HLa) as (hd & Hr).
    destruct (is_List_value _ _ _ _ _ _ HLb) as (hd' & Hr').
    replace (nsa1 ++ (r, u) :: nsa2) with ((nsa1 ++ [(r, u)]) ++ nsa2) in HLa
      by (by rewrite <- app_assoc).
    replace (nsb1 ++ (r', u') :: nsb2) with ((nsb1 ++ [(r', u')]) ++ nsb2) in HLb
      by (by rewrite <- app_assoc).
    destruct (is_List_next _ _ _ _ HLa) as (o & Ho & Hlo & Hnx).
    destruct (is_List_next _ _ _ _ HLb) as (o' & Ho' & Hlo' & Hnx').
    revert Ho Hnx Ho' Hnx'. list_simp. intros Ho Hnx Ho' Hnx'.
    rewrite Hr in Ho. injection Ho as <-. rewrite Hr' in Ho'. injection Ho' as <-.
    cbn [header] in Hnx, Hnx'.
    cbn [eq_loop first_ptr]. unfold end_node.
    rewrite bool_decide_eq_true_2 by done.
    eapply run_bind; [run|]. cbv beta.
    eapply run_bind; [run|]. cbv beta.
    destruct (ne u u') eqn:Eu.
    + apply Hne in Eu. rewrite bool_decide_eq_false_2; [done|].
      list_simp. intros [= ? _]. done.
    + assert (u = u') as <-.
      { destruct (decide (u = u')) as [|Hn]; [done|]. apply Hne in Hn. congruence. }
      eapply run_bind; [run|]. cbv beta. red_hdr. rewrite Hnx.
      eapply run_bind; [run|]. cbv beta. red_hdr. rewrite Hnx'.
      rewrite (IH (nsa1 ++ [(r, u)]) (nsb1 ++ [(r', u)]) nsb2 fuel HLa HLb)
        by (simpl in *; lia).
      f_equal. apply bool_decide_ext. list_simp. split; [by intros ->|by intros [= ->]].
Qed.

Lemma T_ne_spec (x y : T) : T_ne x y = true <-> x <> y.
Proof. unfold T_ne. apply bool_decide_eq_true. Qed.

Lemma fmap_snd_length_ne ns ns' : length ns <> length ns' -> ns.*2 <> ns'.*2.
Proof. intros Hlen Heq. apply Hlen. by rewrite <- (length_fmap snd ns), Heq, length_fmap. Qed.

Lemma List_eq_with_spec ne h a b nsa nsb fuel :
  (forall x y, ne x y = true <-> x <> y) ->
  is_List h a nsa -> is_List h b nsb -> (length nsa <= fuel)%nat ->
  List_eq_with ne fuel a b h = Ok (bool_decide (nsa.*2 = nsb.*2)) h.
Proof.
  intros Hne HLa HLb Hfuel.
  pose proof HLa as (Ha & _). pose proof HLb as (Hb & _).
  unfold List_eq_with. eapply run_bind; [run|]. cbv beta.
  eapply run_bind; [run|]. cbv beta.
  destruct (decide (length nsa = length nsb)) as [Hlen|Hlen].
  - rewrite bool_decide_eq_false_2 by (rewrite Hlen; intros Hn; by apply Hn).
    eapply run_bind; [run|]. cbv beta. red_hdr.
    eapply run_bind; [run|]. cbv beta. red_hdr.
    apply (eq_loop_spec ne h a b [] nsa [] nsb); done.
  - rewrite bool_decide_eq_true_2 by lia.
    rewrite bool_decide_eq_false_2 by (by apply fmap_snd_length_ne). done.
Qed.

(** When the sizes differ the answer is [false] whatever [operator!=] of
    [T] is and before any round of the loop. *)
Lemma List_eq_with_sizes ne h a b nsa nsb fuel :
  is_List h a nsa -> is_List h b nsb -> length nsa <> length nsb ->
  List_eq_with ne fuel a b h = Ok false h.
Proof.
  intros (Ha & _) (Hb & _) Hlen.
  unfold List_eq_with. eapply run_bind; [run|]. cbv beta.
  eapply run_bind; [run|]. cbv beta.
  by rewrite bool_decide_eq_true_2 by lia.
Qed.

(** ** The moves and [swap] *)

Lemma is_List_from_this h this ns : is_List h this ns <-> is_List_from h this this ns.
Proof. done. Qed.

Lemma forward_from_chain h this b ns fuel :
  chain h b ns this -> this ∉ ns.*1 -> (length ns <= fuel)%nat ->
  forward_from fuel this (first_ptr ns this) h = Ok ns.*2 h.
Proof.
  revert b fuel. induction ns as [|[r u] ns IH]; intros b fuel Hch Hnin Hfuel.
  - destruct fuel; simpl; unfold end_node; by rewrite bool_decide_eq_false_2 by neq.
  - destruct fuel as [|fuel]; [simpl in Hfuel; lia|].
    destruct Hch as (Hr & Hch). revert Hnin. list_simp.
    rewrite not_elem_of_cons. intros [Hd Hnin].
    cbn [forward_from first_ptr]. unfold end_node.
    rewrite bool_decide_eq_true_2 by done.
    eapply run_bind; [run|]. cbv beta.
    eapply run_bind; [run|]. cbv beta. red_hdr.
    eapply run_bind; [apply (IH r); [done..|simpl in Hfuel; lia]|]. done.
Qed.

(** A list in that state still gives its values to the forward traversal. *)
Lemma is_List_from_forward h this before ns fuel :
  is_List_from h this before ns -> (length ns <= fuel)%nat ->
  forward_values fuel this h = Ok ns.*2 h.
Proof.
  intros (Hthis & Hch & Hnd & _) Hfuel. apply NoDup_cons in Hnd as [Hnin _].
  unfold forward_values. eapply run_bind; [run|]. cbv beta. red_hdr.
  by apply (forward_from_chain h this before).
Qed.

(** But it breaks I2 at its own header as soon as it has an element. *)
Lemma is_List_from_not_I2 h this before ns :
  is_List_from h this before ns -> ns <> [] -> before <> this -> ~ I2 h this.
Proof.
  intros (Hthis & Hch & _) Hne Hbefore HI2.
  specialize (HI2 0%nat this eq_refl). revert HI2.
  destruct ns as [|[r u] ns]; [done|]. destruct Hch as (Hr & _).
  unfold links_ok. rewrite (live_at_Some _ _ _ Hthis I). red_hdr. cbn [first_ptr].
  rewrite (live_at_Some _ _ _ Hr I). red_hdr.
  rewrite (bool_decide_eq_false_2 (before = this)) by done.
  by destruct (live_at h (last_ptr this ((r, u) :: ns))).
Qed.

Lemma is_List_from_lookup h h' this before ns x :
  is_List_from h this before ns -> is_List_from h' this before ns ->
  x ∈ this :: ns.*1 -> h' !! x = h !! x.
Proof.
  intros (Hthis & Hch & _) (Hthis' & Hch' & _) Hx.
  apply elem_of_cons in Hx as [->|Hx]; [congruence|].
  clear Hthis Hthis'. revert before Hch Hch'.
  induction ns as [|[r u] ns IH]; intros before Hch Hch'; [by apply elem_of_nil in Hx|].
  destruct Hch as (Hr & Hch). destruct Hch' as (Hr' & Hch').
  revert Hx. list_simp. intros Hx. apply elem_of_cons in Hx as [->|Hx]; [congruence|].
  by apply (IH Hx r).
Qed.

Lemma size_test_nil : (Z.of_nat (length (@nil (Z * T))) =? 0) = true.
Proof. done. Qed.

Lemma size_test_snoc ns (x : Z * T) : (Z.of_nat (length (ns ++ [x])) =? 0) = false.
Proof. apply Z.eqb_neq. rewrite length_app. simpl. lia. Qed.

(** Move construction hands the ring over with its values in order and
    resets the source, but the first node keeps pointing back to the
    source. *)
Lemma List_move_ctor_spec h this other ns :
  is_List h other ns -> h !! this = None -> valid_ptr this ->
  exists h', List_move_ctor this other h = Ok tt h'
    /\ is_List h' other []
    /\ is_List_from h' this other ns
    /\ (forall x, x ∉ this :: other :: ns.*1 -> h' !! x = h !! x).
Proof.
  intros HL Hfresh Hvt.
  assert (Hnew : this ∉ other :: ns.*1).
  { intros Hin. apply (is_List_live _ _ _ _ HL) in Hin. rewrite Hfresh in Hin.
    by destruct Hin. }
  destruct HL as (Hother & Hch & Hnd & Hv).
  assert (Hnd' : NoDup (this :: other :: ns.*1)) by (by apply NoDup_cons).
  assert (Hv' : Forall valid_ptr (this :: ns.*1)).
  { apply Forall_cons in Hv as [_ Hv]. by apply Forall_cons. }
  assert (Hvo : valid_ptr other) by (by apply Forall_cons in Hv as [? _]).
  assert (Hndt : NoDup (this :: ns.*1)).
  { revert Hnd'. rewrite !NoDup_cons, !not_elem_of_cons. tauto. }
  clear Hnd Hv Hnew. unfold is_List_from.
  revert Hother Hch Hnd' Hndt Hv'.
  destruct ns as [|[q w] ns _] using rev_ind;
    list_simp; intros Hother Hch Hnd Hndt Hv; destruct_and?.
  - pose proof size_test_nil as Hz.
    assert (Hd : this <> other) by nodup_facts Hnd.
    eexists. split; [unfold List_move_ctor; run|].
    split; [apply is_List_default; [solve_lookup|done]|].
    split; [|frame_other].
    split; [solve_lookup|]. split; [done|]. split; done.
  - pose proof (size_test_snoc ns (q, w)) as Hz.
    assert (Hd : this <> other /\ this <> q /\ other <> q
       /\ (this ∉ ns.*1) /\ (other ∉ ns.*1) /\ q ∉ ns.*1) by nodup_facts Hnd.
    destruct_and?.
    eexists. split; [unfold List_move_ctor; run|].
    split; [apply is_List_default; [solve_lookup|done]|].
    split; [|frame_other].
    split; [solve_lookup|]. split; [|split; done].
    list_simp. repeat split; first [ solve_lookup | frame_chain ].
Qed.

(** Move assignment does the same after destroying what the target had. *)
Lemma List_move_assign_spec h this other nt ns fuel :
  is_List h this nt -> is_List h other ns ->
  NoDup ((this :: nt.*1) ++ other :: ns.*1) -> (length nt <= fuel)%nat ->
  exists h', List_move_assign fuel this other h = Ok tt h'
    /\ is_List h' other []
    /\ is_List_from h' this other ns
    /\ (forall x, x ∈ nt.*1 -> h' !! x = None)
    /\ (forall x, x ∉ (this :: nt.*1) ++ other :: ns.*1 -> h' !! x = h !! x).
Proof.
  intros HLt HL Hnd Hfuel.
  destruct (List_clear_spec h this nt fuel HLt Hfuel) as (h1 & Hrun & Hthis & Hdead & Hframe).
  unfold default_List in Hthis.
  assert (Hsep : forall x, x ∈ other :: ns.*1 -> x ∉ this :: nt.*1).
  { apply NoDup_app in Hnd as (_ & Hsep & _). intros x Hx Hx'. by apply (Hsep x). }
  assert (Hdead' : forall x h', x ∈ nt.*1 ->
            (forall y, y ∉ this :: other :: ns.*1 -> h' !! y = h1 !! y) -> h' !! x = None).
  { intros x h' Hx Hfr. rewrite Hfr; [by apply Hdead|].
    intros Hx'. apply elem_of_cons in Hx' as [->|Hx'].
    - destruct HLt as (_ & _ & Hndt & _). by apply NoDup_cons in Hndt as [? _].
    - apply (Hsep x Hx'). by right. }
  assert (Hframe' : forall x h', x ∉ (this :: nt.*1) ++ other :: ns.*1 ->
            (forall y, y ∉ this :: other :: ns.*1 -> h' !! y = h1 !! y) -> h' !! x = h !! x).
  { intros x h' Hx Hfr. apply not_elem_of_app in Hx as [Hx1 Hx2].
    rewrite Hfr; [by apply Hframe|].
    intros Hx'. apply elem_of_cons in Hx' as [->|Hx']; [|done]. apply Hx1. left. }
  assert (Hch1 : chain h1 other ns other).
  { destruct HL as (_ & Hch & _). eapply chain_frame; [|exact Hch].
    intros x Hx. apply Hframe, Hsep. by right. }
  assert (Hother1 : h1 !! other = h !! other) by (apply Hframe, Hsep; left).
  destruct HL as (Hother & _ & Hndo & Hvo). rewrite Hother in Hother1.
  assert (Hnd' : NoDup (this :: other :: ns.*1)).
  { revert Hnd. cbn [app]. rewrite !NoDup_cons, !NoDup_app, !NoDup_cons. set_solver. }
  assert (Hvt : valid_ptr this).
  { destruct HLt as (_ & _ & _ & Hv). by apply Forall_cons in Hv as [? _]. }
  assert (Hv' : Forall valid_ptr (this :: ns.*1)).
  { apply Forall_cons in Hvo as [_ Hvo]. by apply Forall_cons. }
  assert (Hvo' : valid_ptr other) by (by apply Forall_cons in Hvo as [? _]).
  assert (Hndt : NoDup (this :: ns.*1)).
  { revert Hnd'. rewrite !NoDup_cons, !not_elem_of_cons. tauto. }
  clear Hother Hnd Hsep Hndo Hvo HLt.
  unfold is_List_from. revert Hother1 Hch1 Hnd' Hndt Hv' Hdead' Hframe'.
  destruct ns as [|[q w] ns _] using rev_ind;
    list_simp; intros Hother Hch Hnd Hndt Hv Hdead' Hframe'; destruct_and?.
  - pose proof size_test_nil as Hz.
    assert (Hd : this <> other) by nodup_facts Hnd.
    eexists. split.
    { unfold List_move_assign. eapply run_bind; [exact Hrun|]. cbv beta. run. }
    split; [apply is_List_default; [solve_lookup|done]|].
    split; [split; [solve_lookup|split; [done|split; done]]|].
    split; [intros x Hx; apply Hdead'; [done|frame_other]
           |intros x Hx; apply Hframe'; [done|frame_other]].
  - pose proof (size_test_snoc ns (q, w)) as Hz.
    assert (Hd : this <> other /\ this <> q /\ other <> q
       /\ (this ∉ ns.*1) /\ (other ∉ ns.*1) /\ q ∉ ns.*1) by nodup_facts Hnd.
    destruct_and?.
    eexists. split.
    { unfold List_move_assign. eapply run_bind; [exact Hrun|]. cbv beta. run. }
    split; [apply is_List_default; [solve_lookup|done]|].
    split.
    { split; [solve_lookup|]. split; [|split; done].
      list_simp. repeat split; first [ solve_lookup | frame_chain ]. }
    split; [intros x Hx; apply Hdead'; [done|frame_other]
           |intros x Hx; apply Hframe'; [done|frame_other]].
Qed.

(** [swap] exchanges the rings and the sizes, and each first node keeps
    pointing back to where it pointed. *)
Lemma List_swap_spec h a b ba bb nsa nsb :
  is_List_from h a ba nsa -> is_List_from h b bb nsb ->
  NoDup ((a :: nsa.*1) ++ b :: nsb.*1) ->
  exists h', List_swap a b h = Ok tt h'
    /\ is_List_from h' a bb nsb
    /\ is_List_from h' b ba nsa
    /\ (forall x, x ∉ (a :: nsa.*1) ++ b :: nsb.*1 -> h' !! x = h !! x).
Proof.
  intros (Ha & Hcha & Hnda & Hva) (Hb & Hchb & Hndb & Hvb) Hnd.
  assert (Hva' : Forall valid_ptr (b :: nsa.*1)).
  { apply Forall_cons in Hva as [_ ?]. apply Forall_cons in Hvb as [? _].
    by apply Forall_cons. }
  assert (Hvb' : Forall valid_ptr (a :: nsb.*1)).
  { apply Forall_cons in Hva as [? _]. apply Forall_cons in Hvb as [_ ?].
    by apply Forall_cons. }
  assert (Hnda' : NoDup (b :: nsa.*1)).
  { revert Hnd. cbn [app]. rewrite !NoDup_cons, !NoDup_app, !NoDup_cons. set_solver. }
  assert (Hndb' : NoDup (a :: nsb.*1)).
  { revert Hnd. cbn [app]. rewrite !NoDup_cons, !NoDup_app, !NoDup_cons. set_solver. }
  clear Hva Hvb Hnda Hndb. unfold is_List_from.
  revert Ha Hb Hcha Hchb Hnd Hva' Hvb' Hnda' Hndb'.
  destruct nsa as [|[qa wa] nsa _] using rev_ind;
    destruct nsb as [|[qb wb] nsb _] using rev_ind;
    list_simp; intros Ha Hb Hcha Hchb Hnd Hva Hvb Hnda Hndb; destruct_and?.
  - pose proof size_test_nil as Hz.
    assert (Hd : a <> b) by nodup_facts Hnd.
    eexists. split; [unfold List_swap, swap_headers, swap_sizes; run|].
    split; [split; [solve_lookup|done]|].
    split; [split; [solve_lookup|done]|frame_other].
  - pose proof size_test_nil as Hza. pose proof (size_test_snoc nsb (qb, wb)) as Hzb.
    assert (Hd : a <> b /\ a <> qb /\ b <> qb
       /\ (a ∉ nsb.*1) /\ (b ∉ nsb.*1) /\ qb ∉ nsb.*1) by nodup_facts Hnd.
    destruct_and?.
    eexists. split; [unfold List_swap, swap_headers, swap_sizes; run|].
    split.
    { split; [solve_lookup|]. split; [|split; done].
      list_simp. repeat split; first [ solve_lookup | frame_chain ]. }
    split; [split; [solve_lookup|done]|frame_other].
  - pose proof size_test_nil as Hzb. pose proof (size_test_snoc nsa (qa, wa)) as Hza.
    assert (Hd : a <> b /\ a <> qa /\ b <> qa
       /\ (a ∉ nsa.*1) /\ (b ∉ nsa.*1) /\ qa ∉ nsa.*1) by nodup_facts Hnd.
    destruct_and?.
    eexists. split; [unfold List_swap, swap_headers, swap_sizes; run|].
    split; [split; [solve_lookup|done]|].
    split; [|frame_other].
    split; [solve_lookup|]. split; [|split; done].
    list_simp. repeat split; first [ solve_lookup | frame_chain ].
  - pose proof (size_test_snoc nsa (qa, wa)) as Hza.
    pose proof (size_test_snoc nsb (qb, wb)) as Hzb.
    assert (Hd : a <> b /\ a <> qa /\ b <> qa /\ a <> qb /\ b <> qb /\ qa <> qb
       /\ (a ∉ nsa.*1) /\ (b ∉ nsa.*1) /\ (qa ∉ nsa.*1) /\ (qb ∉ nsa.*1)
       /\ (a ∉ nsb.*1) /\ (b ∉ nsb.*1) /\ (qa ∉ nsb.*1) /\ qb ∉ nsb.*1) by nodup_facts Hnd.
    destruct_and?.
    eexists. split; [unfold List_swap, swap_headers, swap_sizes; run|].
    split.
    { split; [solve_lookup|]. split; [|split; done].
      list_simp. repeat split; first [ solve_lookup | frame_chain ]. }
    split; [|frame_other].
    split; [solve_lookup|]. split; [|split; done].
    list_simp. repeat split; first [ solve_lookup | frame_chain ].
Qed.

(** Two swaps in a row give the store back as it was. *)
Lemma List_swap_twice h a b nsa nsb :
  is_List h a nsa -> is_List h b nsb ->
  NoDup ((a :: nsa.*1) ++ b :: nsb.*1) ->
  exists h', List_swap a b h = Ok tt h'
    /\ is_List_from h' a b nsb
    /\ is_List_from h' b a nsa
    /\ List_swap a b h' = Ok tt h.
Proof.
  intros HLa HLb Hnd.
  destruct (List_swap_spec h a b a b nsa nsb HLa HLb Hnd) as (h' & Hrun & HLa' & HLb' & Hfr).
  assert (Hnd' : NoDup ((a :: nsb.*1) ++ b :: nsa.*1)).
  { revert Hnd. cbn [app]. rewrite !NoDup_cons, !NoDup_app, !NoDup_cons. set_solver. }
  destruct (List_swap_spec h' a b b a nsb nsa HLa' HLb' Hnd')
    as (h'' & Hrun' & HLa'' & HLb'' & Hfr').
  exists h'. split; [done|]. split; [done|]. split; [done|].
  rewrite Hrun'. f_equal. apply map_eq. intros x.
  destruct (decide (x ∈ a :: nsa.*1)) as [Hxa|Hxa].
  { by apply (is_List_from_lookup h h'' a a nsa). }
  destruct (decide (x ∈ b :: nsb.*1)) as [Hxb|Hxb].
  { by apply (is_List_from_lookup h h'' b b nsb). }
  rewrite Hfr', Hfr; [done|..].
  - rewrite not_elem_of_app. done.
  - revert Hxa Hxb. cbn [app].
    rewrite !not_elem_of_cons, !not_elem_of_app, !not_elem_of_cons. tauto.
Qed.

(** So both [swap] and move construction break I2 for every list that
    has an element. *)
Lemma List_swap_not_I2 h a b nsa nsb :
  is_List h a nsa -> is_List h b nsb ->
  NoDup ((a :: nsa.*1) ++ b :: nsb.*1) -> nsa <> [] ->
  exists h', List_swap a b h = Ok tt h' /\ ~ I2 h' b.
Proof.
  intros HLa HLb Hnd Hne.
  destruct (List_swap_twice h a b nsa nsb HLa HLb Hnd) as (h' & Hrun & _ & HLb' & _).
  exists h'. split; [done|]. apply (is_List_from_not_I2 h' b a nsa); [done..|].
  cbn [app] in Hnd. apply NoDup_cons in Hnd as [Hnin _]. intros ->.
  apply Hnin, elem_of_app. right. left.
Qed.

Lemma List_move_ctor_not_I2 h this other ns fuel :
  is_List h other ns -> h !! this = None -> valid_ptr this ->
  ns <> [] -> (length ns <= fuel)%nat ->
  exists h', List_move_ctor this other h = Ok tt h'
    /\ is_List h' other []
    /\ forward_values fuel this h' = Ok ns.*2 h'
    /\ ~ I2 h' this.
Proof.
  intros HL Hfresh Hv Hne Hfuel.
  destruct (List_move_ctor_spec h this other ns HL Hfresh Hv) as (h' & Hrun & HLo & HLt & _).
  exists h'. split; [done|]. split; [done|].
  split; [by apply (is_List_from_forward h' this other)|].
  apply (is_List_from_not_I2 h' this other ns); [done..|].
  intros ->. destruct HL as (Hother & _). congruence.
Qed.

(** * The claims *)

Lemma ring_app_cons ns1 ns2 (x : Z) (v : T) (this q : Z) :
  q ∈ this :: (ns1 ++ (x, v) :: ns2).*1 <-> q = x \/ q ∈ this :: (ns1 ++ ns2).*1.
Proof.
  rewrite !fmap_app, fmap_cons. cbn [fst].
  rewrite !elem_of_cons, !elem_of_app, !elem_of_cons. tauto.
Qed.


(** C4.  On a valid list, [erase(pos)] at a position other than [end()]
    returns the position after [pos]; the two neighbours of the erased
    node point at each other, [size()] is one less and the list is valid;
    when the erased element was the only one, the list object is what
    default construction makes.  But the element is not destroyed: the
    [delete] of [erase] goes through the pointer to the header, so the
    storage of the node is released with its value undestroyed and no
    object leaves the store, whereas [clear()] on the same list destroys
    that node. *)
Theorem List_erase_leaves_value_undestroyed h this ns pos fuel :
  is_List h this ns -> pos ∈ this :: ns.*1 -> pos <> end_node this ->
  (length ns <= fuel)%nat ->
  exists ns1 v ns2 h' hc,
    ns = ns1 ++ (pos, v) :: ns2
    /\ List_erase this pos h = Ok (first_ptr ns2 this) h'
    /\ is_List h' this (ns1 ++ ns2)
    /\ get_next (last_ptr this ns1) h' = Ok (first_ptr ns2 this) h'
    /\ get_prev (first_ptr ns2 this) h' = Ok (last_ptr this ns1) h'
    /\ h' !! pos = Some (Undestroyed v)
    /\ dom h' = dom h
    /\ (forall q, q <> pos -> q ∉ this :: (ns1 ++ ns2).*1 -> h' !! q = h !! q)
    /\ List_size this h = Ok (Z.of_nat (length ns)) h
    /\ List_size this h' = Ok (Z.of_nat (length ns) - 1) h'
    /\ (ns1 ++ ns2 = [] -> h' !! this = Some (default_List this))
    /\ List_clear fuel this h = Ok tt hc
    /\ hc !! pos = None.
Proof.
  intros HL Hpos Hne Hfuel.
  destruct (List_clear_spec h this ns fuel HL Hfuel) as (hc & Hclear & _ & Hgone & _).
  apply elem_of_cons in Hpos as [->|Hpos]; [done|].
  specialize (Hgone pos Hpos).
  destruct (node_split _ _ Hpos) as (ns1 & v & ns2 & ->).
  destruct (erase_spec h this ns1 pos v ns2 HL) as (h' & Hrun & HL' & Hframe & Hleft).
  exists ns1, v, ns2, h', hc. split; [done|]. split; [done|]. split; [done|].
  destruct (is_List_next _ _ _ _ HL') as (o & Ho & Hlo & Hnx).
  destruct (is_List_prev _ _ _ _ HL') as (o' & Ho' & Hlo' & Hpv).
  pose proof HL as (Hthis & _). pose proof HL' as (Hthis' & _).
  split; [|split; [|split; [|split; [|split; [|split; [|split; [|split]]]]]]].
  - rewrite <- Hnx. run.
  - rewrite <- Hpv. run.
  - done.
  - apply set_eq. intros x. rewrite !elem_of_dom.
    destruct (decide (x = pos)) as [->|Hxp].
    { rewrite Hleft. split; [intros _|by eauto].
      apply (is_List_live _ _ _ _ HL), ring_app_cons. by left. }
    destruct (decide (x ∈ this :: (ns1 ++ ns2).*1)) as [Hin|Hout].
    + split; [intros _|intros _; by apply (is_List_live _ _ _ _ HL')].
      apply (is_List_live _ _ _ _ HL), ring_app_cons. by right.
    + by rewrite Hframe.
  - intros q Hq Hout. by apply Hframe.
  - unfold List_size. run.
  - replace (Z.of_nat (length (ns1 ++ (pos, v) :: ns2)) - 1)
      with (Z.of_nat (length (ns1 ++ ns2)))
      by (rewrite !length_app; simpl; lia).
    unfold List_size. run.
  - intros Hnil. rewrite Hthis', Hnil. done.
  - done.
Qed.

(** C5.  When the allocation of [insert] fails, [insert] leaves by the
    exception with the store exactly as it was, so the list is still valid
    and the ring invariants hold; a later call whose allocation succeeds
    inserts the element.  [insert] throws in no other way, and default
    construction, [pop_front], [pop_back], [erase], the range [erase],
    [clear], [swap], move construction and move assignment never throw. *)
Theorem List_insert_bad_alloc_unmodified h this ns pos v :
  is_List h this ns -> pos ∈ this :: ns.*1 ->
  List_insert this pos v bad_alloc h = Throw h
  /\ (I1 h this /\ I2 h this /\ I3 h this /\ I4 h this)
  /\ (forall p, valid_ptr p -> h !! p = None ->
        exists h', List_insert this pos v (allocated p) h = Ok p h')
  /\ (forall a h0 h', List_insert this pos v a h0 = Throw h' -> a = bad_alloc /\ h' = h0)
  /\ noexcept (T:=T) (List_ctor this)
  /\ noexcept (T:=T) (List_pop_front this)
  /\ noexcept (T:=T) (List_pop_back this)
  /\ (forall q, noexcept (T:=T) (List_erase this q))
  /\ (forall fuel q r, noexcept (T:=T) (List_erase_range fuel this q r))
  /\ (forall fuel, noexcept (T:=T) (List_clear fuel this))
  /\ (forall other, noexcept (T:=T) (List_swap this other))
  /\ (forall other, noexcept (T:=T) (List_move_ctor this other))
  /\ (forall fuel other, noexcept (T:=T) (List_move_assign fuel this other)).
Proof.
  intros HL Hpos. split; [done|]. split; [by eapply is_List_invariants|].
  split; [|split; [|split; [|split; [|split; [|split; [|split; [|split; [|split; [|split]]]]]]]]].
  - intros p Hv Hfresh.
    destruct (ring_split_first _ _ _ Hpos) as (ns1 & ns2 & -> & ->).
    destruct (insert_spec h this ns1 ns2 v p HL Hv Hfresh) as (h' & Hrun & _). eauto.
  - intros a h0 h'. apply List_insert_throw.
  - apply noexcept_construct.
  - apply noexcept_List_pop_front.
  - apply noexcept_List_pop_back.
  - intros q. apply noexcept_List_erase.
  - intros fuel q r. apply noexcept_List_erase_range.
  - intros fuel. apply noexcept_List_clear.
  - intros other. apply noexcept_List_swap.
  - intros other. apply noexcept_List_move_ctor.
  - intros fuel other. apply noexcept_List_move_assign.
Qed.

(** C6.  For two valid lists, [a == b] is true exactly when the sizes are
    equal and the values met by the forward traversals are equal one by
    one; when the sizes differ it is false whatever the comparison of [T]
    is and with no round of the loop. *)
Theorem List_eq_sizes_and_values h a b nsa nsb fuel fuelb :
  is_List h a nsa -> is_List h b nsb ->
  (length nsa <= fuel)%nat -> (length nsb <= fuelb)%nat ->
  exists r sa sb va vb,
    List_eq fuel a b h = Ok r h
    /\ List_size a h = Ok sa h /\ List_size b h = Ok sb h
    /\ forward_values fuel a h = Ok va h /\ forward_values fuelb b h = Ok vb h
    /\ (r = true <->
         sa = sb /\ forall i x y, va !! i = Some x -> vb !! i = Some y -> x = y)
    /\ (sa <> sb -> forall ne, List_eq_with ne 0 a b h = Ok false h).
Proof.
  intros HLa HLb Hfuel Hfuelb.
  pose proof HLa as (Ha & _). pose proof HLb as (Hb & _).
  exists (bool_decide (nsa.*2 = nsb.*2)), (Z.of_nat (length nsa)), (Z.of_nat (length nsb)),
    nsa.*2, nsb.*2.
  split; [apply List_eq_with_spec; [apply T_ne_spec|done..]|].
  split; [unfold List_size; run|]. split; [unfold List_size; run|].
  split; [by apply forward_values_spec|]. split; [by apply forward_values_spec|].
  split.
  - rewrite bool_decide_eq_true. split.
    + intros Heq. split.
      * f_equal. by rewrite <- (length_fmap snd nsa), Heq, length_fmap.
      * intros i x y Hx Hy. rewrite Heq in Hx. congruence.
    + intros [Hlen Hall]. apply Nat2Z.inj in Hlen.
      apply (list_eq_same_length _ _ (length nsa)); [by rewrite length_fmap..|].
      intros i x y _. apply Hall.
  - intros Hne ne. apply (List_eq_with_sizes ne h a b nsa nsb); [done..|].
    intros Hlen. apply Hne. by rewrite Hlen.
Qed.

(** C7.  In every state of a history of the list, the backward traversal
    from [--end()] down to [begin()] meets the values of the forward
    traversal in reverse order; when there is a last value, [--end()] is
    the node that holds it, and that node is followed by the end node. *)
Theorem backward_traversal_reverses h this :
  reachable this h ->
  exists vs,
    (forall fuel, (length vs <= fuel)%nat ->
       forward_values fuel this h = Ok vs h
       /\ backward_values fuel this h = Ok (reverse vs) h)
    /\ (forall v, last vs = Some v ->
         exists it,
           (do e <- List_end this; iter_decr e) h = Ok it h
           /\ deref it h = Ok v h
           /\ iter_incr it h = Ok (end_node this) h).
Proof.
  intros Hreach. destruct (reachable_valid h this Hreach) as (ns & HL).
  exists ns.*2. split.
  - intros fuel Hfuel. rewrite length_fmap in Hfuel.
    split; [by apply forward_values_spec|by apply backward_values_spec].
  - intros v Hlast. pose proof HL as (Hthis & _).
    destruct ns as [|[q w] ns _] using rev_ind; [done|].
    rewrite fmap_app in Hlast. cbn [fmap list_fmap snd] in Hlast.
    rewrite last_snoc in Hlast. injection Hlast as <-.
    destruct (is_List_value _ _ _ _ _ _ HL) as (hd & Hq).
    destruct (is_List_next h this (ns ++ [(q, w)]) []) as (o & Ho & Hlo & Hnx).
    { by rewrite app_nil_r. }
    revert Hthis Ho Hnx. list_simp. intros Hthis Ho Hnx.
    rewrite Hq in Ho. injection Ho as <-. cbn [header next] in Hnx.
    exists q. split; [run_eq|]. split; [run_eq|].
    unfold end_node. run_eq. by rewrite Hnx.
Qed.

(** C8.  Copy-assigning a valid list to itself clears it and then copies
    nothing: the list ends up empty, [size()] is [0] and [begin()] is
    [end()], whatever the allocator would have answered. *)
Theorem List_copy_assign_self_empties h a ns fuel allocs :
  is_List h a ns -> (length ns <= fuel)%nat ->
  exists h',
    List_copy_assign fuel allocs a a h = Ok tt h'
    /\ List_size a h' = Ok 0 h'
    /\ List_empty a h' = Ok true h'
    /\ List_begin a h' = Ok (end_node a) h'
    /\ List_end a h' = Ok (end_node a) h'
    /\ forward_values fuel a h' = Ok [] h'
    /\ (forall x, x ∈ ns.*1 -> h' !! x = None).
Proof.
  intros HL Hfuel.
  destruct (List_clear_spec h a ns fuel HL Hfuel) as (h' & Hrun & Hthis & Hdead & _).
  assert (HL' : is_List h' a []).
  { apply is_List_default; [done|]. destruct HL as (_ & _ & _ & Hv).
    by apply Forall_cons in Hv as [? _]. }
  unfold default_List in Hthis.
  exists h'. split; [|split; [|split; [|split; [|split; [|split]]]]].
  - unfold List_copy_assign. eapply run_bind; [exact Hrun|]. cbv beta.
    eapply run_bind; [run|]. cbv beta. red_hdr.
    destruct allocs; cbn [copy_loop]; unfold end_node;
      by rewrite bool_decide_eq_false_2 by neq.
  - unfold List_size. run_eq.
  - run_eq.
  - run_eq.
  - run_eq.
  - by apply (forward_values_spec h' a []); [|simpl; lia].
  - exact Hdead.
Qed.

(** C9.  Move-assigning a valid list to itself destroys its nodes and
    leaves the list object exactly as default construction makes it, so
    that constructing it anew in place would change nothing; the other
    objects of the store are untouched. *)
Theorem List_move_assign_self_empties h a ns fuel :
  is_List h a ns -> (length ns <= fuel)%nat ->
  exists h',
    List_move_assign fuel a a h = Ok tt h'
    /\ h' !! a = Some (default_List a)
    /\ List_ctor a h' = Ok tt h'
    /\ List_size a h' = Ok 0 h'
    /\ is_List h' a []
    /\ (forall x, x ∈ ns.*1 -> h' !! x = None)
    /\ (forall x, x ∉ a :: ns.*1 -> h' !! x = h !! x).
Proof.
  intros HL Hfuel.
  destruct (List_clear_spec h a ns fuel HL Hfuel) as (h1 & Hrun & Hthis & Hdead & Hframe).
  unfold default_List in Hthis.
  assert (Hrun' : exists h', List_move_assign fuel a a h = Ok tt h'
            /\ h' !! a = Some (default_List a)
            /\ forall x, x <> a -> h' !! x = h1 !! x).
  { eexists. split; [|split].
    - unfold List_move_assign. eapply run_bind; [exact Hrun|]. cbv beta.
      eapply run_bind; [run|]. cbv beta. cbn [Z.eqb negb].
      eapply run_bind; [run|]. cbv beta. run.
    - solve_lookup.
    - intros x Hx. solve_lookup. }
  destruct Hrun' as (h' & Hrun' & Hthis' & Hframe').
  assert (Hv : valid_ptr a).
  { destruct HL as (_ & _ & _ & Hv). by apply Forall_cons in Hv as [? _]. }
  pose proof (is_List_NoDup _ _ _ HL) as Hnd. apply NoDup_cons in Hnd as [Hna _].
  exists h'. split; [done|]. split; [done|].
  split; [|split; [|split; [|split]]].
  - unfold List_ctor, construct. f_equal. by apply insert_id.
  - unfold List_size, default_List in *. run_eq.
  - by apply is_List_default.
  - intros x Hx. rewrite Hframe' by (intros ->; done). by apply Hdead.
  - intros x Hx. apply not_elem_of_cons in Hx as [Hx1 Hx2].
    rewrite Hframe' by done. apply Hframe. by apply not_elem_of_cons.
Qed.

(** C10.  [erase(p, p)] runs no round of its loop: the store is unchanged
    and the position returned is [p], in every state and for every [p]. *)
Theorem List_erase_range_empty fuel this p (h : heap T) :
  List_erase_range fuel this p p h = Ok p h.
Proof.
  unfold List_erase_range.
  assert (Hloop : erase_loop fuel this p p h = Ok tt h).
  { destruct fuel; cbn [erase_loop]; by rewrite bool_decide_eq_false_2 by neq. }
  eapply run_bind; [exact Hloop|]. done.
Qed.

End ListClaims.

(** * Further properties of the list *)

Section ListMore.

Context {T : Type} `{EqDecision T}.
Implicit Types (h : heap T) (ns : list (Z * T)).

(** A list does not depend on the objects outside its ring. *)
Lemma is_List_frame h h' this ns :
  (forall x, x ∈ this :: ns.*1 -> h' !! x = h !! x) ->
  is_List h this ns -> is_List h' this ns.
Proof.
  intros Hfr (Hthis & Hch & Hnd & Hv). split; [|split; [|done]].
  - rewrite Hfr; [done|left].
  - eapply chain_frame; [|exact Hch]. intros x Hx. apply Hfr. by right.
Qed.

(** Two valid lists with the same elements at the same addresses agree on
    their ring. *)
Lemma is_List_lookup h h' this ns x :
  is_List h this ns -> is_List h' this ns -> x ∈ this :: ns.*1 -> h' !! x = h !! x.
Proof. apply is_List_from_lookup. Qed.

(** ** [push_back], [push_front], [pop_front], [pop_back] *)

Lemma push_back_spec h this ns v p :
  is_List h this ns -> valid_ptr p -> h !! p = None ->
  exists h', List_push_back this v (allocated p) h = Ok tt h'
    /\ is_List h' this (ns ++ [(p, v)])
    /\ (forall q, q ∉ this :: ns.*1 -> q <> p -> h' !! q = h !! q).
Proof.
  intros HL Hv Hfresh. rewrite <- (app_nil_r ns) in HL.
  destruct (insert_spec h this ns [] v p HL Hv Hfresh) as (h' & Hrun & HL' & Hfr).
  rewrite app_nil_r in Hfr. exists h'. split; [|done].
  unfold List_push_back. eapply run_bind; [run|]. cbv beta.
  eapply run_bind; [exact Hrun|]. done.
Qed.

Lemma push_front_spec h this ns v p :
  is_List h this ns -> valid_ptr p -> h !! p = None ->
  exists h', List_push_front this v (allocated p) h = Ok tt h'
    /\ is_List h' this ((p, v) :: ns)
    /\ (forall q, q ∉ this :: ns.*1 -> q <> p -> h' !! q = h !! q).
Proof.
  intros HL Hv Hfresh. pose proof HL as (Hthis & _).
  destruct (insert_spec h this [] ns v p HL Hv Hfresh) as (h' & Hrun & HL' & Hfr).
  exists h'. split; [|done].
  unfold List_push_front. eapply run_bind; [run|]. cbv beta. red_hdr.
  eapply run_bind; [exact Hrun|]. done.
Qed.

Lemma size_test_cons ns (x : Z * T) : (Z.of_nat (length (x :: ns)) =? 0) = false.
Proof. apply Z.eqb_neq. simpl. lia. Qed.

Lemma pop_front_spec h this r u ns :
  is_List h this ((r, u) :: ns) ->
  exists h', List_pop_front this h = Ok tt h'
    /\ is_List h' this ns
    /\ (forall q, q ∉ this :: ns.*1 -> q <> r -> h' !! q = h !! q)
    /\ h' !! r = Some (Undestroyed u).
Proof.
  intros HL. pose proof HL as (Hthis & _). pose proof (size_test_cons ns (r, u)) as Hz.
  destruct (erase_spec h this [] r u ns HL) as (h' & Hrun & HL' & Hfr & Hdead).
  exists h'. split; [|done].
  unfold List_pop_front. eapply run_bind; [run|]. cbv beta.
  eapply run_bind; [reflexivity|]. cbv beta.
  eapply run_bind; [run|]. cbv beta. red_hdr. cbn [first_ptr].
  eapply run_bind; [exact Hrun|]. done.
Qed.

Lemma pop_back_spec h this ns q w :
  is_List h this (ns ++ [(q, w)]) ->
  exists h', List_pop_back this h = Ok tt h'
    /\ is_List h' this ns
    /\ (forall x, x ∉ this :: ns.*1 -> x <> q -> h' !! x = h !! x)
    /\ h' !! q = Some (Undestroyed w).
Proof.
  intros HL. pose proof HL as (Hthis & _). pose proof (size_test_snoc ns (q, w)) as Hz.
  destruct (erase_spec h this ns q w [] HL) as (h' & Hrun & HL' & Hfr & Hdead).
  rewrite app_nil_r in HL', Hfr.
  revert Hthis. list_simp. intros Hthis.
  exists h'. split; [|done].
  unfold List_pop_back. eapply run_bind; [run|]. cbv beta.
  eapply run_bind; [reflexivity|]. cbv beta.
  eapply run_bind; [run|]. cbv beta.
  eapply run_bind; [run|]. cbv beta. red_hdr.
  eapply run_bind; [exact Hrun|]. done.
Qed.

(** ** The range [erase] *)

Lemma erase_loop_spec h this ns1 ns2 ns3 fuel :
  is_List h this (ns1 ++ ns2 ++ ns3) -> (length ns2 <= fuel)%nat ->
  exists h',
    erase_loop fuel this (first_ptr (ns2 ++ ns3) this) (first_ptr ns3 this) h = Ok tt h'
    /\ is_List h' this (ns1 ++ ns3)
    /\ (forall q v, (q, v) ∈ ns2 -> h' !! q = Some (Undestroyed v))
    /\ (forall q, q ∉ this :: (ns1 ++ ns3).*1 -> q ∉ ns2.*1 -> h' !! q = h !! q).
Proof.
  revert h fuel. induction ns2 as [|[r u] ns2 IH]; intros h fuel HL Hfuel.
  - exists h. split; [|split; [done|split; [|done]]].
    + destruct fuel; cbn [erase_loop app]; by rewrite bool_decide_eq_false_2 by neq.
    + intros q v Hq. by apply elem_of_nil in Hq.
  - destruct fuel as [|fuel]; [simpl in Hfuel; lia|].
    pose proof (is_List_NoDup _ _ _ HL) as Hnd.
    assert (Hd : r <> first_ptr ns3 this /\ (r ∉ this :: (ns1 ++ ns3).*1) /\ r ∉ ns2.*1).
    { assert (Hd : r <> this /\ (r ∉ ns1.*1) /\ (r ∉ ns2.*1) /\ r ∉ ns3.*1).
      { revert Hnd. list_simp. intros Hnd. nodup_facts Hnd. }
      destruct Hd as (? & ? & ? & ?). split; [|split; [|done]].
      - apply not_eq_sym, first_ptr_ne; done.
      - rewrite fmap_app, not_elem_of_cons, not_elem_of_app. done. }
    destruct Hd as (Hd1 & Hd2 & Hd3).
    destruct (erase_spec h this ns1 r u (ns2 ++ ns3) HL) as (h1 & Hrun & HL1 & Hfr1 & Hdead1).
    destruct (IH h1 fuel HL1) as (h' & Hrun' & HL' & Hdead' & Hfr'); [simpl in Hfuel; lia|].
    exists h'. split; [|split; [done|split]].
    + cbn [erase_loop app first_ptr]. rewrite bool_decide_eq_true_2 by done.
      eapply run_bind; [exact Hrun|]. exact Hrun'.
    + intros q v Hq. apply elem_of_cons in Hq as [[= -> ->]|Hq].
      * rewrite Hfr' by done. exact Hdead1.
      * by apply Hdead'.
    + intros q Hq1 Hq2. rewrite fmap_cons in Hq2. apply not_elem_of_cons in Hq2 as [Hq2 Hq3].
      rewrite Hfr' by done. apply Hfr1; [|done].
      revert Hq1 Hq3. rewrite !fmap_app, !not_elem_of_cons, !not_elem_of_app. tauto.
Qed.

(** A range whose end is not met on the way from its start takes one
    round per element up to [end()]; with no round left the model is out
    of fuel there, and with one more [erase(end())] stops at its
    assertion. *)
Lemma erase_loop_short h this ns1 ns2 last fuel :
  is_List h this (ns1 ++ ns2) -> last ∉ this :: ns2.*1 -> (fuel <= length ns2)%nat ->
  erase_loop fuel this (first_ptr ns2 this) last h = Fault NoFuel.
Proof.
  revert h fuel. induction ns2 as [|[r u] ns2 IH]; intros h fuel HL Hlast Hfuel.
  - destruct fuel as [|fuel]; [|simpl in Hfuel; lia].
    apply not_elem_of_cons in Hlast as [Hlast _].
    cbn [erase_loop first_ptr]. by rewrite bool_decide_eq_true_2 by done.
  - rewrite fmap_cons in Hlast. cbn [fst] in Hlast.
    rewrite !not_elem_of_cons in Hlast. destruct Hlast as (Hl1 & Hl2 & Hl3).
    destruct fuel as [|fuel].
    { cbn [erase_loop first_ptr]. by rewrite bool_decide_eq_true_2 by done. }
    destruct (erase_spec h this ns1 r u ns2 HL) as (h1 & Hrun & HL1 & _).
    cbn [erase_loop first_ptr]. rewrite bool_decide_eq_true_2 by done.
    eapply run_bind; [exact Hrun|]. apply (IH h1 fuel HL1).
    + rewrite not_elem_of_cons. done.
    + simpl in Hfuel. lia.
Qed.

Lemma erase_loop_overrun h this ns1 ns2 last fuel :
  is_List h this (ns1 ++ ns2) -> last ∉ this :: ns2.*1 -> (length ns2 < fuel)%nat ->
  erase_loop fuel this (first_ptr ns2 this) last h = Fault AssertFailed.
Proof.
  revert h fuel. induction ns2 as [|[r u] ns2 IH]; intros h fuel HL Hlast Hfuel.
  - destruct fuel as [|fuel]; [simpl in Hfuel; lia|].
    apply not_elem_of_cons in Hlast as [Hlast _].
    cbn [erase_loop first_ptr]. rewrite bool_decide_eq_true_2 by done.
    unfold bind, List_erase, assert, end_node.
    by rewrite bool_decide_eq_false_2 by (intros Hn; by apply Hn).
  - destruct fuel as [|fuel]; [simpl in Hfuel; lia|].
    rewrite fmap_cons in Hlast. cbn [fst] in Hlast.
    rewrite !not_elem_of_cons in Hlast. destruct Hlast as (Hl1 & Hl2 & Hl3).
    destruct (erase_spec h this ns1 r u ns2 HL) as (h1 & Hrun & HL1 & _).
    cbn [erase_loop first_ptr]. rewrite bool_decide_eq_true_2 by done.
    eapply run_bind; [exact Hrun|]. apply (IH h1 fuel HL1).
    + rewrite not_elem_of_cons. done.
    + simpl in Hfuel. lia.
Qed.

(** ** The destructor *)

Lemma List_dtor_spec h this ns fuel :
  is_List h this ns -> (length ns <= fuel)%nat ->
  exists h', List_dtor fuel this h = Ok tt h'
    /\ (forall x, x ∈ this :: ns.*1 -> h' !! x = None)
    /\ (forall x, x ∉ this :: ns.*1 -> h' !! x = h !! x).
Proof.
  intros (Hthis & Hch & Hnd & Hv) Hfuel.
  destruct (clear_loop_spec h this this ns fuel Hch Hnd Hfuel) as (h1 & Hrun & Hdead & Hframe).
  assert (Hnin : this ∉ ns.*1) by (by apply NoDup_cons in Hnd as [? _]).
  assert (Hthis1 : h1 !! this = h !! this) by (by apply Hframe).
  rewrite Hthis in Hthis1.
  exists (delete this h1). split; [|split].
  - unfold List_dtor. eapply run_bind; [run|]. cbv beta. red_hdr.
    eapply run_bind; [exact Hrun|]. cbv beta.
    unfold destroy_List. by rewrite Hthis1.
  - intros x Hx. apply elem_of_cons in Hx as [->|Hx]; [apply lookup_delete_eq|].
    rewrite lookup_delete_ne by (intros ->; done). by apply Hdead.
  - intros x Hx. apply not_elem_of_cons in Hx as [Hx1 Hx2].
    rewrite lookup_delete_ne by done. by apply Hframe.
Qed.

(** ** Copying *)

Lemma NoDup_snoc_mid (A B : list Z) (p : Z) :
  p ∉ A ++ B -> NoDup (A ++ B) -> NoDup ((A ++ [p]) ++ B).
Proof.
  intros Hp Hnd. rewrite <- app_assoc. cbn [app].
  rewrite <- Permutation_middle. by apply NoDup_cons.
Qed.

(** The nodes that a copy allocates: the addresses the allocator answered,
    with the values in order. *)
Lemma copy_loop_spec h this other nt ns1 ns2 ps rest :
  is_List h this nt -> is_List h other (ns1 ++ ns2) ->
  NoDup ((this :: nt.*1) ++ other :: (ns1 ++ ns2).*1) ->
  NoDup ps -> Forall valid_ptr ps -> (forall p, p ∈ ps -> h !! p = None) ->
  length ps = length ns2 ->
  exists h',
    copy_loop ((allocated <$> ps) ++ rest) this other (first_ptr ns2 other) h = Ok tt h'
    /\ is_List h' this (nt ++ zip ps ns2.*2)
    /\ (forall q, q ∉ this :: nt.*1 -> q ∉ ps -> h' !! q = h !! q).
Proof.
  revert h nt ns1 ps. induction ns2 as [|[r u] ns2 IH];
    intros h nt ns1 ps HLt HLo Hnd Hndp Hvp Hfresh Hlen.
  - destruct ps; [|done]. exists h. split; [|split; [by rewrite app_nil_r|done]].
    cbn [fmap list_fmap app]. destruct rest; cbn [copy_loop first_ptr]; unfold end_node;
      by rewrite bool_decide_eq_false_2 by neq.
  - destruct ps as [|p ps]; [done|].
    apply NoDup_cons in Hndp as [Hpn Hndp]. apply Forall_cons in Hvp as [Hvp1 Hvp].
    assert (Hfp : h !! p = None) by (apply Hfresh; left).
    assert (Hro : r <> other).
    { pose proof (is_List_NoDup _ _ _ HLo) as Hndo. revert Hndo. list_simp.
      intros Hndo. nodup_facts Hndo. }
    destruct (is_List_value _ _ _ _ _ _ HLo) as (hd & Hr).
    assert (HLo' : is_List h other ((ns1 ++ [(r, u)]) ++ ns2)) by (by rewrite <- app_assoc).
    destruct (is_List_next _ _ _ _ HLo') as (o & Ho & Hlo & Hnx).
    revert Ho Hnx. list_simp. intros Ho Hnx. rewrite Hr in Ho. injection Ho as <-.
    cbn [header] in Hnx.
    destruct (push_back_spec h this nt u p HLt Hvp1 Hfp) as (h1 & Hrun1 & HLt1 & Hfr1).
    assert (Hpo : p ∉ (this :: nt.*1) ++ other :: (ns1 ++ (r, u) :: ns2).*1).
    { intros Hin. apply elem_of_app in Hin as [Hin|Hin].
      - apply (is_List_live _ _ _ _ HLt) in Hin. rewrite Hfp in Hin. by destruct Hin.
      - apply (is_List_live _ _ _ _ HLo) in Hin. rewrite Hfp in Hin. by destruct Hin. }
    assert (Hsep : forall x, x ∈ other :: (ns1 ++ (r, u) :: ns2).*1 ->
              (x ∉ this :: nt.*1) /\ x <> p).
    { intros x Hx. split.
      - apply NoDup_app in Hnd as (_ & Hsep & _). intros Hx'. by apply (Hsep x).
      - intros ->. apply Hpo, elem_of_app. by right. }
    assert (HLo1 : is_List h1 other ((ns1 ++ [(r, u)]) ++ ns2)).
    { apply (is_List_frame h); [|done]. intros x Hx. rewrite <- app_assoc in Hx.
      destruct (Hsep x Hx). by apply Hfr1. }
    destruct (IH h1 (nt ++ [(p, u)]) (ns1 ++ [(r, u)]) ps HLt1 HLo1)
      as (h' & Hrun' & HLt' & Hfr'); [|done|done| |by injection Hlen|].
    { rewrite <- (app_assoc ns1). cbn [app]. rewrite (fmap_app fst nt).
      by apply (NoDup_snoc_mid (this :: nt.*1)). }
    { intros p' Hp'. rewrite Hfr1; [apply Hfresh; by right| |by intros ->].
      intros Hin. apply (is_List_live _ _ _ _ HLt) in Hin.
      rewrite (Hfresh p') in Hin by (by right). by destruct Hin. }
    exists h'. split; [|split].
    + cbn [fmap list_fmap app copy_loop first_ptr]. unfold end_node.
      rewrite bool_decide_eq_true_2 by done.
      eapply run_bind; [run|]. cbv beta.
      eapply run_bind; [exact Hrun1|]. cbv beta.
      eapply run_bind.
      { unfold iter_incr. eapply (run_get_next _ _ (ListNode _ _)); [|exact I].
        rewrite Hfr1; [exact Hr| |].
        - apply (Hsep r). rewrite fmap_app. right. apply elem_of_app. right. left.
        - apply (Hsep r). rewrite fmap_app. right. apply elem_of_app. right. left. }
      cbv beta. red_hdr. rewrite Hnx. exact Hrun'.
    + revert HLt'. list_simp. done.
    + intros q Hq1 Hq2. apply not_elem_of_cons in Hq2 as [Hq2 Hq3].
      rewrite Hfr'; [by apply Hfr1|..|done].
      revert Hq1. rewrite fmap_app. cbn [fmap list_fmap fst].
      rewrite !not_elem_of_cons, !not_elem_of_app, !not_elem_of_cons.
      intros [? ?]. repeat split; try done. apply not_elem_of_nil.
Qed.

(** When the allocator gives up after [length ps] nodes, the loop leaves
    by the exception with what it has copied so far. *)
Lemma copy_loop_throw h this other nt ns1 ns2 ps rest :
  is_List h this nt -> is_List h other (ns1 ++ ns2) ->
  NoDup ((this :: nt.*1) ++ other :: (ns1 ++ ns2).*1) ->
  NoDup ps -> Forall valid_ptr ps -> (forall p, p ∈ ps -> h !! p = None) ->
  (length ps < length ns2)%nat ->
  exists h',
    copy_loop ((allocated <$> ps) ++ bad_alloc :: rest) this other (first_ptr ns2 other) h
    = Throw h'
    /\ is_List h' this (nt ++ zip ps ns2.*2)
    /\ (forall q, q ∉ this :: nt.*1 -> q ∉ ps -> h' !! q = h !! q).
Proof.
  revert h nt ns1 ps. induction ns2 as [|[r u] ns2 IH];
    intros h nt ns1 ps HLt HLo Hnd Hndp Hvp Hfresh Hlen; [simpl in Hlen; lia|].
  assert (Hro : r <> other).
  { pose proof (is_List_NoDup _ _ _ HLo) as Hndo. revert Hndo. list_simp.
    intros Hndo. nodup_facts Hndo. }
  destruct (is_List_value _ _ _ _ _ _ HLo) as (hd & Hr).
  destruct ps as [|p ps].
  - exists h. split; [|split; [by rewrite app_nil_r|done]].
    cbn [fmap list_fmap app copy_loop first_ptr]. unfold end_node.
    rewrite bool_decide_eq_true_2 by done.
    unfold bind at 1. rewrite (run_deref h r hd u Hr).
    unfold List_push_back, List_end, List_insert, new_ListNode, bind, ret. done.
  - apply NoDup_cons in Hndp as [Hpn Hndp]. apply Forall_cons in Hvp as [Hvp1 Hvp].
    assert (Hfp : h !! p = None) by (apply Hfresh; left).
    assert (HLo' : is_List h other ((ns1 ++ [(r, u)]) ++ ns2)) by (by rewrite <- app_assoc).
    destruct (is_List_next _ _ _ _ HLo') as (o & Ho & Hlo & Hnx).
    revert Ho Hnx. list_simp. intros Ho Hnx. rewrite Hr in Ho. injection Ho as <-.
    cbn [header] in Hnx.
    destruct (push_back_spec h this nt u p HLt Hvp1 Hfp) as (h1 & Hrun1 & HLt1 & Hfr1).
    assert (Hpo : p ∉ (this :: nt.*1) ++ other :: (ns1 ++ (r, u) :: ns2).*1).
    { intros Hin. apply elem_of_app in Hin as [Hin|Hin].
      - apply (is_List_live _ _ _ _ HLt) in Hin. rewrite Hfp in Hin. by destruct Hin.
      - apply (is_List_live _ _ _ _ HLo) in Hin. rewrite Hfp in Hin. by destruct Hin. }
    assert (Hsep : forall x, x ∈ other :: (ns1 ++ (r, u) :: ns2).*1 ->
              (x ∉ this :: nt.*1) /\ x <> p).
    { intros x Hx. split.
      - apply NoDup_app in Hnd as (_ & Hsep & _). intros Hx'. by apply (Hsep x).
      - intros ->. apply Hpo, elem_of_app. by right. }
    assert (HLo1 : is_List h1 other ((ns1 ++ [(r, u)]) ++ ns2)).
    { apply (is_List_frame h); [|done]. intros x Hx. rewrite <- app_assoc in Hx.
      destruct (Hsep x Hx). by apply Hfr1. }
    destruct (IH h1 (nt ++ [(p, u)]) (ns1 ++ [(r, u)]) ps HLt1 HLo1)
      as (h' & Hrun' & HLt' & Hfr'); [|done|done| |simpl in Hlen; lia|].
    { rewrite <- (app_assoc ns1). cbn [app]. rewrite (fmap_app fst nt).
      by apply (NoDup_snoc_mid (this :: nt.*1)). }
    { intros p' Hp'. rewrite Hfr1; [apply Hfresh; by right| |by intros ->].
      intros Hin. apply (is_List_live _ _ _ _ HLt) in Hin.
      rewrite (Hfresh p') in Hin by (by right). by destruct Hin. }
    exists h'. split; [|split].
    + cbn [fmap list_fmap app copy_loop first_ptr]. unfold end_node.
      rewrite bool_decide_eq_true_2 by done.
      eapply run_bind; [run|]. cbv beta.
      eapply run_bind; [exact Hrun1|]. cbv beta.
      eapply run_bind.
      { unfold iter_incr. eapply (run_get_next _ _ (ListNode _ _)); [|exact I].
        rewrite Hfr1; [exact Hr| |].
        - apply (Hsep r). rewrite fmap_app. right. apply elem_of_app. right. left.
        - apply (Hsep r). rewrite fmap_app. right. apply elem_of_app. right. left. }
      cbv beta. red_hdr. rewrite Hnx. exact Hrun'.
    + revert HLt'. list_simp. done.
    + intros q Hq1 Hq2. apply not_elem_of_cons in Hq2 as [Hq2 Hq3].
      rewrite Hfr'; [by apply Hfr1|..|done].
      revert Hq1. rewrite fmap_app. cbn [fmap list_fmap fst].
      rewrite !not_elem_of_cons, !not_elem_of_app, !not_elem_of_cons.
      intros [? ?]. repeat split; try done. apply not_elem_of_nil.
Qed.

Lemma range_loop_spec h this nt vs ps rest :
  is_List h this nt ->
  NoDup ps -> Forall valid_ptr ps -> (forall p, p ∈ ps -> h !! p = None) ->
  length ps = length vs ->
  exists h',
    range_loop ((allocated <$> ps) ++ rest) this vs h = Ok tt h'
    /\ is_List h' this (nt ++ zip ps vs)
    /\ (forall q, q ∉ this :: nt.*1 -> q ∉ ps -> h' !! q = h !! q).
Proof.
  revert h nt ps. induction vs as [|v vs IH]; intros h nt ps HLt Hndp Hvp Hfresh Hlen.
  - destruct ps; [|done]. exists h. split; [done|]. split; [by rewrite app_nil_r|done].
  - destruct ps as [|p ps]; [done|].
    apply NoDup_cons in Hndp as [Hpn Hndp]. apply Forall_cons in Hvp as [Hvp1 Hvp].
    assert (Hfp : h !! p = None) by (apply Hfresh; left).
    destruct (push_back_spec h this nt v p HLt Hvp1 Hfp) as (h1 & Hrun1 & HLt1 & Hfr1).
    destruct (IH h1 (nt ++ [(p, v)]) ps HLt1) as (h' & Hrun' & HLt' & Hfr');
      [done|done| |by injection Hlen|].
    { intros p' Hp'. rewrite Hfr1; [apply Hfresh; by right| |by intros ->].
      intros Hin. apply (is_List_live _ _ _ _ HLt) in Hin.
      rewrite (Hfresh p') in Hin by (by right). by destruct Hin. }
    exists h'. split; [|split].
    + cbn [fmap list_fmap app range_loop].
      eapply run_bind; [exact Hrun1|]. exact Hrun'.
    + revert HLt'. list_simp. done.
    + intros q Hq1 Hq2. apply not_elem_of_cons in Hq2 as [Hq2 Hq3].
      rewrite Hfr'; [by apply Hfr1|..|done].
      revert Hq1. rewrite fmap_app. cbn [fmap list_fmap fst].
      rewrite !not_elem_of_cons, !not_elem_of_app, !not_elem_of_cons.
      intros [? ?]. repeat split; try done. apply not_elem_of_nil.
Qed.

Lemma range_loop_throw h this nt vs ps rest :
  is_List h this nt ->
  NoDup ps -> Forall valid_ptr ps -> (forall p, p ∈ ps -> h !! p = None) ->
  (length ps < length vs)%nat ->
  exists h',
    range_loop ((allocated <$> ps) ++ bad_alloc :: rest) this vs h = Throw h'
    /\ is_List h' this (nt ++ zip ps vs)
    /\ (forall q, q ∉ this :: nt.*1 -> q ∉ ps -> h' !! q = h !! q).
Proof.
  revert h nt ps. induction vs as [|v vs IH]; intros h nt ps HLt Hndp Hvp Hfresh Hlen;
    [simpl in Hlen; lia|].
  destruct ps as [|p ps].
  - exists h. split; [done|]. split; [by rewrite app_nil_r|done].
  - apply NoDup_cons in Hndp as [Hpn Hndp]. apply Forall_cons in Hvp as [Hvp1 Hvp].
    assert (Hfp : h !! p = None) by (apply Hfresh; left).
    destruct (push_back_spec h this nt v p HLt Hvp1 Hfp) as (h1 & Hrun1 & HLt1 & Hfr1).
    destruct (IH h1 (nt ++ [(p, v)]) ps HLt1) as (h' & Hrun' & HLt' & Hfr');
      [done|done| |simpl in Hlen; lia|].
    { intros p' Hp'. rewrite Hfr1; [apply Hfresh; by right| |by intros ->].
      intros Hin. apply (is_List_live _ _ _ _ HLt) in Hin.
      rewrite (Hfresh p') in Hin by (by right). by destruct Hin. }
    exists h'. split; [|split].
    + cbn [fmap list_fmap app range_loop].
      eapply run_bind; [exact Hrun1|]. exact Hrun'.
    + revert HLt'. list_simp. done.
    + intros q Hq1 Hq2. apply not_elem_of_cons in Hq2 as [Hq2 Hq3].
      rewrite Hfr'; [by apply Hfr1|..|done].
      revert Hq1. rewrite fmap_app. cbn [fmap list_fmap fst].
      rewrite !not_elem_of_cons, !not_elem_of_app, !not_elem_of_cons.
      intros [? ?]. repeat split; try done. apply not_elem_of_nil.
Qed.

Lemma unwind_ok {A} (body : M T A) (dtor : M T unit) h a h' :
  body h = Ok a h' -> unwind body dtor h = Ok a h'.
Proof. intros Hb. unfold unwind. by rewrite Hb. Qed.

Lemma unwind_throw {A} (body : M T A) (dtor : M T unit) h h' h'' :
  body h = Throw h' -> dtor h' = Ok tt h'' -> unwind body dtor h = Throw h''.
Proof. intros Hb Hd. unfold unwind. by rewrite Hb, Hd. Qed.

Lemma snd_zip_take {A B} (l : list A) (k : list B) :
  (length l <= length k)%nat -> (zip l k).*2 = take (length l) k.
Proof.
  revert k. induction l as [|x l IH]; intros [|y k] Hlen; simpl in *; try done; try lia.
  f_equal. apply IH. lia.
Qed.

(** The store before an object was constructed in fresh storage and its
    nodes allocated, from the store after they are all gone. *)
Lemma released_eq h h0 h1 h2 this (ps : list Z) :
  h !! this = None -> (forall p, p ∈ ps -> h !! p = None) ->
  (forall q, q <> this -> h0 !! q = h !! q) ->
  (forall q, q <> this -> q ∉ ps -> h1 !! q = h0 !! q) ->
  (forall x, x ∈ this :: ps -> h2 !! x = None) ->
  (forall x, x ∉ this :: ps -> h2 !! x = h1 !! x) ->
  h2 = h.
Proof.
  intros Hthis Hps H0 H1 Hdead H2. apply map_eq. intros x.
  destruct (decide (x ∈ this :: ps)) as [Hin|Hout].
  - rewrite Hdead by done. apply elem_of_cons in Hin as [->|Hin]; [done|].
    by rewrite Hps.
  - rewrite H2 by done. apply not_elem_of_cons in Hout as [? ?].
    rewrite H1, H0; done.
Qed.

(** ** Statements *)

Lemma is_List_size h this ns :
  is_List h this ns -> List_size this h = Ok (Z.of_nat (length ns)) h.
Proof. intros (Hthis & _). unfold List_size. run_eq. Qed.

Lemma is_List_back h this ns q w :
  is_List h this (ns ++ [(q, w)]) ->
  (do e <- List_end this; do it <- iter_decr e; deref it) h = Ok w h.
Proof.
  intros HL. pose proof HL as (Hthis & _).
  destruct (is_List_value _ _ _ _ _ _ HL) as (hd & Hq).
  revert Hthis. list_simp. intros Hthis. run_eq.
Qed.

(** X1.  [push_back(v)] on a valid list puts one new node after the last
    element: the list is valid, the traversal is the old one followed by
    [v], [--end()] holds [v], the size is one more and the rest of the
    store is as it was. *)
Theorem List_push_back_appends h this ns v p fuel :
  is_List h this ns -> valid_ptr p -> h !! p = None -> (length ns < fuel)%nat ->
  exists h',
    List_push_back this v (allocated p) h = Ok tt h'
    /\ is_List h' this (ns ++ [(p, v)])
    /\ forward_values fuel this h' = Ok (ns.*2 ++ [v]) h'
    /\ (do e <- List_end this; do it <- iter_decr e; deref it) h' = Ok v h'
    /\ List_size this h' = Ok (Z.of_nat (length ns) + 1) h'
    /\ (forall q, q ∉ this :: ns.*1 -> q <> p -> h' !! q = h !! q).
Proof.
  intros HL Hv Hfresh Hfuel.
  destruct (push_back_spec h this ns v p HL Hv Hfresh) as (h' & Hrun & HL' & Hfr).
  exists h'. split; [done|]. split; [done|]. split; [|split; [|split; [|done]]].
  - replace (ns.*2 ++ [v]) with ((ns ++ [(p, v)]).*2) by (by rewrite fmap_app).
    apply forward_values_spec; [done|]. rewrite length_app. simpl. lia.
  - by apply (is_List_back h' this ns p v).
  - rewrite (is_List_size _ _ _ HL'). f_equal. rewrite length_app. simpl. lia.
Qed.

(** X2.  [push_front(v)] on a valid list puts one new node before the
    first element: [begin()] is the new node, the traversal is [v]
    followed by the old one, and the size is one more. *)
Theorem List_push_front_prepends h this ns v p fuel :
  is_List h this ns -> valid_ptr p -> h !! p = None -> (length ns < fuel)%nat ->
  exists h',
    List_push_front this v (allocated p) h = Ok tt h'
    /\ is_List h' this ((p, v) :: ns)
    /\ List_begin this h' = Ok p h'
    /\ deref p h' = Ok v h'
    /\ forward_values fuel this h' = Ok (v :: ns.*2) h'
    /\ List_size this h' = Ok (Z.of_nat (length ns) + 1) h'
    /\ (forall q, q ∉ this :: ns.*1 -> q <> p -> h' !! q = h !! q).
Proof.
  intros HL Hv Hfresh Hfuel.
  destruct (push_front_spec h this ns v p HL Hv Hfresh) as (h' & Hrun & HL' & Hfr).
  pose proof HL' as (Hthis' & (Hp & _) & _).
  exists h'. split; [done|]. split; [done|].
  split; [run_eq|]. split; [run_eq|]. split; [|split; [|done]].
  - apply (forward_values_spec h' this ((p, v) :: ns)); [done|]. simpl. lia.
  - rewrite (is_List_size _ _ _ HL'). f_equal. simpl. lia.
Qed.

(** X3.  [pop_front()] on a valid list with a first element [r] takes
    that node out of the list and changes nothing else: the rest stays
    linked in order.  The node goes through the [delete] of [erase]: its
    storage is released with the value undestroyed. *)
Theorem List_pop_front_removes_first h this r u ns fuel :
  is_List h this ((r, u) :: ns) -> (length ns <= fuel)%nat ->
  exists h',
    List_pop_front this h = Ok tt h'
    /\ is_List h' this ns
    /\ h' !! r = Some (Undestroyed u)
    /\ forward_values fuel this h' = Ok ns.*2 h'
    /\ List_size this h' = Ok (Z.of_nat (length ns)) h'
    /\ (forall q, q ∉ this :: ns.*1 -> q <> r -> h' !! q = h !! q).
Proof.
  intros HL Hfuel.
  destruct (pop_front_spec h this r u ns HL) as (h' & Hrun & HL' & Hfr & Hdead).
  exists h'. split; [done|]. split; [done|]. split; [done|].
  split; [by apply forward_values_spec|]. split; [by apply is_List_size|done].
Qed.

(** X4.  [pop_back()] on a valid list with a last element [q] takes that
    node out of the list and changes nothing else: the rest stays linked
    in order.  The node goes through the [delete] of [erase]: its storage
    is released with the value undestroyed. *)
Theorem List_pop_back_removes_last h this ns q w fuel :
  is_List h this (ns ++ [(q, w)]) -> (length ns <= fuel)%nat ->
  exists h',
    List_pop_back this h = Ok tt h'
    /\ is_List h' this ns
    /\ h' !! q = Some (Undestroyed w)
    /\ forward_values fuel this h' = Ok ns.*2 h'
    /\ List_size this h' = Ok (Z.of_nat (length ns)) h'
    /\ (forall x, x ∉ this :: ns.*1 -> x <> q -> h' !! x = h !! x).
Proof.
  intros HL Hfuel.
  destruct (pop_back_spec h this ns q w HL) as (h' & Hrun & HL' & Hfr & Hdead).
  exists h'. split; [done|]. split; [done|]. split; [done|].
  split; [by apply forward_values_spec|]. split; [by apply is_List_size|done].
Qed.

(** X5.  On a list object whose [m_size] is zero, [pop_front()] and
    [pop_back()] stop at a failed assertion whatever the links of the
    object are.  It is their own [assert(!empty())] that fails: when the
    links lead to one live node that is linked to the list object as its
    only element, the calls [erase(begin())] and [erase(--end())] that
    follow the assertion would return.  [erase(end())] stops at its
    assertion in every store. *)
Theorem List_pop_empty_asserts h this hd :
  h !! this = Some (List hd 0) ->
  List_pop_front this h = Fault AssertFailed
  /\ List_pop_back this h = Fault AssertFailed
  /\ (forall h0 : heap T, List_erase this (end_node this) h0 = Fault AssertFailed)
  /\ (forall b v,
        b <> this -> hd = {| prev := b; next := b |} ->
        h !! b = Some (ListNode {| prev := this; next := this |} v) ->
        exists h',
          (do x <- List_begin this; List_erase this x) h = Ok (end_node this) h'
          /\ (do e <- List_end this; do x <- iter_decr e; List_erase this x) h
             = Ok (end_node this) h').
Proof.
  intros Hthis.
  split; [|split; [|split]].
  - unfold List_pop_front, List_empty, bind, get_size, ret. by rewrite Hthis.
  - unfold List_pop_back, List_empty, bind, get_size, ret. by rewrite Hthis.
  - intros h0. unfold List_erase, bind, assert.
    by rewrite bool_decide_eq_false_2 by (intros Hn; by apply Hn).
  - intros b v Hb -> Hnode. eexists. split.
    + unfold List_erase. run.
    + unfold List_erase. run_eq.
Qed.

(** X6.  [clear()] on a valid list destroys every node and leaves the
    list object as default construction makes it, with the rest of the
    store untouched; a second [clear()] changes nothing. *)
Theorem List_clear_empties h this ns fuel :
  is_List h this ns -> (length ns <= fuel)%nat ->
  exists h',
    List_clear fuel this h = Ok tt h'
    /\ h' !! this = Some (default_List this)
    /\ is_List h' this []
    /\ (forall x, x ∈ ns.*1 -> h' !! x = None)
    /\ (forall x, x ∉ this :: ns.*1 -> h' !! x = h !! x)
    /\ List_clear fuel this h' = Ok tt h'.
Proof.
  intros HL Hfuel.
  destruct (List_clear_spec h this ns fuel HL Hfuel) as (h' & Hrun & Hthis' & Hdead & Hfr).
  assert (Hv : valid_ptr this).
  { destruct HL as (_ & _ & _ & Hv). by apply Forall_cons in Hv as [? _]. }
  assert (HL' : is_List h' this []) by (by apply is_List_default).
  exists h'. split; [done|]. split; [done|]. split; [done|]. split; [done|].
  split; [done|].
  destruct (List_clear_spec h' this [] fuel HL') as (h3 & Hrun3 & Hthis3 & _ & Hfr3);
    [simpl; lia|].
  rewrite Hrun3. f_equal. apply map_eq. intros x.
  destruct (decide (x = this)) as [->|Hx]; [by rewrite Hthis3|].
  apply Hfr3. rewrite not_elem_of_cons. split; [done|apply not_elem_of_nil].
Qed.

(** X7.  [erase(first, last)] on a valid list, for a range of elements
    [ns2] that starts at [first] and ends just before [last], takes
    exactly those nodes out of the list, returns [last], and leaves the
    elements before and after linked in order.  Each node of the range
    goes through the [delete] of [erase]: its storage is released with
    the value undestroyed. *)
Theorem List_erase_range_removes h this ns1 ns2 ns3 fuel :
  is_List h this (ns1 ++ ns2 ++ ns3) -> (length ns2 <= fuel)%nat ->
  exists h',
    List_erase_range fuel this (first_ptr (ns2 ++ ns3) this) (first_ptr ns3 this) h
    = Ok (first_ptr ns3 this) h'
    /\ is_List h' this (ns1 ++ ns3)
    /\ (forall q v, (q, v) ∈ ns2 -> h' !! q = Some (Undestroyed v))
    /\ (forall q, q ∉ this :: (ns1 ++ ns3).*1 -> q ∉ ns2.*1 -> h' !! q = h !! q)
    /\ List_size this h' = Ok (Z.of_nat (length ns1 + length ns3)) h'.
Proof.
  intros HL Hfuel.
  destruct (erase_loop_spec h this ns1 ns2 ns3 fuel HL Hfuel) as (h' & Hrun & HL' & Hdead & Hfr).
  exists h'. split; [|split; [done|split; [done|split; [done|]]]].
  - unfold List_erase_range. eapply run_bind; [exact Hrun|]. done.
  - rewrite (is_List_size _ _ _ HL'). by rewrite length_app.
Qed.

(** X8.  [erase(first, last)] with [last] at an element before [first]
    does not wrap around the ring and does not return.  The loop takes
    one round per element from [first] to the end of the list, the rounds
    of [erase(first, end())], which take exactly those nodes out of the
    list; the round after them is [erase(end())], which stops at its
    assertion.  So with a bound of at most that many rounds the loop of
    the model is out of fuel, and with any larger bound it stops at the
    assertion. *)
Theorem List_erase_range_overrun h this ns1 ns2 last :
  is_List h this (ns1 ++ ns2) -> last ∈ ns1.*1 ->
  (forall fuel, (length ns2 < fuel)%nat ->
     List_erase_range fuel this (first_ptr ns2 this) last h = Fault AssertFailed)
  /\ (forall fuel, (fuel <= length ns2)%nat ->
        List_erase_range fuel this (first_ptr ns2 this) last h = Fault NoFuel)
  /\ exists h1,
       List_erase_range (length ns2) this (first_ptr ns2 this) (end_node this) h
       = Ok (end_node this) h1
       /\ is_List h1 this ns1
       /\ (forall q v, (q, v) ∈ ns2 -> h1 !! q = Some (Undestroyed v))
       /\ (forall fuel, List_erase_range (S fuel) this (end_node this) last h1
                        = Fault AssertFailed).
Proof.
  intros HL Hlast.
  assert (Hout : last ∉ this :: ns2.*1).
  { pose proof (is_List_NoDup _ _ _ HL) as Hnd. revert Hnd.
    rewrite fmap_app, NoDup_cons, NoDup_app, not_elem_of_app, not_elem_of_cons.
    intros ((Hn1 & Hn2) & _ & Hsep & _). split; [by intros ->|by apply Hsep]. }
  split; [|split].
  - intros fuel Hfuel. unfold List_erase_range, bind.
    by rewrite (erase_loop_overrun h this ns1 ns2 last fuel HL Hout Hfuel).
  - intros fuel Hfuel. unfold List_erase_range, bind.
    by rewrite (erase_loop_short h this ns1 ns2 last fuel HL Hout Hfuel).
  - assert (HL3 : is_List h this (ns1 ++ ns2 ++ [])) by (by rewrite app_nil_r).
    destruct (erase_loop_spec h this ns1 ns2 [] (length ns2) HL3 (le_n _))
      as (h1 & Hrun & HL1 & Hleft & _).
    rewrite !app_nil_r in *. cbn [first_ptr] in Hrun.
    exists h1. split; [|split; [done|split; [done|]]].
    + unfold List_erase_range. eapply run_bind; [exact Hrun|]. done.
    + intros fuel.
      assert (Hov : erase_loop (S fuel) this this last h1 = Fault AssertFailed).
      { apply (erase_loop_overrun h1 this ns1 [] last (S fuel)); [| |simpl; lia].
        - by rewrite app_nil_r.
        - apply not_elem_of_cons in Hout as [? _].
          rewrite not_elem_of_cons. split; [done|apply not_elem_of_nil]. }
      unfold List_erase_range, bind, end_node. by rewrite Hov.
Qed.

(** X9.  The destructor of a valid list releases every node and the
    list object, and nothing else. *)
Theorem List_dtor_releases h this ns fuel :
  is_List h this ns -> (length ns <= fuel)%nat ->
  exists h',
    List_dtor fuel this h = Ok tt h'
    /\ (forall x, x ∈ this :: ns.*1 -> h' !! x = None)
    /\ (forall x, x ∉ this :: ns.*1 -> h' !! x = h !! x).
Proof. apply List_dtor_spec. Qed.

Lemma run_List_begin h this o :
  h !! this = Some o -> live o -> List_begin this h = Ok (next (header o)) h.
Proof. apply run_get_next. Qed.

Lemma fresh_not_live h this ns (p : Z) :
  is_List h this ns -> h !! p = None -> p ∉ this :: ns.*1.
Proof.
  intros HL Hp Hin. apply (is_List_live _ _ _ _ HL) in Hin. rewrite Hp in Hin.
  by destruct Hin.
Qed.

(** The state just after [List()] has run in fresh storage, next to a
    valid list. *)
Lemma ctor_beside h this other ns :
  is_List h other ns -> h !! this = None -> valid_ptr this ->
  is_List (<[this := default_List this]> h) this []
  /\ is_List (<[this := default_List this]> h) other ns
  /\ NoDup ((this :: []) ++ other :: ns.*1).
Proof.
  intros HL Hfresh Hv. pose proof (fresh_not_live _ _ _ _ HL Hfresh) as Hnin.
  split; [|split].
  - apply is_List_default; [apply lookup_insert_eq|done].
  - apply (is_List_frame h); [|done]. intros x Hx.
    apply lookup_insert_ne. by intros ->.
  - cbn [app fmap list_fmap]. apply NoDup_cons. split; [done|].
    by apply (is_List_NoDup h).
Qed.

(** X10.  Copy construction from a valid list, in fresh storage and with
    one fresh node from the allocator per element, builds a valid list of
    its own nodes with the same values in order; it compares equal to the
    source, and the source and the rest of the store are untouched. *)
Theorem List_copy_ctor_copies h this other ns ps rest fuel fuel' :
  is_List h other ns -> h !! this = None -> valid_ptr this ->
  NoDup (this :: ps) -> Forall valid_ptr ps -> (forall p, p ∈ ps -> h !! p = None) ->
  length ps = length ns -> (length ns <= fuel')%nat ->
  exists h',
    List_copy_ctor fuel ((allocated <$> ps) ++ rest) this other h = Ok tt h'
    /\ is_List h' this (zip ps ns.*2)
    /\ is_List h' other ns
    /\ forward_values fuel' this h' = Ok ns.*2 h'
    /\ List_eq fuel' this other h' = Ok true h'
    /\ (forall q, q <> this -> q ∉ ps -> h' !! q = h !! q).
Proof.
  intros HL Hfresh Hv Hndp Hvp Hfp Hlen Hfuel.
  apply NoDup_cons in Hndp as [Hthisp Hndp].
  destruct (ctor_beside h this other ns HL Hfresh Hv) as (HLt0 & HLo0 & Hnd0).
  set (h0 := <[this := default_List this]> h) in *.
  destruct (copy_loop_spec h0 this other [] [] ns ps rest HLt0 HLo0 Hnd0 Hndp Hvp)
    as (h' & Hrun & HLt & Hfr); [|done|].
  { intros p Hp. unfold h0. rewrite lookup_insert_ne by (by intros ->). by apply Hfp. }
  cbn [app] in HLt.
  assert (Hfr' : forall q, q <> this -> q ∉ ps -> h' !! q = h !! q).
  { intros q Hq1 Hq2. rewrite Hfr; [by apply lookup_insert_ne| |done].
    rewrite not_elem_of_cons. split; [done|apply not_elem_of_nil]. }
  assert (HLo : is_List h' other ns).
  { apply (is_List_frame h); [|done]. intros x Hx. apply Hfr'.
    - intros ->. by apply (fresh_not_live _ _ _ _ HL Hfresh).
    - intros Hin. by apply (fresh_not_live _ _ _ _ HL (Hfp x Hin)). }
  assert (Hvals : (zip ps ns.*2).*2 = ns.*2).
  { apply snd_zip. rewrite length_fmap. lia. }
  assert (Hlenz : length (zip ps ns.*2) = length ns).
  { rewrite <- (length_fmap snd (zip ps ns.*2)), Hvals. apply length_fmap. }
  exists h'. split; [|split; [done|split; [done|split; [|split; [|done]]]]].
  - unfold List_copy_ctor. eapply run_bind; [apply run_construct|]. cbv beta.
    apply unwind_ok. pose proof HLo0 as (Hother0 & _).
    eapply run_bind; [apply (run_List_begin _ _ _ Hother0 I)|]. exact Hrun.
  - rewrite <- Hvals. apply forward_values_spec; [done|lia].
  - unfold List_eq. rewrite (List_eq_with_spec T_ne h' this other (zip ps ns.*2) ns fuel');
      [|apply T_ne_spec|done|done|lia].
    by rewrite Hvals, bool_decide_eq_true_2.
Qed.

(** X11.  When the allocator gives up during copy construction, the
    destructor of the half-built list runs: the nodes allocated so far
    and the list object are released, and the exception leaves with the
    store exactly as it was before the constructor. *)
Theorem List_copy_ctor_unwinds h this other ns ps rest fuel :
  is_List h other ns -> h !! this = None -> valid_ptr this ->
  NoDup (this :: ps) -> Forall valid_ptr ps -> (forall p, p ∈ ps -> h !! p = None) ->
  (length ps < length ns)%nat -> (length ps <= fuel)%nat ->
  List_copy_ctor fuel ((allocated <$> ps) ++ bad_alloc :: rest) this other h = Throw h.
Proof.
  intros HL Hfresh Hv Hndp Hvp Hfp Hlen Hfuel.
  apply NoDup_cons in Hndp as [Hthisp Hndp].
  destruct (ctor_beside h this other ns HL Hfresh Hv) as (HLt0 & HLo0 & Hnd0).
  set (h0 := <[this := default_List this]> h) in *.
  destruct (copy_loop_throw h0 this other [] [] ns ps rest HLt0 HLo0 Hnd0 Hndp Hvp)
    as (h1 & Hrun & HLt & Hfr); [|done|].
  { intros p Hp. unfold h0. rewrite lookup_insert_ne by (by intros ->). by apply Hfp. }
  cbn [app] in HLt.
  assert (Hps : (zip ps ns.*2).*1 = ps).
  { apply fst_zip. rewrite length_fmap. lia. }
  destruct (List_dtor_spec h1 this (zip ps ns.*2) fuel HLt) as (h2 & Hrun2 & Hdead & Hfr2).
  { rewrite <- (length_fmap fst (zip ps ns.*2)), Hps. done. }
  rewrite Hps in Hdead, Hfr2.
  unfold List_copy_ctor. eapply run_bind; [apply run_construct|]. cbv beta.
  pose proof HLo0 as (Hother0 & _).
  rewrite (unwind_throw _ _ h0 h1 h2); [| |exact Hrun2].
  - f_equal. apply (released_eq h h0 h1 h2 this ps); try done.
    + intros q Hq. by apply lookup_insert_ne.
    + intros q Hq1 Hq2. apply Hfr; [|done].
      rewrite not_elem_of_cons. split; [done|apply not_elem_of_nil].
  - unfold bind at 1. rewrite (run_List_begin h0 other _ Hother0 I). exact Hrun.
Qed.

(** X12.  Copy assignment between two valid lists without common nodes
    destroys the old elements of the target and gives it nodes of its own
    with the values of the source in order; the allocator may hand back
    the storage of the destroyed nodes.  The source is untouched. *)
Theorem List_copy_assign_copies h this other nt ns ps rest fuel fuel' :
  is_List h this nt -> is_List h other ns ->
  NoDup ((this :: nt.*1) ++ other :: ns.*1) ->
  NoDup ps -> Forall valid_ptr ps ->
  (forall p, p ∈ ps -> p ∈ nt.*1 \/ h !! p = None) ->
  length ps = length ns -> (length nt <= fuel)%nat -> (length ns <= fuel')%nat ->
  exists h',
    List_copy_assign fuel ((allocated <$> ps) ++ rest) this other h = Ok tt h'
    /\ is_List h' this (zip ps ns.*2)
    /\ is_List h' other ns
    /\ forward_values fuel' this h' = Ok ns.*2 h'
    /\ List_eq fuel' this other h' = Ok true h'
    /\ (forall q, q ∈ nt.*1 -> q ∉ ps -> h' !! q = None)
    /\ (forall q, q ∉ this :: nt.*1 -> q ∉ ps -> h' !! q = h !! q).
Proof.
  intros HLt HLo Hnd Hndp Hvp Hfp Hlen Hfuel Hfuel'.
  destruct (List_clear_spec h this nt fuel HLt Hfuel) as (h1 & Hrun1 & Hthis1 & Hdead1 & Hfr1).
  assert (Hv : valid_ptr this).
  { destruct HLt as (_ & _ & _ & Hv). by apply Forall_cons in Hv as [? _]. }
  assert (HLt1 : is_List h1 this []) by (by apply is_List_default).
  assert (Hsep : forall x, x ∈ other :: ns.*1 -> x ∉ this :: nt.*1).
  { apply NoDup_app in Hnd as (_ & Hsep & _). intros x Hx Hx'. by apply (Hsep x). }
  assert (HLo1 : is_List h1 other ns).
  { apply (is_List_frame h); [|done]. intros x Hx. by apply Hfr1, Hsep. }
  assert (Hthisp : this ∉ ps).
  { intros Hin. destruct (Hfp this Hin) as [Hin'|Hnone].
    - apply (is_List_NoDup _ _ _) in HLt. by apply NoDup_cons in HLt as [? _].
    - destruct HLt as (Hthis & _). congruence. }
  assert (Hfp1 : forall p, p ∈ ps -> h1 !! p = None).
  { intros p Hp. destruct (Hfp p Hp) as [Hin|Hnone]; [by apply Hdead1|].
    rewrite Hfr1; [done|]. by apply (fresh_not_live h this nt). }
  assert (Hnd1 : NoDup ((this :: []) ++ other :: ns.*1)).
  { cbn [app fmap list_fmap]. apply NoDup_cons. split.
    - intros Hin. apply (Hsep this Hin). left.
    - by apply (is_List_NoDup h). }
  destruct (copy_loop_spec h1 this other [] [] ns ps rest HLt1 HLo1 Hnd1 Hndp Hvp Hfp1 Hlen)
    as (h' & Hrun & HLt' & Hfr).
  cbn [app] in HLt'.
  assert (Hfr' : forall q, q <> this -> q ∉ ps -> h' !! q = h1 !! q).
  { intros q Hq1 Hq2. apply Hfr; [|done].
    rewrite not_elem_of_cons. split; [done|apply not_elem_of_nil]. }
  assert (Hps : forall x, x ∈ other :: ns.*1 -> x ∉ ps).
  { intros x Hx Hin. apply (is_List_live _ _ _ _ HLo1) in Hx.
    rewrite (Hfp1 x Hin) in Hx. by destruct Hx. }
  assert (HLo' : is_List h' other ns).
  { apply (is_List_frame h1); [|done]. intros x Hx. apply Hfr'; [|by apply Hps].
    intros ->. apply (Hsep this Hx). left. }
  assert (Hvals : (zip ps ns.*2).*2 = ns.*2).
  { apply snd_zip. rewrite length_fmap. lia. }
  assert (Hlenz : length (zip ps ns.*2) = length ns).
  { rewrite <- (length_fmap snd (zip ps ns.*2)), Hvals. apply length_fmap. }
  exists h'. split; [|split; [done|split; [done|split; [|split; [|split]]]]].
  - unfold List_copy_assign. eapply run_bind; [exact Hrun1|]. cbv beta.
    pose proof HLo1 as (Hother1 & _).
    eapply run_bind; [apply (run_List_begin _ _ _ Hother1 I)|]. exact Hrun.
  - rewrite <- Hvals. apply forward_values_spec; [done|lia].
  - unfold List_eq. rewrite (List_eq_with_spec T_ne h' this other (zip ps ns.*2) ns fuel');
      [|apply T_ne_spec|done|done|lia].
    by rewrite Hvals, bool_decide_eq_true_2.
  - intros q Hq1 Hq2. rewrite Hfr'; [by apply Hdead1| |done].
    intros ->. apply (is_List_NoDup _ _ _) in HLt. by apply NoDup_cons in HLt as [? _].
  - intros q Hq1 Hq2. apply not_elem_of_cons in Hq1 as [Hq1 Hq3].
    rewrite Hfr' by done. apply Hfr1. by apply not_elem_of_cons.
Qed.

(** X13.  When the allocator gives up during copy assignment, the
    exception leaves the target valid but changed: its old elements are
    gone and it holds copies of the first elements of the source, as many
    as nodes were allocated. *)
Theorem List_copy_assign_throws_partial h this other nt ns ps rest fuel fuel' :
  is_List h this nt -> is_List h other ns ->
  NoDup ((this :: nt.*1) ++ other :: ns.*1) ->
  NoDup ps -> Forall valid_ptr ps ->
  (forall p, p ∈ ps -> p ∈ nt.*1 \/ h !! p = None) ->
  (length ps < length ns)%nat -> (length nt <= fuel)%nat -> (length ps <= fuel')%nat ->
  exists h',
    List_copy_assign fuel ((allocated <$> ps) ++ bad_alloc :: rest) this other h = Throw h'
    /\ is_List h' this (zip ps ns.*2)
    /\ is_List h' other ns
    /\ forward_values fuel' this h' = Ok (take (length ps) ns.*2) h'
    /\ (forall q, q ∈ nt.*1 -> q ∉ ps -> h' !! q = None).
Proof.
  intros HLt HLo Hnd Hndp Hvp Hfp Hlen Hfuel Hfuel'.
  destruct (List_clear_spec h this nt fuel HLt Hfuel) as (h1 & Hrun1 & Hthis1 & Hdead1 & Hfr1).
  assert (Hv : valid_ptr this).
  { destruct HLt as (_ & _ & _ & Hv). by apply Forall_cons in Hv as [? _]. }
  assert (HLt1 : is_List h1 this []) by (by apply is_List_default).
  assert (Hsep : forall x, x ∈ other :: ns.*1 -> x ∉ this :: nt.*1).
  { apply NoDup_app in Hnd as (_ & Hsep & _). intros x Hx Hx'. by apply (Hsep x). }
  assert (HLo1 : is_List h1 other ns).
  { apply (is_List_frame h); [|done]. intros x Hx. by apply Hfr1, Hsep. }
  assert (Hfp1 : forall p, p ∈ ps -> h1 !! p = None).
  { intros p Hp. destruct (Hfp p Hp) as [Hin|Hnone]; [by apply Hdead1|].
    rewrite Hfr1; [done|]. by apply (fresh_not_live h this nt). }
  assert (Hnd1 : NoDup ((this :: []) ++ other :: ns.*1)).
  { cbn [app fmap list_fmap]. apply NoDup_cons. split.
    - intros Hin. apply (Hsep this Hin). left.
    - by apply (is_List_NoDup h). }
  destruct (copy_loop_throw h1 this other [] [] ns ps rest HLt1 HLo1 Hnd1 Hndp Hvp Hfp1 Hlen)
    as (h' & Hrun & HLt' & Hfr).
  cbn [app] in HLt'.
  assert (Hfr' : forall q, q <> this -> q ∉ ps -> h' !! q = h1 !! q).
  { intros q Hq1 Hq2. apply Hfr; [|done].
    rewrite not_elem_of_cons. split; [done|apply not_elem_of_nil]. }
  assert (Hps : forall x, x ∈ other :: ns.*1 -> x ∉ ps).
  { intros x Hx Hin. apply (is_List_live _ _ _ _ HLo1) in Hx.
    rewrite (Hfp1 x Hin) in Hx. by destruct Hx. }
  assert (HLo' : is_List h' other ns).
  { apply (is_List_frame h1); [|done]. intros x Hx. apply Hfr'; [|by apply Hps].
    intros ->. apply (Hsep this Hx). left. }
  assert (Hvals : (zip ps ns.*2).*2 = take (length ps) ns.*2).
  { apply snd_zip_take. rewrite length_fmap. lia. }
  assert (Hlenz : length (zip ps ns.*2) = length ps).
  { rewrite <- (length_fmap fst (zip ps ns.*2)), fst_zip; [done|].
    rewrite length_fmap. lia. }
  exists h'. split; [|split; [done|split; [done|split]]].
  - unfold List_copy_assign. eapply run_bind; [exact Hrun1|]. cbv beta.
    pose proof HLo1 as (Hother1 & _).
    unfold bind at 1. rewrite (run_List_begin h1 other _ Hother1 I). exact Hrun.
  - rewrite <- Hvals. apply forward_values_spec; [done|lia].
  - intros q Hq1 Hq2. rewrite Hfr'; [by apply Hdead1| |done].
    intros ->. apply (is_List_NoDup _ _ _) in HLt. by apply NoDup_cons in HLt as [? _].
Qed.

(** X14.  Range construction in fresh storage, with one fresh node from
    the allocator per value read, builds a valid list of those values in
    order; destroying it again gives back the store as it was. *)
Theorem List_range_ctor_builds h this vs ps rest fuel :
  h !! this = None -> valid_ptr this ->
  NoDup (this :: ps) -> Forall valid_ptr ps -> (forall p, p ∈ ps -> h !! p = None) ->
  length ps = length vs -> (length vs <= fuel)%nat ->
  exists h',
    List_range_ctor fuel ((allocated <$> ps) ++ rest) this vs h = Ok tt h'
    /\ is_List h' this (zip ps vs)
    /\ forward_values fuel this h' = Ok vs h'
    /\ List_size this h' = Ok (Z.of_nat (length vs)) h'
    /\ (forall q, q <> this -> q ∉ ps -> h' !! q = h !! q)
    /\ List_dtor fuel this h' = Ok tt h.
Proof.
  intros Hfresh Hv Hndp Hvp Hfp Hlen Hfuel.
  apply NoDup_cons in Hndp as [Hthisp Hndp].
  set (h0 := <[this := default_List this]> h).
  assert (HLt0 : is_List h0 this []).
  { apply is_List_default; [apply lookup_insert_eq|done]. }
  destruct (range_loop_spec h0 this [] vs ps rest HLt0 Hndp Hvp) as (h' & Hrun & HLt & Hfr);
    [|done|].
  { intros p Hp. unfold h0. rewrite lookup_insert_ne by (by intros ->). by apply Hfp. }
  cbn [app] in HLt.
  assert (Hfr0 : forall q, q <> this -> q ∉ ps -> h' !! q = h0 !! q).
  { intros q Hq1 Hq2. apply Hfr; [|done].
    rewrite not_elem_of_cons. split; [done|apply not_elem_of_nil]. }
  assert (Hvals : (zip ps vs).*2 = vs) by (apply snd_zip; lia).
  assert (Hps : (zip ps vs).*1 = ps) by (apply fst_zip; lia).
  assert (Hlenz : length (zip ps vs) = length vs).
  { by rewrite <- (length_fmap snd (zip ps vs)), Hvals. }
  exists h'. split; [|split; [done|split; [|split; [|split]]]].
  - unfold List_range_ctor. eapply run_bind; [apply run_construct|]. cbv beta.
    by apply unwind_ok.
  - pose proof (forward_values_spec h' this (zip ps vs) fuel HLt) as Hf.
    rewrite Hvals in Hf. apply Hf. lia.
  - rewrite (is_List_size _ _ _ HLt). by rewrite Hlenz.
  - intros q Hq1 Hq2. rewrite Hfr0 by done. by apply lookup_insert_ne.
  - destruct (List_dtor_spec h' this (zip ps vs) fuel HLt) as (h2 & Hrun2 & Hdead & Hfr2);
      [lia|].
    rewrite Hps in Hdead, Hfr2. rewrite Hrun2. f_equal.
    apply (released_eq h h0 h' h2 this ps); try done.
    intros q Hq. by apply lookup_insert_ne.
Qed.

(** X15.  When the allocator gives up during range construction, the
    destructor of the half-built list runs and the exception leaves with
    the store exactly as it was before the constructor. *)
Theorem List_range_ctor_unwinds h this vs ps rest fuel :
  h !! this = None -> valid_ptr this ->
  NoDup (this :: ps) -> Forall valid_ptr ps -> (forall p, p ∈ ps -> h !! p = None) ->
  (length ps < length vs)%nat -> (length ps <= fuel)%nat ->
  List_range_ctor fuel ((allocated <$> ps) ++ bad_alloc :: rest) this vs h = Throw h.
Proof.
  intros Hfresh Hv Hndp Hvp Hfp Hlen Hfuel.
  apply NoDup_cons in Hndp as [Hthisp Hndp].
  set (h0 := <[this := default_List this]> h).
  assert (HLt0 : is_List h0 this []).
  { apply is_List_default; [apply lookup_insert_eq|done]. }
  destruct (range_loop_throw h0 this [] vs ps rest HLt0 Hndp Hvp) as (h1 & Hrun & HLt & Hfr);
    [|done|].
  { intros p Hp. unfold h0. rewrite lookup_insert_ne by (by intros ->). by apply Hfp. }
  cbn [app] in HLt.
  assert (Hps : (zip ps vs).*1 = ps) by (apply fst_zip; lia).
  destruct (List_dtor_spec h1 this (zip ps vs) fuel HLt) as (h2 & Hrun2 & Hdead & Hfr2).
  { rewrite <- (length_fmap fst (zip ps vs)), Hps. done. }
  rewrite Hps in Hdead, Hfr2.
  unfold List_range_ctor. eapply run_bind; [apply run_construct|]. cbv beta.
  etrans; [exact (unwind_throw _ _ h0 h1 h2 Hrun Hrun2)|]. f_equal.
  apply (released_eq h h0 h1 h2 this ps); try done.
  - intros q Hq. by apply lookup_insert_ne.
  - intros q Hq1 Hq2. apply Hfr; [|done].
    rewrite not_elem_of_cons. split; [done|apply not_elem_of_nil].
Qed.

Lemma chain_value h b ns a p v :
  chain h b ns a -> (p, v) ∈ ns -> deref p h = Ok v h.
Proof.
  revert b. induction ns as [|[r u] ns IH]; intros b Hch Hin; [by apply elem_of_nil in Hin|].
  destruct Hch as (Hr & Hch). apply elem_of_cons in Hin as [[= -> ->]|Hin].
  - by eapply run_deref.
  - by apply (IH r).
Qed.

Lemma is_List_from_size h this before ns :
  is_List_from h this before ns -> List_size this h = Ok (Z.of_nat (length ns)) h.
Proof. intros (Hthis & _). unfold List_size. run_eq. Qed.

(** X16.  Move assignment between two valid lists without common nodes
    destroys the old elements of the target and hands it the nodes of the
    source as they are: same addresses, same values, same order.  The
    source is left valid and empty. *)
Theorem List_move_assign_transfers h this other nt ns fuel fuel' :
  is_List h this nt -> is_List h other ns ->
  NoDup ((this :: nt.*1) ++ other :: ns.*1) ->
  (length nt <= fuel)%nat -> (length ns <= fuel')%nat ->
  exists h',
    List_move_assign fuel this other h = Ok tt h'
    /\ forward_values fuel' this h' = Ok ns.*2 h'
    /\ List_size this h' = Ok (Z.of_nat (length ns)) h'
    /\ (forall p v, (p, v) ∈ ns -> deref p h' = Ok v h')
    /\ is_List h' other []
    /\ (forall x, x ∈ nt.*1 -> h' !! x = None)
    /\ (forall x, x ∉ (this :: nt.*1) ++ other :: ns.*1 -> h' !! x = h !! x).
Proof.
  intros HLt HLo Hnd Hfuel Hfuel'.
  destruct (List_move_assign_spec h this other nt ns fuel HLt HLo Hnd Hfuel)
    as (h' & Hrun & HLo' & HLt' & Hdead & Hfr).
  exists h'. split; [done|]. split; [by apply (is_List_from_forward h' this other)|].
  split; [by apply (is_List_from_size h' this other)|].
  split; [|done]. intros p v Hin. destruct HLt' as (_ & Hch & _).
  by apply (chain_value h' other ns this).
Qed.

(** X17.  Move construction in fresh storage from a valid list hands the
    new list the nodes of the source as they are, in order, and leaves the
    source valid and empty; no other object changes. *)
Theorem List_move_ctor_transfers h this other ns fuel :
  is_List h other ns -> h !! this = None -> valid_ptr this ->
  (length ns <= fuel)%nat ->
  exists h',
    List_move_ctor this other h = Ok tt h'
    /\ forward_values fuel this h' = Ok ns.*2 h'
    /\ List_size this h' = Ok (Z.of_nat (length ns)) h'
    /\ (forall p v, (p, v) ∈ ns -> deref p h' = Ok v h')
    /\ is_List h' other []
    /\ (forall x, x ∉ this :: other :: ns.*1 -> h' !! x = h !! x).
Proof.
  intros HL Hfresh Hv Hfuel.
  destruct (List_move_ctor_spec h this other ns HL Hfresh Hv) as (h' & Hrun & HLo & HLt & Hfr).
  exists h'. split; [done|]. split; [by apply (is_List_from_forward h' this other)|].
  split; [by apply (is_List_from_size h' this other)|].
  split; [|done]. intros p v Hin. destruct HLt as (_ & Hch & _).
  by apply (chain_value h' other ns this).
Qed.

(** X21.  On two valid lists [a == b] and [b == a] give the same answer,
    [a != b] gives the opposite one, and [a == a] is true. *)
Theorem List_eq_symmetric h a b nsa nsb fuel :
  is_List h a nsa -> is_List h b nsb ->
  (length nsa <= fuel)%nat -> (length nsb <= fuel)%nat ->
  exists r,
    List_eq fuel a b h = Ok r h
    /\ List_eq fuel b a h = Ok r h
    /\ List_ne fuel a b h = Ok (negb r) h
    /\ List_eq fuel a a h = Ok true h
    /\ (r = true <-> nsa.*2 = nsb.*2).
Proof.
  intros HLa HLb Hfa Hfb.
  pose proof (List_eq_with_spec T_ne h a b nsa nsb fuel T_ne_spec HLa HLb Hfa) as Hab.
  pose proof (List_eq_with_spec T_ne h b a nsb nsa fuel T_ne_spec HLb HLa Hfb) as Hba.
  pose proof (List_eq_with_spec T_ne h a a nsa nsa fuel T_ne_spec HLa HLa Hfa) as Haa.
  exists (bool_decide (nsa.*2 = nsb.*2)). split; [done|]. split; [|split; [|split]].
  - unfold List_eq. rewrite Hba. f_equal. apply bool_decide_ext. split; by intros ->.
  - unfold List_ne. eapply run_bind; [exact Hab|]. done.
  - unfold List_eq. rewrite Haa. by rewrite bool_decide_eq_true_2.
  - apply bool_decide_eq_true.
Qed.

(** X22.  [erase] of the position that [insert] has just returned gives
    back the position the element was inserted before, and leaves every
    object that was in the store exactly as it was.  What stays behind
    is the storage of the new node, released by the [delete] of [erase]
    with the inserted value undestroyed. *)
Theorem List_insert_erase_round_trip h this ns pos v p :
  is_List h this ns -> pos ∈ this :: ns.*1 -> valid_ptr p -> h !! p = None ->
  (do it <- List_insert this pos v (allocated p); List_erase this it) h
  = Ok pos (<[p := Undestroyed v]> h).
Proof.
  intros HL Hpos Hv Hfresh.
  pose proof (fresh_not_live h this ns p HL Hfresh) as Hnew.
  destruct (ring_split_first _ _ _ Hpos) as (ns1 & ns2 & -> & ->).
  destruct (insert_spec h this ns1 ns2 v p HL Hv Hfresh) as (h1 & Hrun1 & HL1 & Hfr1).
  destruct (erase_spec h1 this ns1 p v ns2 HL1) as (h2 & Hrun2 & HL2 & Hfr2 & Hleft).
  eapply run_bind; [exact Hrun1|]. cbv beta. rewrite Hrun2. f_equal.
  apply map_eq. intros x.
  destruct (decide (x = p)) as [->|Hxp]; [by rewrite Hleft, lookup_insert_eq|].
  rewrite lookup_insert_ne by done.
  destruct (decide (x ∈ this :: (ns1 ++ ns2).*1)) as [Hin|Hout].
  { by apply (is_List_lookup h h2 this (ns1 ++ ns2)). }
  rewrite Hfr2, Hfr1; done.
Qed.

(** X23.  On a valid list, stepping an iterator forward and then backward,
    or backward and then forward, from any position of the ring comes
    back to that position, and both steps stay in the ring; on an empty
    list [--end()] is [end()]. *)
Theorem iterator_steps_inverse h this ns x :
  is_List h this ns -> x ∈ this :: ns.*1 ->
  exists y z,
    iter_incr x h = Ok y h /\ y ∈ this :: ns.*1 /\ iter_decr y h = Ok x h
    /\ iter_decr x h = Ok z h /\ z ∈ this :: ns.*1 /\ iter_incr z h = Ok x h
    /\ (ns = [] -> y = end_node this /\ z = end_node this).
Proof.
  intros HL Hx.
  destruct (ring_split_last _ _ _ Hx) as (ns1 & ns2 & -> & ->).
  destruct (is_List_next _ _ _ _ HL) as (o & Ho & Hlo & Hnx).
  destruct (is_List_prev _ _ _ _ HL) as (on & Hon & Hlon & Hpv).
  destruct (ring_split_first (ns1 ++ ns2) this (last_ptr this ns1) Hx)
    as (ms1 & ms2 & Hms & Hx').
  pose proof HL as HL'. rewrite Hms in HL'.
  destruct (is_List_prev _ _ _ _ HL') as (o' & Ho' & Hlo' & Hpv').
  destruct (is_List_next _ _ _ _ HL') as (op & Hop & Hlop & Hnx').
  rewrite <- Hx' in Ho', Hnx'. rewrite Ho in Ho'. injection Ho' as <-.
  exists (first_ptr ns2 this), (last_ptr this ms1).
  split; [unfold iter_incr; rewrite <- Hnx; by apply run_get_next|].
  split; [apply first_ptr_in_app|].
  split; [unfold iter_decr; rewrite <- Hpv; by apply run_get_prev|].
  split; [unfold iter_decr; rewrite <- Hpv'; by apply run_get_prev|].
  split.
  { pose proof (last_ptr_in ms1 this) as Hin. rewrite Hms, fmap_app.
    revert Hin. rewrite !elem_of_cons, elem_of_app. tauto. }
  split; [unfold iter_incr; rewrite <- Hnx'; by apply run_get_next|].
  intros Hnil. apply app_eq_nil in Hnil as [-> ->]. symmetry in Hms.
  apply app_eq_nil in Hms as [-> ->]. done.
Qed.

(** X24.  Every state that default construction followed by [insert] and
    [erase] at positions of the ring can reach satisfies the invariants I1
    to I4, and its [size()] is the number of values that the forward
    traversal meets. *)
Theorem reachable_invariants h this :
  reachable this h ->
  I1 h this /\ I2 h this /\ I3 h this /\ I4 h this
  /\ exists vs,
       List_size this h = Ok (Z.of_nat (length vs)) h
       /\ forall fuel, (length vs <= fuel)%nat -> forward_values fuel this h = Ok vs h.
Proof.
  intros Hreach. destruct (reachable_valid h this Hreach) as (ns & HL).
  destruct (is_List_invariants h this ns HL) as (H1 & H2 & H3 & H4).
  split; [done|]. split; [done|]. split; [done|]. split; [done|].
  exists ns.*2. rewrite length_fmap. split; [by apply is_List_size|].
  intros fuel Hfuel. by apply forward_values_spec.
Qed.

Lemma advance_split h this ns1 ns2 ns3 :
  is_List h this (ns1 ++ ns2 ++ ns3) ->
  advance (length ns2) (first_ptr (ns2 ++ ns3) this) h = Ok (first_ptr ns3 this) h.
Proof.
  revert ns1. induction ns2 as [|[p v] ns2 IH]; intros ns1 HL; [done|].
  cbn [length advance app first_ptr].
  assert (HL' : is_List h this ((ns1 ++ [(p, v)]) ++ ns2 ++ ns3)) by by rewrite <- app_assoc.
  destruct (is_List_next _ _ _ _ HL') as (o & Ho & Hlo & Hnx).
  rewrite last_ptr_app in Ho. cbn [last_ptr] in Ho.
  eapply run_bind; [unfold iter_incr; by apply run_get_next|]. cbv beta.
  rewrite Hnx. by apply (IH (ns1 ++ [(p, v)])).
Qed.

Lemma advance_add j k x (h : heap T) :
  advance (j + k) x h = (do y <- advance j x; advance k y) h.
Proof.
  revert x h. induction j as [|j IH]; intros x h; cbn [advance Nat.add]; [done|].
  unfold bind. destruct (iter_incr x h); [apply IH|done|done].
Qed.

(** X25.  On a valid list the position [k] steps after [begin()] is the
    node of the element of index [k], and dereferencing it gives that
    element; [size()] steps after [begin()] is [end()], and one more step
    is [begin()] again. *)
Theorem position_at_index_nth h this ns :
  is_List h this ns ->
  (forall k p v, ns !! k = Some (p, v) ->
     position_at_index this k h = Ok p h
     /\ (do pos <- position_at_index this k; deref pos) h = Ok v h)
  /\ position_at_index this (length ns) h = Ok (end_node this) h
  /\ position_at_index this (S (length ns)) h = List_begin this h.
Proof.
  intros HL. pose proof HL as (Hthis & _).
  assert (Hpos : forall ns1 ns2, ns = ns1 ++ ns2 ->
            position_at_index this (length ns1) h = Ok (first_ptr ns2 this) h).
  { intros ns1 ns2 ->. unfold position_at_index.
    eapply run_bind; [by eapply run_List_begin|]. cbn [next header].
    apply (advance_split h this [] ns1 ns2). done. }
  split; [|split].
  - intros k p v Hk.
    pose proof (take_drop_middle ns k (p, v) Hk) as Hsplit.
    pose proof (Hpos (take k ns) ((p, v) :: drop (S k) ns) (eq_sym Hsplit)) as Hrun.
    rewrite length_take_le in Hrun by (apply lookup_lt_Some in Hk; lia).
    split; [done|]. eapply run_bind; [exact Hrun|]. cbn [first_ptr].
    rewrite <- Hsplit in HL. destruct (is_List_value _ _ _ _ _ _ HL) as (hd & Hp).
    by eapply run_deref.
  - apply (Hpos ns []). by rewrite app_nil_r.
  - rewrite (run_List_begin _ _ _ Hthis I). cbn [next header].
    replace (S (length ns)) with (length ns + 1)%nat by lia.
    unfold position_at_index.
    eapply run_bind; [by eapply run_List_begin|]. cbn [next header].
    rewrite advance_add.
    eapply run_bind.
    { pose proof (advance_split h this [] ns []) as Hadv.
      rewrite app_nil_r in Hadv. apply Hadv. exact HL. }
    cbn [first_ptr advance].
    eapply run_bind; [unfold iter_incr; by apply run_get_next|]. done.
Qed.

(** X26.  On a valid list [empty()] is true exactly when [begin()] is
    [end()], which is exactly when [size()] is zero and the list has no
    element. *)
Theorem List_empty_iff_begin_is_end h this ns :
  is_List h this ns ->
  exists b,
    List_begin this h = Ok b h
    /\ List_end this h = Ok (end_node this) h
    /\ List_empty this h = Ok (bool_decide (b = end_node this)) h
    /\ List_size this h = Ok (Z.of_nat (length ns)) h
    /\ (b = end_node this <-> ns = []).
Proof.
  intros HL. pose proof HL as (Hthis & _ & Hnd & _).
  exists (first_ptr ns this).
  split; [by rewrite (run_List_begin _ _ _ Hthis I)|]. split; [done|].
  assert (Hiff : first_ptr ns this = end_node this <-> ns = []).
  { destruct ns as [|[p v] ns]; [done|]. cbn [first_ptr]. unfold end_node.
    split; [|done]. intros ->. exfalso. revert Hnd. rewrite fmap_cons, NoDup_cons.
    intros [Hn _]. apply Hn. left. }
  split; [|split; [by apply is_List_size|done]].
  unfold List_empty. eapply run_bind; [by eapply run_get_size|]. cbv beta. unfold ret.
  f_equal. destruct ns as [|[p v] ns].
  - by rewrite bool_decide_eq_true_2.
  - rewrite bool_decide_eq_false_2; [done|]. intros E. apply Hiff in E. done.
Qed.

End ListMore.

(** * Concrete runs on [List<int>] *)

Lemma store_a_valid : is_List store_a 100 nodes_a.
Proof. repeat split; compute_done. Qed.

Lemma store_ab_valid_a : is_List store_ab 100 nodes_a.
Proof. repeat split; compute_done. Qed.

Lemma store_ab_valid_b : is_List store_ab 200 [].
Proof. repeat split; compute_done. Qed.

Lemma store_ac_valid_a : is_List store_ac 100 nodes_a.
Proof. repeat split; compute_done. Qed.

Lemma store_ac_valid_c : is_List store_ac 200 nodes_c.
Proof. repeat split; compute_done. Qed.

Lemma store_built_reachable : reachable 100 store_built.
Proof.
  apply (reachable_insert 100 (<[100 := default_List 100]> ∅) 0 100 1 300 300).
  - apply (reachable_ctor 100 ∅); [done|compute_done|done].
  - by vm_compute.
  - compute_done.
  - by vm_compute.
  - by vm_compute.
Qed.

(** The run of [list_main.cpp]: four [push_back], an [insert] at the end,
    one at the start, one before the third element, then [erase] of the
    fourth element, which returns the position of [3]. *)
Example list_main_run :
  exists h after,
    (List_ctor 100;;
     List_push_back 100 1 (allocated 300);;
     List_push_back 100 2 (allocated 301);;
     List_push_back 100 3 (allocated 302);;
     List_push_back 100 4 (allocated 303);;
     do e <- List_end 100; List_insert 100 e 5 (allocated 304);;
     do b <- List_begin 100; List_insert 100 b (-1) (allocated 305);;
     do p <- position_at_index 100 2; List_insert 100 p (-2) (allocated 306);;
     do p <- position_at_index 100 3; List_erase 100 p) ∅ = Ok after h
    /\ deref after h = Ok 3 h
    /\ forward_values 6 100 h = Ok [-1; 1; -2; 3; 4; 5] h
    /\ backward_values 6 100 h = Ok [5; 4; 3; -2; 1; -1] h
    /\ List_size 100 h = Ok 6 h.
Proof. eexists _, _. split; [by vm_compute|]. repeat split; by vm_compute. Qed.


(** [erase] of the second node of [{1, 2, 3}]. *)
Lemma List_erase_leaves_value_undestroyed_witness :
  is_List store_abc 100 nodes_abc
  /\ 301 ∈ 100 :: nodes_abc.*1
  /\ 301 <> end_node 100
  /\ (length nodes_abc <= 3)%nat
  /\ (exists ns1 v ns2 h' hc,
    nodes_abc = ns1 ++ (301, v) :: ns2
    /\ List_erase 100 301 store_abc = Ok (first_ptr ns2 100) h'
    /\ is_List h' 100 (ns1 ++ ns2)
    /\ get_next (last_ptr 100 ns1) h' = Ok (first_ptr ns2 100) h'
    /\ get_prev (first_ptr ns2 100) h' = Ok (last_ptr 100 ns1) h'
    /\ h' !! 301 = Some (Undestroyed v)
    /\ dom h' = dom store_abc
    /\ (forall q, q <> 301 -> q ∉ 100 :: (ns1 ++ ns2).*1 -> h' !! q = store_abc !! q)
    /\ List_size 100 store_abc = Ok (Z.of_nat (length nodes_abc)) store_abc
    /\ List_size 100 h' = Ok (Z.of_nat (length nodes_abc) - 1) h'
    /\ (ns1 ++ ns2 = [] -> h' !! 100 = Some (default_List 100))
    /\ List_clear 3 100 store_abc = Ok tt hc
    /\ hc !! 301 = None).
Proof.
  assert (H1 : is_List store_abc 100 nodes_abc) by (repeat split; compute_done).
  assert (H2 : 301 ∈ 100 :: nodes_abc.*1) by compute_done.
  assert (H3 : 301 <> end_node 100) by compute_done.
  assert (H4 : (length nodes_abc <= 3)%nat) by compute_done.
  repeat (split; [assumption|]).
  exact (List_erase_leaves_value_undestroyed store_abc 100 nodes_abc 301 3 H1 H2 H3 H4).
Defined.

(** A failed allocation while inserting before the end of [{1, 2}]. *)
Lemma List_insert_bad_alloc_unmodified_witness :
  is_List store_a 100 nodes_a /\ 100 ∈ 100 :: nodes_a.*1
  /\ List_insert 100 100 7 bad_alloc store_a = Throw store_a.
Proof.
  assert (H1 : is_List store_a 100 nodes_a) by (repeat split; compute_done).
  assert (H2 : 100 ∈ 100 :: nodes_a.*1) by compute_done.
  repeat (split; [assumption|]).
  exact (proj1 (List_insert_bad_alloc_unmodified store_a 100 nodes_a 100 7 H1 H2)).
Defined.

(** [{1, 2} == {1, 3}] *)
Lemma List_eq_sizes_and_values_witness :
  is_List store_ac 100 nodes_a /\ is_List store_ac 200 nodes_c
  /\ (length nodes_a <= 2)%nat /\ (length nodes_c <= 2)%nat
  /\ exists r sa sb va vb,
    List_eq 2 100 200 store_ac = Ok r store_ac
    /\ List_size 100 store_ac = Ok sa store_ac /\ List_size 200 store_ac = Ok sb store_ac
    /\ forward_values 2 100 store_ac = Ok va store_ac
    /\ forward_values 2 200 store_ac = Ok vb store_ac
    /\ (r = true <->
         sa = sb /\ forall i x y, va !! i = Some x -> vb !! i = Some y -> x = y)
    /\ (sa <> sb -> forall ne, List_eq_with ne 0 100 200 store_ac = Ok false store_ac).
Proof.
  assert (H1 : is_List store_ac 100 nodes_a) by (repeat split; compute_done).
  assert (H2 : is_List store_ac 200 nodes_c) by (repeat split; compute_done).
  assert (H3 : (length nodes_a <= 2)%nat) by compute_done.
  assert (H4 : (length nodes_c <= 2)%nat) by compute_done.
  repeat (split; [assumption|]).
  exact (List_eq_sizes_and_values store_ac 100 200 nodes_a nodes_c 2 2 H1 H2 H3 H4).
Defined.

(** The list [{1, 3}] after default construction, three [insert]s at the
    end and the [erase] of the second element. *)
Lemma backward_traversal_reverses_witness :
  reachable 100 store_erased
  /\ exists vs,
    (forall fuel, (length vs <= fuel)%nat ->
       forward_values fuel 100 store_erased = Ok vs store_erased
       /\ backward_values fuel 100 store_erased = Ok (reverse vs) store_erased)
    /\ (forall v, last vs = Some v ->
         exists it,
           (do e <- List_end 100; iter_decr e) store_erased = Ok it store_erased
           /\ deref it store_erased = Ok v store_erased
           /\ iter_incr it store_erased = Ok (end_node 100) store_erased).
Proof.
  assert (H1 : reachable 100 store_erased).
  { apply (reachable_erase 100 store_abc 1 301 302).
    - apply (reachable_insert 100 store_a 2 100 3 302 302).
      + apply (reachable_insert 100 store_built 1 100 2 301 301).
        * apply (reachable_insert 100 (<[100 := default_List 100]> ∅) 0 100 1 300 300).
          -- apply (reachable_ctor 100 ∅); [done|compute_done|done].
          -- by vm_compute.
          -- compute_done.
          -- by vm_compute.
          -- by vm_compute.
        * by vm_compute.
        * compute_done.
        * by vm_compute.
        * by vm_compute.
      + by vm_compute.
      + compute_done.
      + by vm_compute.
      + by vm_compute.
    - by vm_compute.
    - compute_done.
    - by vm_compute. }
  split; [assumption|].
  exact (backward_traversal_reverses store_erased 100 H1).
Defined.

(** [a = a] on [{1, 2}], with an allocator that would answer. *)
Lemma List_copy_assign_self_empties_witness :
  is_List store_a 100 nodes_a /\ (length nodes_a <= 2)%nat
  /\ exists h',
    List_copy_assign 2 [allocated 500; allocated 501] 100 100 store_a = Ok tt h'
    /\ List_size 100 h' = Ok 0 h'
    /\ List_empty 100 h' = Ok true h'
    /\ List_begin 100 h' = Ok (end_node 100) h'
    /\ List_end 100 h' = Ok (end_node 100) h'
    /\ forward_values 2 100 h' = Ok [] h'
    /\ (forall x, x ∈ nodes_a.*1 -> h' !! x = None).
Proof.
  assert (H1 : is_List store_a 100 nodes_a) by (repeat split; compute_done).
  assert (H2 : (length nodes_a <= 2)%nat) by compute_done.
  repeat (split; [assumption|]).
  exact (List_copy_assign_self_empties store_a 100 nodes_a 2
           [allocated 500; allocated 501] H1 H2).
Defined.

(** [a = std::move(a)] on [{1, 2}]. *)
Lemma List_move_assign_self_empties_witness :
  is_List store_a 100 nodes_a /\ (length nodes_a <= 2)%nat
  /\ exists h',
    List_move_assign 2 100 100 store_a = Ok tt h'
    /\ h' !! 100 = Some (default_List 100)
    /\ List_ctor 100 h' = Ok tt h'
    /\ List_size 100 h' = Ok 0 h'
    /\ is_List h' 100 []
    /\ (forall x, x ∈ nodes_a.*1 -> h' !! x = None)
    /\ (forall x, x ∉ 100 :: nodes_a.*1 -> h' !! x = store_a !! x).
Proof.
  assert (H1 : is_List store_a 100 nodes_a) by (repeat split; compute_done).
  assert (H2 : (length nodes_a <= 2)%nat) by compute_done.
  repeat (split; [assumption|]).
  exact (List_move_assign_self_empties store_a 100 nodes_a 2 H1 H2).
Defined.

(** ** The boundary link that [swap] and the moves leave behind *)

Lemma store_moved_not_I2 : ~ I2 store_moved 200.
Proof. intros HI2. specialize (HI2 0%nat 200 eq_refl). by vm_compute in HI2. Qed.

Lemma store_moved_not_I1 : ~ I1 store_moved 200.
Proof.
  intros (hd & n & Hthis & _ & Hprev).
  assert (n = 2) as -> by (vm_compute in Hthis; congruence).
  by vm_compute in Hprev.
Qed.

Lemma store_swapped_not_I2 : ~ I2 store_swapped 100 /\ ~ I2 store_swapped 200.
Proof.
  split; intros HI2.
  - specialize (HI2 0%nat 100 eq_refl). by vm_compute in HI2.
  - specialize (HI2 0%nat 200 eq_refl). by vm_compute in HI2.
Qed.

(** C1.  [swap] of the valid lists [{1, 2}] at 100 and [{1, 3}] at 200
    runs and exchanges what the forward traversals meet, and a second
    [swap] gives the first store back; but in between both lists break I2
    at their own headers: the first node of each has as [prev] the header
    of the other list.  [erase(begin())] on one of them then writes
    through that link into the other, and the traversals that follow read
    a deleted node.  With an empty operand ([store_ab]) the list that
    receives the elements breaks I2 in the same way. *)
Theorem List_swap_breaks_I2 :
  is_List store_ac 100 nodes_a /\ is_List store_ac 200 nodes_c
  /\ List_swap 100 200 store_ac = Ok tt store_swapped
  /\ List_begin 100 store_swapped = Ok 400 store_swapped
  /\ get_prev 400 store_swapped = Ok 200 store_swapped
  /\ List_begin 200 store_swapped = Ok 300 store_swapped
  /\ get_prev 300 store_swapped = Ok 100 store_swapped
  /\ links_ok store_swapped 100 = false
  /\ links_ok store_swapped 200 = false
  /\ (~ I2 store_swapped 100 /\ ~ I2 store_swapped 200)
  /\ forward_values 2 100 store_swapped = Ok [1; 3] store_swapped
  /\ forward_values 2 200 store_swapped = Ok [1; 2] store_swapped
  /\ List_swap 100 200 store_swapped = Ok tt store_ac
  /\ (do b <- List_begin 100; List_erase 100 b;; forward_values 2 100) store_swapped
     = Fault BadAccess
  /\ (do b <- List_begin 100; List_erase 100 b;; forward_values 2 200) store_swapped
     = Fault BadAccess
  /\ (is_List store_ab 100 nodes_a /\ is_List store_ab 200 []
      /\ List_swap 100 200 store_ab = Ok tt store_moved
      /\ is_List store_moved 100 []
      /\ ~ I2 store_moved 200
      /\ List_swap 100 200 store_moved = Ok tt store_ab).
Proof.
  split; [exact store_ac_valid_a|]. split; [exact store_ac_valid_c|].
  do 7 (split; [by vm_compute|]).
  split; [exact store_swapped_not_I2|].
  do 5 (split; [by vm_compute|]).
  split; [exact store_ab_valid_a|]. split; [exact store_ab_valid_b|].
  split; [by vm_compute|]. split; [repeat split; compute_done|].
  split; [exact store_moved_not_I2|by vm_compute].
Qed.

(** C2.  Move construction at 200 from the valid list [{1, 2}] at 100,
    and move assignment to the empty list at 200, run, leave the source
    empty and valid and give the destination the values in order; but the
    destination breaks I2 at its own header and I1 along [prev]: the
    first node 300 still has [prev] 100, the header of the source. *)
Theorem List_move_breaks_I2 :
  is_List store_a 100 nodes_a /\ store_a !! 200 = None
  /\ List_move_ctor 200 100 store_a = Ok tt store_moved
  /\ is_List store_ab 100 nodes_a /\ is_List store_ab 200 []
  /\ List_move_assign 0 200 100 store_ab = Ok tt store_moved
  /\ is_List store_moved 100 []
  /\ forward_values 2 200 store_moved = Ok [1; 2] store_moved
  /\ get_prev 300 store_moved = Ok 100 store_moved
  /\ links_ok store_moved 200 = false
  /\ ~ I2 store_moved 200
  /\ ~ I1 store_moved 200.
Proof.
  split; [exact store_a_valid|]. split; [by vm_compute|].
  split; [by vm_compute|].
  split; [exact store_ab_valid_a|]. split; [exact store_ab_valid_b|].
  split; [by vm_compute|].
  split; [repeat split; compute_done|].
  split; [by vm_compute|]. split; [by vm_compute|]. split; [by vm_compute|].
  split; [exact store_moved_not_I2|exact store_moved_not_I1].
Qed.

(** * Concrete runs of the further properties *)

Ltac each_elem :=
  let p := fresh "p" in
  let Hp := fresh "Hp" in
  intros p Hp;
  repeat (apply elem_of_cons in Hp as [->|Hp]);
  [.. | by apply elem_of_nil in Hp];
  first [compute_done | left; compute_done | right; compute_done].

(** [push_back(7)] on [{1, 2}], with a node at 302. *)
Lemma List_push_back_appends_witness :
  is_List store_a 100 nodes_a
  /\ valid_ptr 302
  /\ store_a !! 302 = None
  /\ (length nodes_a < 3)%nat
  /\ (exists h',
    List_push_back 100 7 (allocated 302) store_a = Ok tt h'
    /\ is_List h' 100 (nodes_a ++ [(302, 7)])
    /\ forward_values 3 100 h' = Ok (nodes_a.*2 ++ [7]) h'
    /\ (do e <- List_end 100; do it <- iter_decr e; deref it) h' = Ok 7 h'
    /\ List_size 100 h' = Ok (Z.of_nat (length nodes_a) + 1) h'
    /\ (forall q, q ∉ 100 :: nodes_a.*1 -> q <> 302 -> h' !! q = store_a !! q)).
Proof.
  assert (H1 : is_List store_a 100 nodes_a) by (repeat split; compute_done).
  assert (H2 : valid_ptr 302) by compute_done.
  assert (H3 : store_a !! 302 = None) by compute_done.
  assert (H4 : (length nodes_a < 3)%nat) by compute_done.
  repeat (split; [assumption|]).
  exact (List_push_back_appends store_a 100 nodes_a 7 302 3 H1 H2 H3 H4).
Defined.

(** [push_front(7)] on [{1, 2}], with a node at 302. *)
Lemma List_push_front_prepends_witness :
  is_List store_a 100 nodes_a
  /\ valid_ptr 302
  /\ store_a !! 302 = None
  /\ (length nodes_a < 3)%nat
  /\ (exists h',
    List_push_front 100 7 (allocated 302) store_a = Ok tt h'
    /\ is_List h' 100 ((302, 7) :: nodes_a)
    /\ List_begin 100 h' = Ok 302 h'
    /\ deref 302 h' = Ok 7 h'
    /\ forward_values 3 100 h' = Ok (7 :: nodes_a.*2) h'
    /\ List_size 100 h' = Ok (Z.of_nat (length nodes_a) + 1) h'
    /\ (forall q, q ∉ 100 :: nodes_a.*1 -> q <> 302 -> h' !! q = store_a !! q)).
Proof.
  assert (H1 : is_List store_a 100 nodes_a) by (repeat split; compute_done).
  assert (H2 : valid_ptr 302) by compute_done.
  assert (H3 : store_a !! 302 = None) by compute_done.
  assert (H4 : (length nodes_a < 3)%nat) by compute_done.
  repeat (split; [assumption|]).
  exact (List_push_front_prepends store_a 100 nodes_a 7 302 3 H1 H2 H3 H4).
Defined.

(** [pop_front()] on [{1, 2}]. *)
Lemma List_pop_front_removes_first_witness :
  is_List store_a 100 ((300, 1) :: [(301, 2)])
  /\ (length [(301, 2)] <= 1)%nat
  /\ (exists h',
    List_pop_front 100 store_a = Ok tt h'
    /\ is_List h' 100 [(301, 2)]
    /\ h' !! 300 = Some (Undestroyed 1)
    /\ forward_values 1 100 h' = Ok [(301, 2)].*2 h'
    /\ List_size 100 h' = Ok (Z.of_nat (length [(301, 2)])) h'
    /\ (forall q, q ∉ 100 :: [(301, 2)].*1 -> q <> 300 -> h' !! q = store_a !! q)).
Proof.
  assert (H1 : is_List store_a 100 ((300, 1) :: [(301, 2)])) by (repeat split; compute_done).
  assert (H2 : (length [(301, 2)] <= 1)%nat) by compute_done.
  repeat (split; [assumption|]).
  exact (List_pop_front_removes_first store_a 100 300 1 ([(301, 2)]) 1 H1 H2).
Defined.

(** [pop_back()] on [{1, 2}]. *)
Lemma List_pop_back_removes_last_witness :
  is_List store_a 100 ([(300, 1)] ++ [(301, 2)])
  /\ (length [(300, 1)] <= 1)%nat
  /\ (exists h',
    List_pop_back 100 store_a = Ok tt h'
    /\ is_List h' 100 [(300, 1)]
    /\ h' !! 301 = Some (Undestroyed 2)
    /\ forward_values 1 100 h' = Ok [(300, 1)].*2 h'
    /\ List_size 100 h' = Ok (Z.of_nat (length [(300, 1)])) h'
    /\ (forall x, x ∉ 100 :: [(300, 1)].*1 -> x <> 301 -> h' !! x = store_a !! x)).
Proof.
  assert (H1 : is_List store_a 100 ([(300, 1)] ++ [(301, 2)])) by (repeat split; compute_done).
  assert (H2 : (length [(300, 1)] <= 1)%nat) by compute_done.
  repeat (split; [assumption|]).
  exact (List_pop_back_removes_last store_a 100 ([(300, 1)]) 301 2 1 H1 H2).
Defined.

(** [pop_front()] and [pop_back()] on the list object of [store_stale],
    and the [erase] calls that they do not reach. *)
Lemma List_pop_empty_asserts_witness :
  store_stale !! 100 = Some (List {| prev := 300; next := 300 |} 0)
  /\ List_pop_front 100 store_stale = Fault AssertFailed
  /\ List_pop_back 100 store_stale = Fault AssertFailed
  /\ exists h',
       (do x <- List_begin 100; List_erase 100 x) store_stale = Ok (end_node 100) h'
       /\ (do e <- List_end 100; do x <- iter_decr e; List_erase 100 x) store_stale
          = Ok (end_node 100) h'.
Proof.
  assert (H1 : store_stale !! 100 = Some (List {| prev := 300; next := 300 |} 0))
    by compute_done.
  split; [assumption|].
  destruct (List_pop_empty_asserts store_stale 100 _ H1) as (Hfront & Hback & _ & Herase).
  split; [exact Hfront|]. split; [exact Hback|].
  apply (Herase 300 1); [done|done|compute_done].
Defined.

(** [clear()] on [{1, 2}]. *)
Lemma List_clear_empties_witness :
  is_List store_a 100 nodes_a
  /\ (length nodes_a <= 2)%nat
  /\ (exists h',
    List_clear 2 100 store_a = Ok tt h'
    /\ h' !! 100 = Some (default_List 100)
    /\ is_List h' 100 []
    /\ (forall x, x ∈ nodes_a.*1 -> h' !! x = None)
    /\ (forall x, x ∉ 100 :: nodes_a.*1 -> h' !! x = store_a !! x)
    /\ List_clear 2 100 h' = Ok tt h').
Proof.
  assert (H1 : is_List store_a 100 nodes_a) by (repeat split; compute_done).
  assert (H2 : (length nodes_a <= 2)%nat) by compute_done.
  repeat (split; [assumption|]).
  exact (List_clear_empties store_a 100 nodes_a 2 H1 H2).
Defined.

(** [erase] of the range that holds the second element of [{1, 2, 3}]. *)
Lemma List_erase_range_removes_witness :
  is_List store_abc 100 ([(300, 1)] ++ [(301, 2)] ++ [(302, 3)])
  /\ (length [(301, 2)] <= 1)%nat
  /\ (exists h',
    List_erase_range 1 100 (first_ptr ([(301, 2)] ++ [(302, 3)]) 100) (first_ptr [(302, 3)] 100) store_abc
    = Ok (first_ptr [(302, 3)] 100) h'
    /\ is_List h' 100 ([(300, 1)] ++ [(302, 3)])
    /\ (forall q v, (q, v) ∈ [(301, 2)] -> h' !! q = Some (Undestroyed v))
    /\ (forall q, q ∉ 100 :: ([(300, 1)] ++ [(302, 3)]).*1 -> q ∉ [(301, 2)].*1 -> h' !! q = store_abc !! q)
    /\ List_size 100 h' = Ok (Z.of_nat (length [(300, 1)] + length [(302, 3)])) h').
Proof.
  assert (H1 : is_List store_abc 100 ([(300, 1)] ++ [(301, 2)] ++ [(302, 3)])) by (repeat split; compute_done).
  assert (H2 : (length [(301, 2)] <= 1)%nat) by compute_done.
  repeat (split; [assumption|]).
  exact (List_erase_range_removes store_abc 100 ([(300, 1)]) ([(301, 2)]) ([(302, 3)]) 1 H1 H2).
Defined.

(** [erase(std::next(begin()), begin())] on [{1, 2}]. *)
Lemma List_erase_range_overrun_witness :
  is_List store_a 100 ([(300, 1)] ++ [(301, 2)])
  /\ 300 ∈ [(300, 1)].*1
  /\ ((forall fuel, (length [(301, 2)] < fuel)%nat ->
    List_erase_range fuel 100 (first_ptr [(301, 2)] 100) 300 store_a = Fault AssertFailed)
    /\ (forall fuel, (fuel <= length [(301, 2)])%nat ->
    List_erase_range fuel 100 (first_ptr [(301, 2)] 100) 300 store_a = Fault NoFuel)
    /\ exists h1,
    List_erase_range (length [(301, 2)]) 100 (first_ptr [(301, 2)] 100) (end_node 100) store_a
    = Ok (end_node 100) h1
    /\ is_List h1 100 [(300, 1)]
    /\ (forall q v, (q, v) ∈ [(301, 2)] -> h1 !! q = Some (Undestroyed v))
    /\ (forall fuel, List_erase_range (S fuel) 100 (end_node 100) 300 h1
    = Fault AssertFailed)).
Proof.
  assert (H1 : is_List store_a 100 ([(300, 1)] ++ [(301, 2)])) by (repeat split; compute_done).
  assert (H2 : 300 ∈ [(300, 1)].*1) by compute_done.
  repeat (split; [assumption|]).
  exact (List_erase_range_overrun store_a 100 ([(300, 1)]) ([(301, 2)]) 300 H1 H2).
Defined.

(** The destructor of [{1, 2}]. *)
Lemma List_dtor_releases_witness :
  is_List store_a 100 nodes_a
  /\ (length nodes_a <= 2)%nat
  /\ (exists h',
    List_dtor 2 100 store_a = Ok tt h'
    /\ (forall x, x ∈ 100 :: nodes_a.*1 -> h' !! x = None)
    /\ (forall x, x ∉ 100 :: nodes_a.*1 -> h' !! x = store_a !! x)).
Proof.
  assert (H1 : is_List store_a 100 nodes_a) by (repeat split; compute_done).
  assert (H2 : (length nodes_a <= 2)%nat) by compute_done.
  repeat (split; [assumption|]).
  exact (List_dtor_releases store_a 100 nodes_a 2 H1 H2).
Defined.

(** A copy of [{1, 2}] built at 200 with nodes at 400 and 401. *)
Lemma List_copy_ctor_copies_witness :
  is_List store_a 100 nodes_a
  /\ store_a !! 200 = None
  /\ valid_ptr 200
  /\ NoDup (200 :: [400; 401])
  /\ Forall valid_ptr [400; 401]
  /\ (forall p, p ∈ [400; 401] -> store_a !! p = None)
  /\ length [400; 401] = length nodes_a
  /\ (length nodes_a <= 2)%nat
  /\ (exists h',
    List_copy_ctor 2 ((allocated <$> [400; 401]) ++ []) 200 100 store_a = Ok tt h'
    /\ is_List h' 200 (zip [400; 401] nodes_a.*2)
    /\ is_List h' 100 nodes_a
    /\ forward_values 2 200 h' = Ok nodes_a.*2 h'
    /\ List_eq 2 200 100 h' = Ok true h'
    /\ (forall q, q <> 200 -> q ∉ [400; 401] -> h' !! q = store_a !! q)).
Proof.
  assert (H1 : is_List store_a 100 nodes_a) by (repeat split; compute_done).
  assert (H2 : store_a !! 200 = None) by compute_done.
  assert (H3 : valid_ptr 200) by compute_done.
  assert (H4 : NoDup (200 :: [400; 401])) by compute_done.
  assert (H5 : Forall valid_ptr [400; 401]) by compute_done.
  assert (H6 : (forall p, p ∈ [400; 401] -> store_a !! p = None)) by each_elem.
  assert (H7 : length [400; 401] = length nodes_a) by compute_done.
  assert (H8 : (length nodes_a <= 2)%nat) by compute_done.
  repeat (split; [assumption|]).
  exact (List_copy_ctor_copies store_a 200 100 nodes_a ([400; 401]) [] 2 2 H1 H2 H3 H4 H5 H6 H7 H8).
Defined.

(** A copy of [{1, 2}] at 200 whose second allocation fails. *)
Lemma List_copy_ctor_unwinds_witness :
  is_List store_a 100 nodes_a
  /\ store_a !! 200 = None
  /\ valid_ptr 200
  /\ NoDup (200 :: [400])
  /\ Forall valid_ptr [400]
  /\ (forall p, p ∈ [400] -> store_a !! p = None)
  /\ (length [400] < length nodes_a)%nat
  /\ (length [400] <= 1)%nat
  /\ (List_copy_ctor 1 ((allocated <$> [400]) ++ bad_alloc :: []) 200 100 store_a = Throw store_a).
Proof.
  assert (H1 : is_List store_a 100 nodes_a) by (repeat split; compute_done).
  assert (H2 : store_a !! 200 = None) by compute_done.
  assert (H3 : valid_ptr 200) by compute_done.
  assert (H4 : NoDup (200 :: [400])) by compute_done.
  assert (H5 : Forall valid_ptr [400]) by compute_done.
  assert (H6 : (forall p, p ∈ [400] -> store_a !! p = None)) by each_elem.
  assert (H7 : (length [400] < length nodes_a)%nat) by compute_done.
  assert (H8 : (length [400] <= 1)%nat) by compute_done.
  repeat (split; [assumption|]).
  exact (List_copy_ctor_unwinds store_a 200 100 nodes_a ([400]) [] 1 H1 H2 H3 H4 H5 H6 H7 H8).
Defined.

(** [{1, 3}] at 200 assigned from [{1, 2}]; the allocator hands back the node 401 and a new one at 500. *)
Lemma List_copy_assign_copies_witness :
  is_List store_ac 200 nodes_c
  /\ is_List store_ac 100 nodes_a
  /\ NoDup ((200 :: nodes_c.*1) ++ 100 :: nodes_a.*1)
  /\ NoDup [401; 500]
  /\ Forall valid_ptr [401; 500]
  /\ (forall p, p ∈ [401; 500] -> p ∈ nodes_c.*1 \/ store_ac !! p = None)
  /\ length [401; 500] = length nodes_a
  /\ (length nodes_c <= 2)%nat
  /\ (length nodes_a <= 2)%nat
  /\ (exists h',
    List_copy_assign 2 ((allocated <$> [401; 500]) ++ []) 200 100 store_ac = Ok tt h'
    /\ is_List h' 200 (zip [401; 500] nodes_a.*2)
    /\ is_List h' 100 nodes_a
    /\ forward_values 2 200 h' = Ok nodes_a.*2 h'
    /\ List_eq 2 200 100 h' = Ok true h'
    /\ (forall q, q ∈ nodes_c.*1 -> q ∉ [401; 500] -> h' !! q = None)
    /\ (forall q, q ∉ 200 :: nodes_c.*1 -> q ∉ [401; 500] -> h' !! q = store_ac !! q)).
Proof.
  assert (H1 : is_List store_ac 200 nodes_c) by (repeat split; compute_done).
  assert (H2 : is_List store_ac 100 nodes_a) by (repeat split; compute_done).
  assert (H3 : NoDup ((200 :: nodes_c.*1) ++ 100 :: nodes_a.*1)) by compute_done.
  assert (H4 : NoDup [401; 500]) by compute_done.
  assert (H5 : Forall valid_ptr [401; 500]) by compute_done.
  assert (H6 : (forall p, p ∈ [401; 500] -> p ∈ nodes_c.*1 \/ store_ac !! p = None)) by each_elem.
  assert (H7 : length [401; 500] = length nodes_a) by compute_done.
  assert (H8 : (length nodes_c <= 2)%nat) by compute_done.
  assert (H9 : (length nodes_a <= 2)%nat) by compute_done.
  repeat (split; [assumption|]).
  exact (List_copy_assign_copies store_ac 200 100 nodes_c nodes_a ([401; 500]) [] 2 2 H1 H2 H3 H4 H5 H6 H7 H8 H9).
Defined.

(** [{1, 3}] at 200 assigned from [{1, 2}], the second allocation fails. *)
Lemma List_copy_assign_throws_partial_witness :
  is_List store_ac 200 nodes_c
  /\ is_List store_ac 100 nodes_a
  /\ NoDup ((200 :: nodes_c.*1) ++ 100 :: nodes_a.*1)
  /\ NoDup [401]
  /\ Forall valid_ptr [401]
  /\ (forall p, p ∈ [401] -> p ∈ nodes_c.*1 \/ store_ac !! p = None)
  /\ (length [401] < length nodes_a)%nat
  /\ (length nodes_c <= 2)%nat
  /\ (length [401] <= 1)%nat
  /\ (exists h',
    List_copy_assign 2 ((allocated <$> [401]) ++ bad_alloc :: []) 200 100 store_ac = Throw h'
    /\ is_List h' 200 (zip [401] nodes_a.*2)
    /\ is_List h' 100 nodes_a
    /\ forward_values 1 200 h' = Ok (take (length [401]) nodes_a.*2) h'
    /\ (forall q, q ∈ nodes_c.*1 -> q ∉ [401] -> h' !! q = None)).
Proof.
  assert (H1 : is_List store_ac 200 nodes_c) by (repeat split; compute_done).
  assert (H2 : is_List store_ac 100 nodes_a) by (repeat split; compute_done).
  assert (H3 : NoDup ((200 :: nodes_c.*1) ++ 100 :: nodes_a.*1)) by compute_done.
  assert (H4 : NoDup [401]) by compute_done.
  assert (H5 : Forall valid_ptr [401]) by compute_done.
  assert (H6 : (forall p, p ∈ [401] -> p ∈ nodes_c.*1 \/ store_ac !! p = None)) by each_elem.
  assert (H7 : (length [401] < length nodes_a)%nat) by compute_done.
  assert (H8 : (length nodes_c <= 2)%nat) by compute_done.
  assert (H9 : (length [401] <= 1)%nat) by compute_done.
  repeat (split; [assumption|]).
  exact (List_copy_assign_throws_partial store_ac 200 100 nodes_c nodes_a ([401]) [] 2 1 H1 H2 H3 H4 H5 H6 H7 H8 H9).
Defined.

(** A list built at 200 from the values 5 and 6, next to [{1, 2}]. *)
Lemma List_range_ctor_builds_witness :
  store_a !! 200 = None
  /\ valid_ptr 200
  /\ NoDup (200 :: [400; 401])
  /\ Forall valid_ptr [400; 401]
  /\ (forall p, p ∈ [400; 401] -> store_a !! p = None)
  /\ length [400; 401] = length [5; 6]
  /\ (length [5; 6] <= 2)%nat
  /\ (exists h',
    List_range_ctor 2 ((allocated <$> [400; 401]) ++ []) 200 [5; 6] store_a = Ok tt h'
    /\ is_List h' 200 (zip [400; 401] [5; 6])
    /\ forward_values 2 200 h' = Ok [5; 6] h'
    /\ List_size 200 h' = Ok (Z.of_nat (length [5; 6])) h'
    /\ (forall q, q <> 200 -> q ∉ [400; 401] -> h' !! q = store_a !! q)
    /\ List_dtor 2 200 h' = Ok tt store_a).
Proof.
  assert (H1 : store_a !! 200 = None) by compute_done.
  assert (H2 : valid_ptr 200) by compute_done.
  assert (H3 : NoDup (200 :: [400; 401])) by compute_done.
  assert (H4 : Forall valid_ptr [400; 401]) by compute_done.
  assert (H5 : (forall p, p ∈ [400; 401] -> store_a !! p = None)) by each_elem.
  assert (H6 : length [400; 401] = length [5; 6]) by compute_done.
  assert (H7 : (length [5; 6] <= 2)%nat) by compute_done.
  repeat (split; [assumption|]).
  exact (List_range_ctor_builds store_a 200 ([5; 6]) ([400; 401]) [] 2 H1 H2 H3 H4 H5 H6 H7).
Defined.

(** A list built at 200 from the values 5 and 6 whose second allocation fails. *)
Lemma List_range_ctor_unwinds_witness :
  store_a !! 200 = None
  /\ valid_ptr 200
  /\ NoDup (200 :: [400])
  /\ Forall valid_ptr [400]
  /\ (forall p, p ∈ [400] -> store_a !! p = None)
  /\ (length [400] < length [5; 6])%nat
  /\ (length [400] <= 1)%nat
  /\ (List_range_ctor 1 ((allocated <$> [400]) ++ bad_alloc :: []) 200 [5; 6] store_a = Throw store_a).
Proof.
  assert (H1 : store_a !! 200 = None) by compute_done.
  assert (H2 : valid_ptr 200) by compute_done.
  assert (H3 : NoDup (200 :: [400])) by compute_done.
  assert (H4 : Forall valid_ptr [400]) by compute_done.
  assert (H5 : (forall p, p ∈ [400] -> store_a !! p = None)) by each_elem.
  assert (H6 : (length [400] < length [5; 6])%nat) by compute_done.
  assert (H7 : (length [400] <= 1)%nat) by compute_done.
  repeat (split; [assumption|]).
  exact (List_range_ctor_unwinds store_a 200 ([5; 6]) ([400]) [] 1 H1 H2 H3 H4 H5 H6 H7).
Defined.

(** [{1, 3}] at 200 move-assigned from [{1, 2}]. *)
Lemma List_move_assign_transfers_witness :
  is_List store_ac 200 nodes_c
  /\ is_List store_ac 100 nodes_a
  /\ NoDup ((200 :: nodes_c.*1) ++ 100 :: nodes_a.*1)
  /\ (length nodes_c <= 2)%nat
  /\ (length nodes_a <= 2)%nat
  /\ (exists h',
    List_move_assign 2 200 100 store_ac = Ok tt h'
    /\ forward_values 2 200 h' = Ok nodes_a.*2 h'
    /\ List_size 200 h' = Ok (Z.of_nat (length nodes_a)) h'
    /\ (forall p v, (p, v) ∈ nodes_a -> deref p h' = Ok v h')
    /\ is_List h' 100 []
    /\ (forall x, x ∈ nodes_c.*1 -> h' !! x = None)
    /\ (forall x, x ∉ (200 :: nodes_c.*1) ++ 100 :: nodes_a.*1 -> h' !! x = store_ac !! x)).
Proof.
  assert (H1 : is_List store_ac 200 nodes_c) by (repeat split; compute_done).
  assert (H2 : is_List store_ac 100 nodes_a) by (repeat split; compute_done).
  assert (H3 : NoDup ((200 :: nodes_c.*1) ++ 100 :: nodes_a.*1)) by compute_done.
  assert (H4 : (length nodes_c <= 2)%nat) by compute_done.
  assert (H5 : (length nodes_a <= 2)%nat) by compute_done.
  repeat (split; [assumption|]).
  exact (List_move_assign_transfers store_ac 200 100 nodes_c nodes_a 2 2 H1 H2 H3 H4 H5).
Defined.

(** A list move-constructed at 200 from [{1, 2}]. *)
Lemma List_move_ctor_transfers_witness :
  is_List store_a 100 nodes_a
  /\ store_a !! 200 = None
  /\ valid_ptr 200
  /\ (length nodes_a <= 2)%nat
  /\ (exists h',
    List_move_ctor 200 100 store_a = Ok tt h'
    /\ forward_values 2 200 h' = Ok nodes_a.*2 h'
    /\ List_size 200 h' = Ok (Z.of_nat (length nodes_a)) h'
    /\ (forall p v, (p, v) ∈ nodes_a -> deref p h' = Ok v h')
    /\ is_List h' 100 []
    /\ (forall x, x ∉ 200 :: 100 :: nodes_a.*1 -> h' !! x = store_a !! x)).
Proof.
  assert (H1 : is_List store_a 100 nodes_a) by (repeat split; compute_done).
  assert (H2 : store_a !! 200 = None) by compute_done.
  assert (H3 : valid_ptr 200) by compute_done.
  assert (H4 : (length nodes_a <= 2)%nat) by compute_done.
  repeat (split; [assumption|]).
  exact (List_move_ctor_transfers store_a 200 100 nodes_a 2 H1 H2 H3 H4).
Defined.

(** [{1, 2}] compared with [{1, 3}] both ways. *)
Lemma List_eq_symmetric_witness :
  is_List store_ac 100 nodes_a
  /\ is_List store_ac 200 nodes_c
  /\ (length nodes_a <= 2)%nat
  /\ (length nodes_c <= 2)%nat
  /\ (exists r,
    List_eq 2 100 200 store_ac = Ok r store_ac
    /\ List_eq 2 200 100 store_ac = Ok r store_ac
    /\ List_ne 2 100 200 store_ac = Ok (negb r) store_ac
    /\ List_eq 2 100 100 store_ac = Ok true store_ac
    /\ (r = true <-> nodes_a.*2 = nodes_c.*2)).
Proof.
  assert (H1 : is_List store_ac 100 nodes_a) by (repeat split; compute_done).
  assert (H2 : is_List store_ac 200 nodes_c) by (repeat split; compute_done).
  assert (H3 : (length nodes_a <= 2)%nat) by compute_done.
  assert (H4 : (length nodes_c <= 2)%nat) by compute_done.
  repeat (split; [assumption|]).
  exact (List_eq_symmetric store_ac 100 200 nodes_a nodes_c 2 H1 H2 H3 H4).
Defined.

(** [insert] before the node 301 of [{1, 2}] and [erase] of the new node. *)
Lemma List_insert_erase_round_trip_witness :
  is_List store_a 100 nodes_a
  /\ 301 ∈ 100 :: nodes_a.*1
  /\ valid_ptr 302
  /\ store_a !! 302 = None
  /\ ((do it <- List_insert 100 301 7 (allocated 302); List_erase 100 it) store_a
    = Ok 301 (<[302 := Undestroyed 7]> store_a)).
Proof.
  assert (H1 : is_List store_a 100 nodes_a) by (repeat split; compute_done).
  assert (H2 : 301 ∈ 100 :: nodes_a.*1) by compute_done.
  assert (H3 : valid_ptr 302) by compute_done.
  assert (H4 : store_a !! 302 = None) by compute_done.
  repeat (split; [assumption|]).
  exact (List_insert_erase_round_trip store_a 100 nodes_a 301 7 302 H1 H2 H3 H4).
Defined.

(** The steps from the last node of [{1, 2}]. *)
Lemma iterator_steps_inverse_witness :
  is_List store_a 100 nodes_a
  /\ 301 ∈ 100 :: nodes_a.*1
  /\ (exists y z,
    iter_incr 301 store_a = Ok y store_a /\ y ∈ 100 :: nodes_a.*1 /\ iter_decr y store_a = Ok 301 store_a
    /\ iter_decr 301 store_a = Ok z store_a /\ z ∈ 100 :: nodes_a.*1 /\ iter_incr z store_a = Ok 301 store_a
    /\ (nodes_a = [] -> y = end_node 100 /\ z = end_node 100)).
Proof.
  assert (H1 : is_List store_a 100 nodes_a) by (repeat split; compute_done).
  assert (H2 : 301 ∈ 100 :: nodes_a.*1) by compute_done.
  repeat (split; [assumption|]).
  exact (iterator_steps_inverse store_a 100 nodes_a 301 H1 H2).
Defined.

(** The list [{1}] after default construction and one [insert]. *)
Lemma reachable_invariants_witness :
  reachable 100 store_built
  /\ (I1 store_built 100 /\ I2 store_built 100 /\ I3 store_built 100 /\ I4 store_built 100
    /\ exists vs,
    List_size 100 store_built = Ok (Z.of_nat (length vs)) store_built
    /\ forall fuel, (length vs <= fuel)%nat -> forward_values fuel 100 store_built = Ok vs store_built).
Proof.
  assert (H1 : reachable 100 store_built).
  { apply (reachable_insert 100 (<[100 := default_List 100]> ∅) 0 100 1 300 300).
    - apply (reachable_ctor 100 ∅); [done|compute_done|done].
    - by vm_compute.
    - compute_done.
    - by vm_compute.
    - by vm_compute. }
  repeat (split; [assumption|]).
  exact (reachable_invariants store_built 100 H1).
Defined.

(** The positions of [{1, 2}]. *)
Lemma position_at_index_nth_witness :
  is_List store_a 100 nodes_a
  /\ ((forall k p v, nodes_a !! k = Some (p, v) ->
    position_at_index 100 k store_a = Ok p store_a
    /\ (do pos <- position_at_index 100 k; deref pos) store_a = Ok v store_a)
    /\ position_at_index 100 (length nodes_a) store_a = Ok (end_node 100) store_a
    /\ position_at_index 100 (S (length nodes_a)) store_a = List_begin 100 store_a).
Proof.
  assert (H1 : is_List store_a 100 nodes_a) by (repeat split; compute_done).
  repeat (split; [assumption|]).
  exact (position_at_index_nth store_a 100 nodes_a H1).
Defined.

(** [empty()] and [begin()] on [{1, 2}]. *)
Lemma List_empty_iff_begin_is_end_witness :
  is_List store_a 100 nodes_a
  /\ (exists b,
    List_begin 100 store_a = Ok b store_a
    /\ List_end 100 store_a = Ok (end_node 100) store_a
    /\ List_empty 100 store_a = Ok (bool_decide (b = end_node 100)) store_a
    /\ List_size 100 store_a = Ok (Z.of_nat (length nodes_a)) store_a
    /\ (b = end_node 100 <-> nodes_a = [])).
Proof.
  assert (H1 : is_List store_a 100 nodes_a) by (repeat split; compute_done).
  repeat (split; [assumption|]).
  exact (List_empty_iff_begin_is_end store_a 100 nodes_a H1).
Defined.
